(** * Sirikata / Iridium core: a shallow embedding and its verified properties

    The development follows the layout of the repository:
    - [AtomicTypes]     src/util/AtomicTypes.hpp
    - [WebViewManager]  liboh/plugins/ogre/WebViewManager.cpp
    - [CacheLayer]      src/transfer/CacheLayer.hpp
    - [EventManager]    src/task/EventManager.hpp
    - [ASIOReadBuffer]  libcore/src/network/ASIOReadBuffer.hpp

    Integers of a fixed width are [Z] with the wrap-around written out,
    pointers are addresses ([Z] or [nat]), heaps and tables are finite
    maps, and every mutating member function is a function from the state
    before to the state after. *)

From Stdlib Require Import ZArith Lia List Bool.
From stdpp Require Import gmap list strings sorting.
Import ListNotations.

(** ** AtomicTypes.hpp *)

Module AtomicTypes.

Local Open Scope Z_scope.

(** [size_t] on the LP64 targets the header is compiled for. *)
Definition size_t_bits : Z := 64.

Definition size_t_wrap (z : Z) : Z := z mod 2 ^ size_t_bits.

(** [~x] on a [size_t]. *)
Definition size_t_not (x : Z) : Z := size_t_wrap (Z.lnot x).

(** [sizeof(T)==4?3:(sizeof(T)==2?1:(sizeof(T)==8?7:15))] *)
Definition alignMask (sizeofT : Z) : Z :=
  if sizeofT =? 4 then 3
  else if sizeofT =? 2 then 1
  else if sizeofT =? 8 then 7
  else 15.

(** The extent of [mMemory]:
    [sizeof(T)+(sizeof(T)==4?4:(sizeof(T)==2?2:(sizeof(T)==8?8:16)))] *)
Definition memorySize (sizeofT : Z) : Z :=
  sizeofT + (if sizeofT =? 4 then 4
             else if sizeofT =? 2 then 2
             else if sizeofT =? 8 then 8
             else 16).

(** [AtomicValue::ALIGN]: the mask is complemented and and-ed with the
    address of the buffer. *)
Definition ALIGN (sizeofT : Z) (data : Z) : Z :=
  let shiftammt := alignMask sizeofT in
  let shiftammt := size_t_not shiftammt in
  Z.land (size_t_wrap data) shiftammt.

(** An access of [sizeofT] bytes at [p] stays inside the [mMemory] array
    that starts at [data]. *)
Definition insideMemory (sizeofT data p : Z) : Prop :=
  data <= p /\ p + sizeofT <= data + memorySize sizeofT.

(** *** The value cell

    [T] is an unsigned integral type of [sizeofT] bytes; the object stored
    at [ALIGN(mMemory)] is a [Z] in [[0, 2^(8*sizeofT))].  Every member
    function maps the stored value to the returned value and the value
    stored afterwards. *)

Section Value.

Variable sizeofT : Z.

Definition wrapT (z : Z) : Z := z mod 2 ^ (8 * sizeofT).

Definition inT (z : Z) : Prop := 0 <= z < 2 ^ (8 * sizeofT).

(** [SizedAtomicValue<size>], the branch for neither _WIN32 nor __APPLE__:
    [__sync_add_and_fetch] and [__sync_sub_and_fetch] return the new value. *)
Definition add (scalar other : Z) : Z * Z :=
  let v := wrapT (scalar + other) in (v, v).

Definition inc (scalar : Z) : Z * Z :=
  let v := wrapT (scalar + 1) in (v, v).

Definition dec (scalar : Z) : Z * Z :=
  let v := wrapT (scalar - 1) in (v, v).

(** [T operator +=(const T&other)] *)
Definition op_plus_assign (this other : Z) : Z * Z := add this other.

(** [T operator -=(const T&other) { return *this+=-other; }]: the negated
    operand is converted back to [T] when it is bound to [const T&]. *)
Definition op_minus_assign (this other : Z) : Z * Z :=
  op_plus_assign this (wrapT (- other)).

(** [T operator ++()] and [T operator --()] *)
Definition op_pre_inc (this : Z) : Z * Z := inc this.

Definition op_pre_dec (this : Z) : Z * Z := dec this.

(** [T operator++(int) { return (++*this)-(T)1; }] *)
Definition op_post_inc (this : Z) : Z * Z :=
  let '(r, stored) := op_pre_inc this in (wrapT (r - 1), stored).

(** [T operator--(int) { return (--*this)+(T)1; }] *)
Definition op_post_dec (this : Z) : Z * Z :=
  let '(r, stored) := op_pre_dec this in (wrapT (r + 1), stored).

(** [T read() const] *)
Definition read (this : Z) : Z := this.

End Value.

(** *** Alignment *)

Lemma alignMask_ones (s : Z) :
  exists k, 1 <= k <= 4 /\ alignMask s = Z.ones k.
Proof.
  unfold alignMask.
  destruct (s =? 4); [exists 2; split; [lia | reflexivity] |].
  destruct (s =? 2); [exists 1; split; [lia | reflexivity] |].
  destruct (s =? 8); [exists 3; split; [lia | reflexivity] |].
  exists 4; split; [lia | reflexivity].
Qed.

Lemma ALIGN_clears_low (s data : Z) (k : Z) :
  1 <= k <= 4 -> alignMask s = Z.ones k ->
  0 <= data < 2 ^ size_t_bits ->
  ALIGN s data = data - data mod 2 ^ k.
Proof.
  intros Hk Hm Hd. unfold ALIGN, size_t_not, size_t_wrap. rewrite Hm.
  rewrite (Z.mod_small data) by exact Hd.
  assert (Hl : Z.land data (Z.lnot (Z.ones k) mod 2 ^ size_t_bits)
               = Z.ldiff data (Z.ones k)).
  { apply Z.bits_inj'. intros n Hn.
    rewrite Z.land_spec, Z.ldiff_spec.
    destruct (Z_lt_ge_dec n size_t_bits) as [Hlt | Hge].
    - rewrite Z.mod_pow2_bits_low by lia. rewrite Z.lnot_spec by lia. reflexivity.
    - rewrite Z.mod_pow2_bits_high by (unfold size_t_bits in *; lia).
      assert (Z.testbit data n = false) as ->.
      { destruct (Z.eq_dec data 0) as [-> | Hnz]; [apply Z.bits_0 |].
        apply Z.bits_above_log2; [lia |].
        apply Z.lt_le_trans with size_t_bits; [| lia].
        apply Z.log2_lt_pow2; lia. }
      reflexivity. }
  rewrite Hl, Z.ldiff_ones_r by lia.
  rewrite Z.shiftr_div_pow2, Z.shiftl_mul_pow2 by lia.
  pose proof (Z.div_mod data (2 ^ k)) as E.
  assert (0 < 2 ^ k) by (apply Z.pow_pos_nonneg; lia). lia.
Qed.

(** The aligned address is a multiple of mask+1 ... *)
Lemma ALIGN_multiple (s data : Z) :
  0 <= data < 2 ^ size_t_bits ->
  (ALIGN s data) mod (alignMask s + 1) = 0.
Proof.
  intros Hd. destruct (alignMask_ones s) as (k & Hk & Hm).
  rewrite (ALIGN_clears_low s data k Hk Hm Hd), Hm.
  rewrite Z.ones_equiv. replace (Z.pred (2 ^ k) + 1) with (2 ^ k) by lia.
  assert (0 < 2 ^ k) by (apply Z.pow_pos_nonneg; lia).
  rewrite Zminus_mod, Z.mod_mod, Z.sub_diag by lia. apply Z.mod_0_l. lia.
Qed.

(** ... but it is obtained by rounding DOWN: it never lies above the start
    of the buffer, and lies strictly below it as soon as the start is not
    itself aligned. *)
Lemma ALIGN_rounds_down (s data : Z) :
  0 <= data < 2 ^ size_t_bits ->
  ALIGN s data = data - data mod (alignMask s + 1).
Proof.
  intros Hd. destruct (alignMask_ones s) as (k & Hk & Hm).
  rewrite (ALIGN_clears_low s data k Hk Hm Hd), Hm, Z.ones_equiv.
  replace (Z.pred (2 ^ k) + 1) with (2 ^ k) by lia. reflexivity.
Qed.

Lemma ALIGN_outside_when_unaligned (s data : Z) :
  0 <= data < 2 ^ size_t_bits ->
  data mod (alignMask s + 1) <> 0 ->
  ALIGN s data < data /\ ~ insideMemory s data (ALIGN s data).
Proof.
  intros Hd Hne. rewrite (ALIGN_rounds_down s data Hd).
  destruct (alignMask_ones s) as (k & Hk & Hm).
  assert (0 < alignMask s + 1).
  { rewrite Hm, Z.ones_equiv. assert (0 < 2 ^ k) by (apply Z.pow_pos_nonneg; lia). lia. }
  pose proof (Z.mod_pos_bound data (alignMask s + 1) H) as Hb.
  split; [lia |]. unfold insideMemory. lia.
Qed.

(** C9 (evaluated on the code): for a 4-byte [T] whose [mMemory] starts at
    address 4097, [ALIGN] yields 4096.  This is a multiple of 4, but it
    lies one byte before the buffer [[4097, 4105)], so the access through
    the aligned pointer does not stay inside [mMemory]. *)
Theorem ALIGN_escapes_mMemory :
  ALIGN 4 4097 = 4096 /\
  (ALIGN 4 4097) mod (alignMask 4 + 1) = 0 /\
  memorySize 4 = 8 /\
  ALIGN 4 4097 < 4097 /\
  ~ insideMemory 4 4097 (ALIGN 4 4097).
Proof.
  assert (E : ALIGN 4 4097 = 4096) by (vm_compute; reflexivity).
  rewrite E. repeat split; try reflexivity.
  unfold insideMemory. lia.
Qed.

(** *** Arithmetic of the cell *)

Lemma wrapT_small (s z : Z) : inT s z -> wrapT s z = z.
Proof. intros H. apply Z.mod_small. exact H. Qed.

Lemma wrapT_idemp (s z : Z) : 0 <= s -> wrapT s (wrapT s z) = wrapT s z.
Proof.
  intros Hs. unfold wrapT. apply Z.mod_mod.
  apply Z.pow_nonzero; lia.
Qed.

Lemma wrapT_plus_minus (s v a : Z) :
  0 <= s -> inT s v -> wrapT s (wrapT s (v + a) - a) = v.
Proof.
  intros Hs Hv. unfold wrapT.
  assert (Hp : 0 < 2 ^ (8 * s)) by (apply Z.pow_pos_nonneg; lia).
  rewrite Zminus_mod, Z.mod_mod, <- Zminus_mod by lia.
  replace (v + a - a) with v by lia. apply Z.mod_small. exact Hv.
Qed.

(** C10: with [v] stored and [x] any value of [T]: [operator++(int)]
    returns [v] and stores [v+1]; [operator--(int)] returns [v] and stores
    [v-1]; [operator++()] returns [v+1]; [operator+=(x)] returns and stores
    [v+x]; [operator-=(x)] is [operator+=(-x)] and so returns and stores
    [v-x]; all modulo [2^(8*sizeof(T))]. *)
Theorem atomic_arithmetic (sizeofT v x : Z) :
  0 < sizeofT -> inT sizeofT v -> inT sizeofT x ->
  op_post_inc sizeofT v = (v, wrapT sizeofT (v + 1)) /\
  op_post_dec sizeofT v = (v, wrapT sizeofT (v - 1)) /\
  op_pre_inc sizeofT v = (wrapT sizeofT (v + 1), wrapT sizeofT (v + 1)) /\
  op_plus_assign sizeofT v x = (wrapT sizeofT (v + x), wrapT sizeofT (v + x)) /\
  op_minus_assign sizeofT v x = op_plus_assign sizeofT v (wrapT sizeofT (- x)) /\
  op_minus_assign sizeofT v x = (wrapT sizeofT (v - x), wrapT sizeofT (v - x)).
Proof.
  intros Hs Hv Hx.
  assert (Hp : 0 < 2 ^ (8 * sizeofT)) by (apply Z.pow_pos_nonneg; lia).
  repeat split.
  - unfold op_post_inc, op_pre_inc, inc.
    rewrite wrapT_plus_minus by (assumption || lia). reflexivity.
  - unfold op_post_dec, op_pre_dec, dec.
    replace (wrapT sizeofT (v - 1) + 1) with (wrapT sizeofT (v + (-1)) - (-1)) by (f_equal; lia).
    rewrite wrapT_plus_minus by (assumption || lia).
    replace (v + -1) with (v - 1) by lia. reflexivity.
  - unfold op_minus_assign, op_plus_assign, add, wrapT.
    rewrite Zplus_mod_idemp_r. replace (v + - x) with (v - x) by lia. reflexivity.
Qed.

Lemma atomic_arithmetic_witness :
  op_post_inc 2 65535 = (65535, 0) /\
  op_post_dec 2 0 = (0, 65535) /\
  op_minus_assign 2 3 5 = (65534, 65534).
Proof.
  assert (R : forall z, 0 <= z < 65536 -> inT 2 z) by (intros z Hz; exact Hz).
  split; [| split].
  - exact (proj1 (atomic_arithmetic 2 65535 5 ltac:(lia) (R 65535 ltac:(lia)) (R 5 ltac:(lia)))).
  - exact (proj1 (proj2 (atomic_arithmetic 2 0 5 ltac:(lia) (R 0 ltac:(lia)) (R 5 ltac:(lia))))).
  - exact (proj2 (proj2 (proj2 (proj2 (proj2
      (atomic_arithmetic 2 3 5 ltac:(lia) (R 3 ltac:(lia)) (R 5 ltac:(lia)))))))).
Defined.

(** *** Where the cell lies *)

Lemma alignMask_cases (s : Z) :
  (alignMask s = 3 /\ memorySize s = s + 4) \/
  (alignMask s = 1 /\ memorySize s = s + 2) \/
  (alignMask s = 7 /\ memorySize s = s + 8) \/
  (alignMask s = 15 /\ memorySize s = s + 16).
Proof.
  unfold alignMask, memorySize.
  destruct (s =? 4); [left; split; reflexivity |].
  destruct (s =? 2); [right; left; split; reflexivity |].
  destruct (s =? 8); [right; right; left; split; reflexivity |].
  right; right; right; split; reflexivity.
Qed.

Lemma ALIGN_bounds (s data : Z) :
  0 <= data < 2 ^ size_t_bits ->
  data - alignMask s <= ALIGN s data <= data.
Proof.
  intros Hd. rewrite (ALIGN_rounds_down s data Hd).
  assert (0 < alignMask s + 1) by (destruct (alignMask_cases s) as [[-> _] | [[-> _] | [[-> _] | [-> _]]]]; lia).
  pose proof (Z.mod_pos_bound data (alignMask s + 1) H). lia.
Qed.

(** The access through [ALIGN(mMemory)] stays inside [mMemory] exactly when
    the array already starts at a multiple of mask+1 (then [ALIGN] returns
    the start itself); otherwise the cell begins up to mask bytes before
    the array.  It never runs past the end of the array. *)
Theorem ALIGN_inside_iff_aligned (s data : Z) :
  0 <= s -> 0 <= data < 2 ^ size_t_bits ->
  (insideMemory s data (ALIGN s data) <-> data mod (alignMask s + 1) = 0) /\
  (data mod (alignMask s + 1) = 0 -> ALIGN s data = data) /\
  data - alignMask s <= ALIGN s data <= data /\
  ALIGN s data + s <= data + memorySize s /\
  ALIGN s (ALIGN s data) = ALIGN s data.
Proof.
  intros Hs Hd.
  pose proof (ALIGN_bounds s data Hd) as Hb.
  pose proof (ALIGN_rounds_down s data Hd) as Hr.
  assert (Hm : 0 < alignMask s + 1 /\ s <= memorySize s).
  { destruct (alignMask_cases s) as [[-> ->] | [[-> ->] | [[-> ->] | [-> ->]]]]; lia. }
  destruct Hm as [Hm Hsz].
  pose proof (Z.mod_pos_bound data (alignMask s + 1) Hm) as Hmod.
  split; [| split; [| split; [| split]]].
  - unfold insideMemory. split; [intros [H1 _]; lia | intros H0; lia].
  - lia.
  - exact Hb.
  - lia.
  - assert (Hd' : 0 <= ALIGN s data < 2 ^ size_t_bits).
    { split; [| lia]. rewrite Hr.
      pose proof (Z.mod_le data (alignMask s + 1) ltac:(lia) Hm). lia. }
    rewrite (ALIGN_rounds_down s (ALIGN s data) Hd').
    rewrite (ALIGN_multiple s data Hd). lia.
Qed.

Lemma ALIGN_inside_iff_aligned_witness :
  insideMemory 8 4096 (ALIGN 8 4096) /\ ALIGN 8 4103 = 4096.
Proof.
  destruct (ALIGN_inside_iff_aligned 8 4096 ltac:(lia) ltac:(unfold size_t_bits; lia))
    as (Hin & _).
  split; [apply Hin; reflexivity | reflexivity].
Defined.

Lemma ALIGN_apart (s d1 d2 : Z) :
  0 <= d1 -> d1 + memorySize s <= d2 -> d2 < 2 ^ size_t_bits -> 0 <= s ->
  ALIGN s d1 + s <= ALIGN s d2.
Proof.
  intros H1 H12 H2 Hs.
  assert (Hsz : 0 <= memorySize s).
  { destruct (alignMask_cases s) as [[_ ->] | [[_ ->] | [[_ ->] | [_ ->]]]]; lia. }
  pose proof (ALIGN_bounds s d1 ltac:(lia)) as B1.
  pose proof (ALIGN_bounds s d2 ltac:(lia)) as B2.
  destruct (alignMask_cases s) as [[Hm Hz] | [[Hm Hz] | [[Hm Hz] | [Hm Hz]]]];
    rewrite Hm in *; rewrite Hz in *; lia.
Qed.

(** Two [AtomicValue<T>] objects whose [mMemory] arrays do not overlap
    never share a byte of their cells, although each cell may begin before
    its own array: the cell of the array at the higher address begins at
    or after the end of the other cell. *)
Theorem ALIGN_cells_disjoint (s d1 d2 : Z) :
  0 <= d1 -> d1 + memorySize s <= d2 -> d2 < 2 ^ size_t_bits -> 0 <= s ->
  ALIGN s d1 + s <= ALIGN s d2 /\
  forall a, ALIGN s d1 <= a < ALIGN s d1 + s -> ALIGN s d2 <= a < ALIGN s d2 + s -> False.
Proof.
  intros H1 H12 H2 Hs.
  pose proof (ALIGN_apart s d1 d2 H1 H12 H2 Hs) as Hd.
  split; [exact Hd |]. intros a Ha Hb. lia.
Qed.

Lemma ALIGN_cells_disjoint_witness :
  ALIGN 4 4097 + 4 <= ALIGN 4 4105.
Proof.
  apply (ALIGN_cells_disjoint 4 4097 4105); [lia | vm_compute; discriminate | unfold size_t_bits; lia | lia].
Defined.

(** *** The operators in sequence *)

(** The arithmetic operators of [AtomicValue<T>]. *)
Inductive Operator :=
| PlusAssign (other : Z)
| MinusAssign (other : Z)
| PreInc | PreDec | PostInc | PostDec.

(** The operator applied to the stored value: the value returned and the
    value stored afterwards. *)
Definition applyOperator (sizeofT : Z) (this : Z) (o : Operator) : Z * Z :=
  match o with
  | PlusAssign x => op_plus_assign sizeofT this x
  | MinusAssign x => op_minus_assign sizeofT this x
  | PreInc => op_pre_inc sizeofT this
  | PreDec => op_pre_dec sizeofT this
  | PostInc => op_post_inc sizeofT this
  | PostDec => op_post_dec sizeofT this
  end.

(** The value stored after the operators of [os] have run one after the
    other. *)
Definition applyOperators (sizeofT : Z) (this : Z) (os : list Operator) : Z :=
  fold_left (fun v o => snd (applyOperator sizeofT v o)) os this.

(** What the operator adds to the value. *)
Definition delta (o : Operator) : Z :=
  match o with
  | PlusAssign x => x
  | MinusAssign x => - x
  | PreInc | PostInc => 1
  | PreDec | PostDec => -1
  end.

Definition sumDelta (os : list Operator) : Z :=
  fold_right (fun o acc => delta o + acc) 0 os.

Lemma applyOperator_stored (s v : Z) (o : Operator) :
  0 < s -> snd (applyOperator s v o) = wrapT s (v + delta o).
Proof.
  intros Hs.
  assert (Hp : 0 < 2 ^ (8 * s)) by (apply Z.pow_pos_nonneg; lia).
  destruct o as [x | x | | | |]; cbn [applyOperator delta].
  - reflexivity.
  - unfold op_minus_assign, op_plus_assign, add, wrapT. cbn [snd].
    rewrite Zplus_mod_idemp_r. reflexivity.
  - reflexivity.
  - reflexivity.
  - unfold op_post_inc, op_pre_inc, inc. reflexivity.
  - unfold op_post_dec, op_pre_dec, dec. reflexivity.
Qed.

Lemma applyOperators_sum (s : Z) (os : list Operator) : forall v,
  0 < s -> os <> [] -> applyOperators s v os = wrapT s (v + sumDelta os).
Proof.
  unfold applyOperators.
  induction os as [| o os IH]; intros v Hs Hne; [congruence |].
  cbn [fold_left sumDelta fold_right]. rewrite applyOperator_stored by exact Hs.
  destruct os as [| o' os'].
  - cbn. f_equal. lia.
  - rewrite IH by (exact Hs || discriminate).
    unfold wrapT. cbn [sumDelta fold_right].
    rewrite Zplus_mod_idemp_l. f_equal. lia.
Qed.

Lemma sumDelta_Permutation (os os' : list Operator) :
  Permutation os os' -> sumDelta os = sumDelta os'.
Proof.
  induction 1 as [| x l l' _ IH | x y l | l l' l'' _ IH1 _ IH2].
  - reflexivity.
  - change (delta x + sumDelta l = delta x + sumDelta l'). lia.
  - change (delta y + (delta x + sumDelta l) = delta x + (delta y + sumDelta l)). lia.
  - lia.
Qed.

(** On the branch with [__sync_add_and_fetch], the operators compose
    additively: after any sequence of them the stored value is the initial
    value plus the sum of what each adds, modulo [2^(8*sizeof(T))]; so the
    order in which they run does not matter, and as many decrements as
    increments give the initial value back. *)
Theorem operators_compose (s v : Z) (os os' : list Operator) :
  0 < s -> inT s v ->
  applyOperators s v os = wrapT s (v + sumDelta os) /\
  (Permutation os os' -> applyOperators s v os' = applyOperators s v os) /\
  (sumDelta os = 0 -> applyOperators s v os = v).
Proof.
  intros Hs Hv.
  assert (Hsum : forall l, applyOperators s v l = wrapT s (v + sumDelta l)).
  { intros l. destruct l as [| o l].
    - cbn. rewrite Z.add_0_r. symmetry. apply wrapT_small. exact Hv.
    - apply applyOperators_sum; [exact Hs | discriminate]. }
  split; [apply Hsum |]. split.
  - intros Hperm. rewrite !Hsum. f_equal. f_equal. symmetry.
    apply sumDelta_Permutation. exact Hperm.
  - intros H0. rewrite Hsum, H0, Z.add_0_r. apply wrapT_small. exact Hv.
Qed.

Lemma operators_compose_witness :
  applyOperators 2 65535 [PostInc; PlusAssign 7; PreDec; MinusAssign 7] = 65535.
Proof.
  apply (operators_compose 2 65535 [PostInc; PlusAssign 7; PreDec; MinusAssign 7] []);
    [lia | split; [lia | reflexivity] | reflexivity].
Defined.

(** *** The _WIN32 branch *)

(** [SizedAtomicValue<4>] and [SizedAtomicValue<8>] under _WIN32 (the
    primary template is an empty class: for another size the members do
    not exist and the operator that names them does not compile, [None]).
    The functions pass [&scalar], the address of their own parameter, to
    the interlocked instruction: what is added to is the copy of the
    pointer, not the object it points to.  [scalar] is the pointer (on a
    little-endian target with pointers of 64 bits, its low bytes are what a
    [LONG*] or [LONGLONG*] to it reads), [cell] the value of the object.
    [InterlockedExchangeAdd] returns the value from before the addition,
    [InterlockedIncrement] and [InterlockedDecrement] the value after. *)
Definition sized (s : Z) : bool := (s =? 4) || (s =? 8).

Definition win32_add (s scalar cell other : Z) : option (Z * Z) :=
  if sized s then Some (wrapT s scalar, cell) else None.

Definition win32_inc (s scalar cell : Z) : option (Z * Z) :=
  if sized s then Some (wrapT s (scalar + 1), cell) else None.

Definition win32_dec (s scalar cell : Z) : option (Z * Z) :=
  if sized s then Some (wrapT s (scalar - 1), cell) else None.

(** The operators of [AtomicValue<T>] over them; [data] is the address of
    [mMemory]. *)
Definition win32_operator (s data cell : Z) (o : Operator) : option (Z * Z) :=
  match o with
  | PlusAssign x => win32_add s (ALIGN s data) cell x
  | MinusAssign x => win32_add s (ALIGN s data) cell (wrapT s (- x))
  | PreInc => win32_inc s (ALIGN s data) cell
  | PreDec => win32_dec s (ALIGN s data) cell
  | PostInc =>
      match win32_inc s (ALIGN s data) cell with
      | Some (r, stored) => Some (wrapT s (r - 1), stored)
      | None => None
      end
  | PostDec =>
      match win32_dec s (ALIGN s data) cell with
      | Some (r, stored) => Some (wrapT s (r + 1), stored)
      | None => None
      end
  end.

Fixpoint win32_operators (s data cell : Z) (os : list Operator) : option Z :=
  match os with
  | [] => Some cell
  | o :: rest =>
      match win32_operator s data cell o with
      | Some (_, stored) => win32_operators s data stored rest
      | None => None
      end
  end.

(** Under _WIN32 no sequence of [+=], [-=], [++] and [--] changes the
    value an [AtomicValue] of 4 or 8 bytes holds, and what each operator
    returns is computed from the address of the cell, whatever the value
    and the operand: [+=] returns the address itself. *)
Theorem win32_operators_leave_value (s data cell : Z) (os : list Operator) :
  s = 4 \/ s = 8 ->
  win32_operators s data cell os = Some cell /\
  (forall o, exists r,
     (forall c, win32_operator s data c o = Some (r, c)) /\
     (forall x, o = PlusAssign x -> r = wrapT s (ALIGN s data))).
Proof.
  intros Hs.
  assert (Hsized : sized s = true) by (destruct Hs as [-> | ->]; reflexivity).
  assert (Hone : forall o c, exists r, win32_operator s data c o = Some (r, c) /\
            forall c', win32_operator s data c' o = Some (r, c')).
  { intros o c.
    destruct o as [x | x | | | |]; cbn [win32_operator];
      unfold win32_add, win32_inc, win32_dec; rewrite Hsized;
      eexists; split; intros; reflexivity. }
  split.
  - induction os as [| o os IH]; cbn [win32_operators]; [reflexivity |].
    destruct (Hone o cell) as (r & -> & _). exact IH.
  - intros o. destruct (Hone o cell) as (r & Hr & Hall).
    exists r. split; [exact Hall |].
    intros x ->. cbn [win32_operator] in Hr. unfold win32_add in Hr.
    rewrite Hsized in Hr. congruence.
Qed.

Lemma win32_operators_leave_value_witness :
  win32_operators 4 4096 10 [PreInc; PlusAssign 5; PostInc] = Some 10.
Proof.
  apply (win32_operators_leave_value 4 4096 10 [PreInc; PlusAssign 5; PostInc]).
  left; reflexivity.
Defined.

(** *** The cell in memory *)

(** Memory is a byte at every address; an object of type [T] occupies
    [sizeof(T)] bytes, least significant byte first. *)
Definition Memory := Z -> Z.

Definition byteOf (v i : Z) : Z := (v / 256 ^ i) mod 256.

(** [*(T* )p = v] *)
Definition storeT (s : Z) (mem : Memory) (p v : Z) : Memory :=
  fun a => if (p <=? a) && (a <? p + s) then byteOf v (a - p) else mem a.

Fixpoint loadBytes (mem : Memory) (p : Z) (n : nat) : Z :=
  match n with
  | O => 0
  | S n' => mem p + 256 * loadBytes mem (p + 1) n'
  end.

(** [*(T* )p] *)
Definition loadT (s : Z) (mem : Memory) (p : Z) : Z := loadBytes mem p (Z.to_nat s).

(** [explicit AtomicValue (T other)] and
    [const AtomicValue<T>& operator =(T other)]; [this] is the address of
    [mMemory]. *)
Definition assign (s : Z) (mem : Memory) (this other : Z) : Memory :=
  storeT s mem (ALIGN s this) other.

(** [AtomicValue(const AtomicValue&other)] and
    [const AtomicValue& operator =(const AtomicValue& other)] *)
Definition assignFrom (s : Z) (mem : Memory) (this other : Z) : Memory :=
  storeT s mem (ALIGN s this) (loadT s mem (ALIGN s other)).

(** [operator T () const] and [T read() const] *)
Definition readAt (s : Z) (mem : Memory) (this : Z) : Z := loadT s mem (ALIGN s this).

(** [bool operator ==(T other) const] *)
Definition equalsValue (s : Z) (mem : Memory) (this other : Z) : bool :=
  loadT s mem (ALIGN s this) =? other.

(** [bool operator ==(const AtomicValue& other) const] *)
Definition equals (s : Z) (mem : Memory) (this other : Z) : bool :=
  loadT s mem (ALIGN s this) =? loadT s mem (ALIGN s other).

Lemma loadBytes_storeT_inside (s : Z) (mem : Memory) (p v : Z) (n : nat) :
  forall i, 0 <= i -> i + Z.of_nat n <= s ->
    loadBytes (storeT s mem p v) (p + i) n = (v / 256 ^ i) mod 256 ^ Z.of_nat n.
Proof.
  induction n as [| n IH]; intros i Hi Hn.
  - cbn. rewrite Z.mod_1_r. reflexivity.
  - cbn [loadBytes]. replace (p + i + 1) with (p + (i + 1)) by lia.
    rewrite IH by lia.
    unfold storeT at 1.
    replace ((p <=? p + i) && (p + i <? p + s)) with true
      by (symmetry; apply andb_true_iff; split; [apply Z.leb_le | apply Z.ltb_lt]; lia).
    unfold byteOf. replace (p + i - p) with i by lia.
    rewrite Nat2Z.inj_succ, Z.pow_succ_r by lia.
    rewrite Z.rem_mul_r by (try apply Z.pow_pos_nonneg; lia).
    rewrite Z.pow_add_r, Z.pow_1_r by lia.
    rewrite Z.div_div by (try apply Z.pow_pos_nonneg; lia).
    reflexivity.
Qed.

Lemma loadBytes_storeT_outside (s : Z) (mem : Memory) (p v : Z) (n : nat) :
  forall q, q + Z.of_nat n <= p \/ p + s <= q ->
    loadBytes (storeT s mem p v) q n = loadBytes mem q n.
Proof.
  induction n as [| n IH]; intros q Hq; cbn [loadBytes]; [reflexivity |].
  rewrite IH by lia. unfold storeT at 1.
  replace ((p <=? q) && (q <? p + s)) with false; [reflexivity |].
  symmetry. apply andb_false_iff.
  destruct Hq as [Hq | Hq]; [left; apply Z.leb_gt | right; apply Z.ltb_ge]; lia.
Qed.

Lemma loadT_storeT (s : Z) (mem : Memory) (p v : Z) :
  0 <= s -> inT s v -> loadT s (storeT s mem p v) p = v.
Proof.
  intros Hs Hv. unfold loadT.
  replace p with (p + 0) at 2 by lia.
  rewrite loadBytes_storeT_inside by lia.
  rewrite Z.pow_0_r, Z.div_1_r, Z2Nat.id by lia.
  apply Z.mod_small. unfold inT in Hv.
  change 256 with (2 ^ 8). rewrite <- Z.pow_mul_r by lia. exact Hv.
Qed.

(** Assigning a value to an [AtomicValue<T>] and reading it gives the value
    back ([==] with it holds), and leaves what every [AtomicValue<T>] of
    the same [T] with an array apart from this one reads as it was.  So it
    does for an [AtomicValue<U>] of another size [s'] whose array begins at
    or after the end of this one, if the mask of [U] is not larger than
    that of [T].  With a larger mask arrays apart are not enough: the
    [AtomicValue<uint8_t>] whose array begins 4 bytes after the 16-byte
    aligned array of an [AtomicValue<uint16_t>] reads the low byte of the
    value assigned to the latter. *)
Theorem assign_then_read (s : Z) (mem : Memory) (this other x : Z) :
  0 < s -> inT s x ->
  0 <= this -> this + memorySize s <= other -> other < 2 ^ size_t_bits ->
  readAt s (assign s mem this x) this = x /\
  equalsValue s (assign s mem this x) this x = true /\
  readAt s (assign s mem this x) other = readAt s mem other /\
  readAt s (assign s mem other x) this = readAt s mem this /\
  (forall s', 0 < s' -> alignMask s' <= alignMask s ->
     readAt s' (assign s mem this x) other = readAt s' mem other) /\
  (s = 2 -> this mod 16 = 0 -> other = this + 4 ->
     alignMask s < alignMask 1 /\
     readAt 1 (assign s mem this x) other = x mod 256).
Proof.
  intros Hs Hx H0 Hapart Hmax.
  pose proof (ALIGN_apart s this other H0 Hapart Hmax ltac:(lia)) as Hd.
  unfold readAt, equalsValue, assign.
  rewrite loadT_storeT by (lia || exact Hx).
  split; [reflexivity |]. split; [apply Z.eqb_refl |].
  unfold loadT.
  split; [apply loadBytes_storeT_outside; rewrite Z2Nat.id by lia; lia |].
  split; [apply loadBytes_storeT_outside; rewrite Z2Nat.id by lia; lia |].
  split.
  - intros s' Hs' Hmask.
    apply loadBytes_storeT_outside. right.
    assert (Hsz : 0 <= memorySize s).
    { destruct (alignMask_cases s) as [[_ ->] | [[_ ->] | [[_ ->] | [_ ->]]]]; lia. }
    pose proof (ALIGN_bounds s this ltac:(lia)) as B1.
    pose proof (ALIGN_bounds s' other ltac:(lia)) as B2.
    destruct (alignMask_cases s) as [[Hm Hz] | [[Hm Hz] | [[Hm Hz] | [Hm Hz]]]];
      rewrite Hm in *; rewrite Hz in *; lia.
  - intros -> Hal ->. split; [vm_compute; reflexivity |].
    change (memorySize 2) with 4 in Hapart.
    rewrite (ALIGN_rounds_down 2 this) by lia.
    rewrite (ALIGN_rounds_down 1 (this + 4)) by lia.
    change (alignMask 2 + 1) with 2. change (alignMask 1 + 1) with 16.
    replace (this + 4 - (this + 4) mod 16) with (this + 0)
      by (Z.to_euclidean_division_equations; lia).
    replace (this - this mod 2) with this
      by (Z.to_euclidean_division_equations; lia).
    change (Z.to_nat 1) with 1%nat.
    rewrite (loadBytes_storeT_inside 2 mem this x 1 0) by lia.
    rewrite Z.pow_0_r, Z.div_1_r. reflexivity.
Qed.

Lemma assign_then_read_witness :
  (readAt 4 (assign 4 (fun _ => 0) 4097 305419896) 4097 = 305419896 /\
   readAt 4 (assign 4 (fun _ => 0) 4097 305419896) 4105 = 0 /\
   readAt 2 (assign 4 (fun _ => 0) 4097 305419896) 4105 = 0) /\
  (readAt 1 (fun _ => 0) 4100 = 0 /\
   readAt 1 (assign 2 (fun _ => 0) 4096 52) 4100 = 52).
Proof.
  split.
  - destruct (assign_then_read 4 (fun _ => 0) 4097 4105 305419896)
      as (H1 & _ & H2 & _ & H3 & _).
    + lia.
    + unfold inT. lia.
    + lia.
    + vm_compute. discriminate.
    + unfold size_t_bits. lia.
    + split; [exact H1 |]. split; [rewrite H2; reflexivity |].
      rewrite (H3 2); [reflexivity | lia | vm_compute; discriminate].
  - destruct (assign_then_read 2 (fun _ => 0) 4096 4100 52)
      as (_ & _ & _ & _ & _ & H4).
    + lia.
    + unfold inT. lia.
    + lia.
    + vm_compute. discriminate.
    + unfold size_t_bits. lia.
    + split; [reflexivity |].
      destruct H4 as [_ H4]; [reflexivity | reflexivity | reflexivity |].
      rewrite H4. reflexivity.
Defined.

(** After [a = b] on two [AtomicValue]s with arrays apart, [a == b] holds,
    [a] reads what [b] read, and [b] is as it was. *)
Theorem assignFrom_then_equals (s : Z) (mem : Memory) (a b : Z) :
  0 < s -> inT s (readAt s mem a) -> inT s (readAt s mem b) ->
  0 <= a -> a + memorySize s <= b -> b < 2 ^ size_t_bits ->
  equals s (assignFrom s mem a b) a b = true /\
  readAt s (assignFrom s mem a b) a = readAt s mem b /\
  readAt s (assignFrom s mem a b) b = readAt s mem b /\
  equals s (assignFrom s mem b a) b a = true /\
  readAt s (assignFrom s mem b a) a = readAt s mem a.
Proof.
  intros Hs Ha Hb H0 Hapart Hmax.
  pose proof (ALIGN_apart s a b H0 Hapart Hmax ltac:(lia)) as Hd.
  unfold equals, readAt, assignFrom in *.
  rewrite !loadT_storeT by (lia || assumption).
  assert (Hba : forall v, loadT s (storeT s mem (ALIGN s a) v) (ALIGN s b)
                          = loadT s mem (ALIGN s b)).
  { intros v. unfold loadT. apply loadBytes_storeT_outside. rewrite Z2Nat.id by lia. lia. }
  assert (Hab : forall v, loadT s (storeT s mem (ALIGN s b) v) (ALIGN s a)
                          = loadT s mem (ALIGN s a)).
  { intros v. unfold loadT. apply loadBytes_storeT_outside. rewrite Z2Nat.id by lia. lia. }
  rewrite Hba, Hab, !Z.eqb_refl. repeat split.
Qed.

Lemma assignFrom_then_equals_witness :
  equals 2 (assignFrom 2 (assign 2 (fun _ => 0) 108 513) 100 108) 100 108 = true.
Proof.
  destruct (assignFrom_then_equals 2 (assign 2 (fun _ => 0) 108 513) 100 108) as (H1 & _).
  - lia.
  - vm_compute. split; [discriminate | reflexivity].
  - vm_compute. split; [discriminate | reflexivity].
  - lia.
  - vm_compute. discriminate.
  - unfold size_t_bits. lia.
  - exact H1.
Defined.

End AtomicTypes.

(** ** WebViewManager.cpp *)

Module WebViewManager.

Local Open Scope Z_scope.

(** A non-null [WebView*]; the null pointer is [None]. *)
Definition WebViewPtr := nat.

(** [int] arithmetic, two's complement on 32 bits. *)
Definition int_wrap (z : Z) : Z := (z + 2 ^ 31) mod 2 ^ 32 - 2 ^ 31.

Definition int_sub (a b : Z) : Z := int_wrap (a - b).

Definition int_add (a b : Z) : Z := int_wrap (a + b).

(** Which arm of the [if] in [injectMouseMove] ran (a ghost value: the
    function returns [eventHandled] only). *)
Inductive Branch := MoveFocused | Hover.

Section Manager.

(** WebView.hpp is not among the sources: the WebView objects live in a
    store [W], and the member functions [injectMouseMove] calls on them are
    the operations below. *)
Variable W : Type.
Variable movable : W -> WebViewPtr -> bool.
Variable ignoringBounds : W -> WebViewPtr -> bool.
Variable isPointOverMe : W -> WebViewPtr -> Z -> Z -> bool.
Variable getRelativeX : W -> WebViewPtr -> Z -> Z.
Variable getRelativeY : W -> WebViewPtr -> Z -> Z.
Variable panelZOrder : W -> WebViewPtr -> Z.
Variable getVisibility : W -> WebViewPtr -> bool.
Variable move : W -> WebViewPtr -> Z -> Z -> W.
Variable viewInjectMouseMove : W -> WebViewPtr -> Z -> Z -> W.
Variable setPosition : W -> WebViewPtr -> Z -> Z -> W.
Variable hide : W -> WebViewPtr -> bool -> W.
Variable evaluateJS : W -> WebViewPtr -> string -> W.

Record Manager := mkManager {
  webViews : W;
  focusedWebView : option WebViewPtr;
  mouseXPos : Z;
  mouseYPos : Z;
  mouseButtonRDown : bool;
  isDraggingFocusedWebView : bool;
  (** [std::map<std::string,WebView*>], in iteration order *)
  activeWebViews : list (string * WebViewPtr);
  tooltipParent : option WebViewPtr;
  tooltipWebView : WebViewPtr;
  tooltipShowTime : Z
}.

Definition setWebViews (m : Manager) (w : W) : Manager :=
  mkManager w (focusedWebView m) (mouseXPos m) (mouseYPos m)
    (mouseButtonRDown m) (isDraggingFocusedWebView m) (activeWebViews m)
    (tooltipParent m) (tooltipWebView m) (tooltipShowTime m).

Definition setMouse (m : Manager) (x y : Z) : Manager :=
  mkManager (webViews m) (focusedWebView m) x y
    (mouseButtonRDown m) (isDraggingFocusedWebView m) (activeWebViews m)
    (tooltipParent m) (tooltipWebView m) (tooltipShowTime m).

(** [WebViewManager::getTopWebView] *)
Definition getTopWebView (m : Manager) (x y : Z) : option WebViewPtr :=
  fold_left
    (fun top (it : string * WebViewPtr) =>
       if negb (isPointOverMe (webViews m) (snd it) x y) then top
       else match top with
            | None => Some (snd it)
            | Some t =>
                if panelZOrder (webViews m) t >? panelZOrder (webViews m) (snd it)
                then Some t else Some (snd it)
            end)
    (activeWebViews m) None.

(** [WebViewManager::handleTooltip].  In the empty-text arm the assignment
    [tooltipParent = 0] writes the parameter, which hides the member of the
    same name: the member keeps its value. *)
Definition handleTooltip (m : Manager) (tooltipParent_arg : option WebViewPtr)
    (tipText : string) : Manager :=
  if negb (Nat.eqb (String.length tipText) 0) then
    let w1 := hide (webViews m) (tooltipWebView m) true in
    let w2 := evaluateJS w1 (tooltipWebView m)
                ("setTooltip('" ++ tipText ++ "')")%string in
    mkManager w2 (focusedWebView m) (mouseXPos m) (mouseYPos m)
      (mouseButtonRDown m) (isDraggingFocusedWebView m) (activeWebViews m)
      tooltipParent_arg (tooltipWebView m) 0
  else
    setWebViews m (hide (webViews m) (tooltipWebView m) true).

(** The loop over the views that ignore bounds, in the [else] arm. *)
Definition injectIgnoringBounds (w : W) (top : WebViewPtr) (x y : Z)
    (views : list (string * WebViewPtr)) : W :=
  fold_left
    (fun w (it : string * WebViewPtr) =>
       let v := snd it in
       if ignoringBounds w v then
         if negb (isPointOverMe w v x y && (panelZOrder w v <? panelZOrder w top))
         then viewInjectMouseMove w v (getRelativeX w v x) (getRelativeY w v y)
         else w
       else w)
    views w.

Record Result := mkResult {
  eventHandled : bool;
  after : Manager;
  branch : Branch
}.

(** [bool WebViewManager::injectMouseMove(int xPos, int yPos)].  The
    condition is the C++ expression
    [focusedWebView && isDraggingFocusedWebView || focusedWebView && mouseButtonRDown]
    as the grammar parses it: [&&] binds tighter than [||], both evaluate
    left to right and short-circuit. *)
Definition injectMouseMove (m : Manager) (xPos yPos : Z) : Result :=
  let focused := match focusedWebView m with Some _ => true | None => false end in
  if (focused && isDraggingFocusedWebView m) || (focused && mouseButtonRDown m)
  then
    let w :=
      match focusedWebView m with
      | Some f =>
          if movable (webViews m) f
          then move (webViews m) f (int_sub xPos (mouseXPos m)) (int_sub yPos (mouseYPos m))
          else webViews m
      | None => webViews m
      end in
    mkResult true (setMouse (setWebViews m w) xPos yPos) MoveFocused
  else
    let top := getTopWebView m xPos yPos in
    let '(handled, m1) :=
      match top with
      | Some t =>
          let w1 := viewInjectMouseMove (webViews m) t
                      (getRelativeX (webViews m) t xPos) (getRelativeY (webViews m) t yPos) in
          (true, setWebViews m (injectIgnoringBounds w1 t xPos yPos (activeWebViews m)))
      | None => (false, m)
      end in
    let m2 :=
      match tooltipParent m1 with
      | Some p =>
          if negb (isPointOverMe (webViews m1) p xPos yPos)
          then handleTooltip m1 None EmptyString
          else m1
      | None => m1
      end in
    let m3 :=
      if getVisibility (webViews m2) (tooltipWebView m2)
      then setWebViews m2 (setPosition (webViews m2) (tooltipWebView m2) xPos (int_add yPos 15))
      else m2 in
    mkResult handled (setMouse m3 xPos yPos) Hover.

(** C8: the arm that moves the focused view is taken exactly when
    [focusedWebView] is non-null and at least one of
    [isDraggingFocusedWebView], [mouseButtonRDown] holds; when it is taken,
    the event is reported handled and the focused view, if movable, is
    moved by the mouse delta. *)
Theorem injectMouseMove_branch (m : Manager) (xPos yPos : Z) :
  (branch (injectMouseMove m xPos yPos) = MoveFocused <->
     focusedWebView m <> None /\
     (isDraggingFocusedWebView m = true \/ mouseButtonRDown m = true))
  /\
  (branch (injectMouseMove m xPos yPos) = Hover \/
   exists f, focusedWebView m = Some f /\
     eventHandled (injectMouseMove m xPos yPos) = true /\
     webViews (after (injectMouseMove m xPos yPos)) =
       (if movable (webViews m) f
        then move (webViews m) f (int_sub xPos (mouseXPos m)) (int_sub yPos (mouseYPos m))
        else webViews m)).
Proof.
  unfold injectMouseMove.
  destruct (focusedWebView m) as [f |] eqn:Hf;
    destruct (isDraggingFocusedWebView m) eqn:Hd;
    destruct (mouseButtonRDown m) eqn:Hr; cbn [andb orb];
    repeat match goal with
           | |- context [let '(_, _) := ?e in _] => destruct e
           end; cbn [branch eventHandled after setMouse setWebViews webViews].
  all: split;
    [ split;
      [ intros H; first [discriminate H | split; [discriminate | tauto]]
      | intros [Hn [H | H]]; congruence ]
    | first [ left; reflexivity
            | right; exists f; split; [reflexivity | split; reflexivity] ] ].
Qed.

End Manager.

(** *** The views under the pointer *)

Section Pointer.

Variable W : Type.
Variable movable : W -> WebViewPtr -> bool.
Variable ignoringBounds : W -> WebViewPtr -> bool.
Variable isPointOverMe : W -> WebViewPtr -> Z -> Z -> bool.
Variable getRelativeX : W -> WebViewPtr -> Z -> Z.
Variable getRelativeY : W -> WebViewPtr -> Z -> Z.
Variable panelZOrder : W -> WebViewPtr -> Z.
Variable getVisibility : W -> WebViewPtr -> bool.
Variable move : W -> WebViewPtr -> Z -> Z -> W.
Variable viewInjectMouseMove : W -> WebViewPtr -> Z -> Z -> W.
Variable setPosition : W -> WebViewPtr -> Z -> Z -> W.
Variable hide : W -> WebViewPtr -> bool -> W.
Variable evaluateJS : W -> WebViewPtr -> string -> W.

#[local] Arguments webViews {W} _.
#[local] Arguments focusedWebView {W} _.
#[local] Arguments mouseXPos {W} _.
#[local] Arguments mouseYPos {W} _.
#[local] Arguments mouseButtonRDown {W} _.
#[local] Arguments isDraggingFocusedWebView {W} _.
#[local] Arguments activeWebViews {W} _.
#[local] Arguments tooltipParent {W} _.
#[local] Arguments tooltipWebView {W} _.
#[local] Arguments tooltipShowTime {W} _.
#[local] Arguments eventHandled {W} _.
#[local] Arguments after {W} _.
#[local] Arguments branch {W} _.

(** The body of the loop of [getTopWebView]. *)
Definition higher (w : W) (x y : Z) (top : option WebViewPtr)
    (it : string * WebViewPtr) : option WebViewPtr :=
  if negb (isPointOverMe w (snd it) x y) then top
  else match top with
       | None => Some (snd it)
       | Some t => if panelZOrder w t >? panelZOrder w (snd it)
                   then Some t else Some (snd it)
       end.

Lemma higher_fold (w : W) (x y : Z) (views : list (string * WebViewPtr)) :
  forall acc,
    match fold_left (higher w x y) views acc with
    | None => acc = None /\ forall it, it ∈ views -> isPointOverMe w (snd it) x y = false
    | Some t =>
        (acc = Some t /\
         forall it, it ∈ views -> isPointOverMe w (snd it) x y = true ->
           panelZOrder w (snd it) < panelZOrder w t) \/
        (exists l1 name l2,
           views = l1 ++ (name, t) :: l2 /\
           isPointOverMe w t x y = true /\
           (forall it, it ∈ l1 -> isPointOverMe w (snd it) x y = true ->
              panelZOrder w (snd it) <= panelZOrder w t) /\
           (forall a, acc = Some a -> panelZOrder w a <= panelZOrder w t) /\
           (forall it, it ∈ l2 -> isPointOverMe w (snd it) x y = true ->
              panelZOrder w (snd it) < panelZOrder w t))
    end.
Proof.
  induction views as [| it rest IH]; intros acc; cbn [fold_left].
  - destruct acc as [t |].
    + left. split; [reflexivity |]. intros it Hin. apply elem_of_nil in Hin. contradiction.
    + split; [reflexivity |]. intros it Hin. apply elem_of_nil in Hin. contradiction.
  - specialize (IH (higher w x y acc it)).
    destruct (fold_left (higher w x y) rest (higher w x y acc it)) as [t |].
    + unfold higher in IH.
      destruct (isPointOverMe w (snd it) x y) eqn:Hover; cbn [negb] in IH.
      * assert (Hnew : (exists a, acc = Some a /\ panelZOrder w a > panelZOrder w (snd it) /\
                          (acc = Some t /\
                           (forall it0, it0 ∈ rest -> isPointOverMe w (snd it0) x y = true ->
                              panelZOrder w (snd it0) < panelZOrder w t) \/
                           exists l1 name l2, rest = l1 ++ (name, t) :: l2 /\
                             isPointOverMe w t x y = true /\
                             (forall it0, it0 ∈ l1 -> isPointOverMe w (snd it0) x y = true ->
                                panelZOrder w (snd it0) <= panelZOrder w t) /\
                             panelZOrder w a <= panelZOrder w t /\
                             (forall it0, it0 ∈ l2 -> isPointOverMe w (snd it0) x y = true ->
                                panelZOrder w (snd it0) < panelZOrder w t))) \/
                        ((forall a, acc = Some a -> panelZOrder w a <= panelZOrder w (snd it)) /\
                         (snd it = t /\
                           (forall it0, it0 ∈ rest -> isPointOverMe w (snd it0) x y = true ->
                              panelZOrder w (snd it0) < panelZOrder w t) \/
                          exists l1 name l2, rest = l1 ++ (name, t) :: l2 /\
                             isPointOverMe w t x y = true /\
                             (forall it0, it0 ∈ l1 -> isPointOverMe w (snd it0) x y = true ->
                                panelZOrder w (snd it0) <= panelZOrder w t) /\
                             panelZOrder w (snd it) <= panelZOrder w t /\
                             (forall it0, it0 ∈ l2 -> isPointOverMe w (snd it0) x y = true ->
                                panelZOrder w (snd it0) < panelZOrder w t)))).
        { destruct acc as [a |].
          - destruct (panelZOrder w a >? panelZOrder w (snd it)) eqn:Hgt.
            + left. exists a. split; [reflexivity |].
              apply Z.gtb_lt in Hgt. split; [lia |].
              destruct IH as [[H1 H2] | (l1 & name & l2 & H1 & H2 & H3 & H4 & H5)].
              * left. split; assumption.
              * right. exists l1, name, l2. repeat (split; [assumption |]).
                split; [apply H4; reflexivity | exact H5].
            + right. assert (Hle : panelZOrder w a <= panelZOrder w (snd it)).
              { destruct (Z.gtb_spec (panelZOrder w a) (panelZOrder w (snd it))); [discriminate | lia]. }
              split; [intros a' Ha'; injection Ha' as <-; exact Hle |].
              destruct IH as [[H1 H2] | (l1 & name & l2 & H1 & H2 & H3 & H4 & H5)].
              * left. split; [congruence | exact H2].
              * right. exists l1, name, l2. repeat (split; [assumption |]).
                split; [apply H4; reflexivity | exact H5].
          - right. split; [intros a' Ha'; discriminate |].
            destruct IH as [[H1 H2] | (l1 & name & l2 & H1 & H2 & H3 & H4 & H5)].
            + left. split; [congruence | exact H2].
            + right. exists l1, name, l2. repeat (split; [assumption |]).
              split; [apply H4; reflexivity | exact H5]. }
        destruct Hnew as [(a & Ha & Hgt & [[H1 H2] | (l1 & name & l2 & H1 & H2 & H3 & H4 & H5)])
                         | (Hle & [[H1 H2] | (l1 & name & l2 & H1 & H2 & H3 & H4 & H5)])].
        -- left. split; [exact H1 |]. intros it0 Hin Ho.
           apply elem_of_cons in Hin as [-> | Hin]; [| exact (H2 it0 Hin Ho)].
           assert (a = t) by congruence. subst a. lia.
        -- right. exists (it :: l1), name, l2. split; [rewrite H1; reflexivity |].
           split; [exact H2 |]. split; [| split; [| exact H5]].
           ++ intros it0 Hin Ho.
              apply elem_of_cons in Hin as [-> | Hin]; [lia | exact (H3 it0 Hin Ho)].
           ++ intros a' Ha'. assert (a' = a) by congruence. subst a'. exact H4.
        -- right. exists [], (fst it), rest. split; [destruct it; cbn in *; congruence |].
           split; [rewrite <- H1; exact Hover |]. split; [| split].
           ++ intros it0 Hin. apply elem_of_nil in Hin. contradiction.
           ++ intros a Ha. rewrite <- H1. exact (Hle a Ha).
           ++ exact H2.
        -- right. exists (it :: l1), name, l2. split; [rewrite H1; reflexivity |].
           split; [exact H2 |]. split; [| split; [| exact H5]].
           ++ intros it0 Hin Ho.
              apply elem_of_cons in Hin as [-> | Hin]; [exact H4 | exact (H3 it0 Hin Ho)].
           ++ intros a Ha. pose proof (Hle a Ha). lia.
      * destruct IH as [[H1 H2] | (l1 & name & l2 & H1 & H2 & H3 & H4 & H5)].
        -- left. split; [exact H1 |]. intros it0 Hin Ho.
           apply elem_of_cons in Hin as [-> | Hin]; [congruence | exact (H2 it0 Hin Ho)].
        -- right. exists (it :: l1), name, l2. split; [rewrite H1; reflexivity |].
           split; [exact H2 |]. split; [| split; [exact H4 | exact H5]].
           intros it0 Hin Ho.
           apply elem_of_cons in Hin as [-> | Hin]; [congruence | exact (H3 it0 Hin Ho)].
    + destruct IH as [Hacc Hrest]. unfold higher in Hacc.
      destruct (isPointOverMe w (snd it) x y) eqn:Hover; cbn [negb] in Hacc.
      * destruct acc as [a |]; [| discriminate].
        destruct (panelZOrder w a >? panelZOrder w (snd it)); discriminate.
      * split; [exact Hacc |]. intros it0 Hin.
        apply elem_of_cons in Hin as [-> | Hin]; [exact Hover | exact (Hrest it0 Hin)].
Qed.

(** [getTopWebView] returns null exactly when no active view is under the
    point.  Otherwise it returns an active view under the point whose panel
    is not below that of any other view under the point, and among the
    views of the same height the last in the order of the map. *)
Theorem getTopWebView_topmost (m : Manager W) (x y : Z) :
  (getTopWebView W isPointOverMe panelZOrder m x y = None <->
     forall it, it ∈ activeWebViews m -> isPointOverMe (webViews m) (snd it) x y = false) /\
  (forall t, getTopWebView W isPointOverMe panelZOrder m x y = Some t ->
     isPointOverMe (webViews m) t x y = true /\
     exists l1 name l2,
       activeWebViews m = l1 ++ (name, t) :: l2 /\
       (forall it, it ∈ l1 -> isPointOverMe (webViews m) (snd it) x y = true ->
          panelZOrder (webViews m) (snd it) <= panelZOrder (webViews m) t) /\
       (forall it, it ∈ l2 -> isPointOverMe (webViews m) (snd it) x y = true ->
          panelZOrder (webViews m) (snd it) < panelZOrder (webViews m) t)).
Proof.
  pose proof (higher_fold (webViews m) x y (activeWebViews m) None) as H.
  change (fold_left (higher (webViews m) x y) (activeWebViews m) None)
    with (getTopWebView W isPointOverMe panelZOrder m x y) in H.
  destruct (getTopWebView W isPointOverMe panelZOrder m x y) as [t |].
  - split.
    + split; [discriminate |]. intros Hnone. exfalso.
      destruct H as [[H1 _] | (l1 & name & l2 & H1 & H2 & _)]; [discriminate |].
      assert (Hin : (name, t) ∈ activeWebViews m).
      { rewrite H1. apply elem_of_app. right. left. }
      specialize (Hnone _ Hin). cbn in Hnone. congruence.
    + intros t' Ht'. injection Ht' as <-.
      destruct H as [[H1 _] | (l1 & name & l2 & H1 & H2 & H3 & _ & H5)]; [discriminate |].
      split; [exact H2 |]. exists l1, name, l2. split; [exact H1 |]. split; assumption.
  - split; [| intros t Ht; discriminate].
    split; [intros _; exact (proj2 H) | reflexivity].
Qed.

(** [injectMouseMove] reports the event handled exactly when the focused
    view is being dragged or the right button is down on it, or else some
    active view is under the pointer.  It records the position of the
    pointer, and leaves the focus, the two flags, the active views and the
    parent of the tooltip as they were: the assignment [tooltipParent = 0]
    of [handleTooltip] never reaches the member. *)
Theorem injectMouseMove_handled (m : Manager W) (xPos yPos : Z) :
  let r := injectMouseMove W movable ignoringBounds isPointOverMe getRelativeX getRelativeY
             panelZOrder getVisibility move viewInjectMouseMove setPosition hide evaluateJS
             m xPos yPos in
  (eventHandled r = true <->
     (focusedWebView m <> None /\
      (isDraggingFocusedWebView m = true \/ mouseButtonRDown m = true)) \/
     exists it, it ∈ activeWebViews m /\
       isPointOverMe (webViews m) (snd it) xPos yPos = true) /\
  mouseXPos (after r) = xPos /\ mouseYPos (after r) = yPos /\
  focusedWebView (after r) = focusedWebView m /\
  isDraggingFocusedWebView (after r) = isDraggingFocusedWebView m /\
  mouseButtonRDown (after r) = mouseButtonRDown m /\
  activeWebViews (after r) = activeWebViews m /\
  tooltipWebView (after r) = tooltipWebView m /\
  tooltipParent (after r) = tooltipParent m.
Proof.
  intros r. subst r.
  assert (Hbr : (match focusedWebView m with Some _ => true | None => false end
                 && isDraggingFocusedWebView m)
                || (match focusedWebView m with Some _ => true | None => false end
                    && mouseButtonRDown m) = true <->
                focusedWebView m <> None /\
                (isDraggingFocusedWebView m = true \/ mouseButtonRDown m = true)).
  { destruct (focusedWebView m), (isDraggingFocusedWebView m), (mouseButtonRDown m);
      cbn; intuition congruence. }
  pose proof (higher_fold (webViews m) xPos yPos (activeWebViews m) None) as Htopspec.
  change (fold_left (higher (webViews m) xPos yPos) (activeWebViews m) None)
    with (getTopWebView W isPointOverMe panelZOrder m xPos yPos) in Htopspec.
  unfold injectMouseMove in *.
  destruct ((match focusedWebView m with Some _ => true | None => false end
             && isDraggingFocusedWebView m)
            || (match focusedWebView m with Some _ => true | None => false end
                && mouseButtonRDown m)) eqn:Hcond.
  - cbn. split; [| repeat split].
    split; [intros _; left; apply Hbr; reflexivity | reflexivity].
  - destruct (getTopWebView W isPointOverMe panelZOrder m xPos yPos) as [t |] eqn:Htop.
    + cbn [fst snd].
      set (m1 := setWebViews W m _).
      assert (Hfields : focusedWebView m1 = focusedWebView m /\
                isDraggingFocusedWebView m1 = isDraggingFocusedWebView m /\
                mouseButtonRDown m1 = mouseButtonRDown m /\
                activeWebViews m1 = activeWebViews m /\
                tooltipWebView m1 = tooltipWebView m /\
                tooltipParent m1 = tooltipParent m) by (repeat split).
      clearbody m1. destruct Hfields as (F1 & F2 & F3 & F4 & F5 & F6).
      split.
      * split; [| intros _].
        -- intros _. right.
           destruct Htopspec as [[Hx _] | (l1 & name & l2 & Hl & Ho & _)]; [discriminate |].
           exists (name, t). split; [| exact Ho].
           rewrite Hl. apply elem_of_app. right. left.
        -- destruct (tooltipParent m1) as [p |];
             [destruct (negb (isPointOverMe (webViews m1) p xPos yPos)) |];
             match goal with
             | |- context [getVisibility ?a ?b] => destruct (getVisibility a b)
             end; reflexivity.
      * destruct (tooltipParent m1) as [p |] eqn:Hp;
          [destruct (negb (isPointOverMe (webViews m1) p xPos yPos)) |];
          match goal with
          | |- context [getVisibility ?a ?b] => destruct (getVisibility a b)
          end; cbn; rewrite ?Hp; repeat split; congruence.
    + cbn [fst snd]. split.
      * split.
        -- intros Hh. exfalso.
           destruct (tooltipParent m) as [p |];
             [destruct (negb (isPointOverMe (webViews m) p xPos yPos)) |];
             match type of Hh with
             | context [getVisibility ?a ?b] => destruct (getVisibility a b)
             end; discriminate Hh.
        -- intros [Hmove | (it & Hin & Ho)].
           ++ apply Hbr in Hmove. discriminate Hmove.
           ++ rewrite (proj2 Htopspec it Hin) in Ho. discriminate.
      * destruct (tooltipParent m) as [p |] eqn:Hp;
          [destruct (negb (isPointOverMe (webViews m) p xPos yPos)) |];
          match goal with
          | |- context [getVisibility ?a ?b] => destruct (getVisibility a b)
          end; cbn; rewrite ?Hp; repeat split; congruence.
Qed.

End Pointer.

(** *** The registry of views *)

(** [std::map<std::string,WebView*>::find] *)
Fixpoint mapFind (views : list (string * WebViewPtr)) (name : string)
    : option WebViewPtr :=
  match views with
  | [] => None
  | (k, v) :: rest => if String.eqb k name then Some v else mapFind rest name
  end.

(** [activeWebViews[name] = v]: the entry is put at its place in the order
    of the keys ([std::less<std::string>], the lexicographic order of the
    character codes), or replaces the entry of that key. *)
Fixpoint mapInsert (views : list (string * WebViewPtr)) (name : string)
    (v : WebViewPtr) : list (string * WebViewPtr) :=
  match views with
  | [] => [(name, v)]
  | (k, u) :: rest =>
      if String.ltb name k then (name, v) :: (k, u) :: rest
      else if String.eqb name k then (k, v) :: rest
      else (k, u) :: mapInsert rest name v
  end.

(** [(Ogre::uchar)zOrder] *)
Definition uchar (z : Z) : Z := z mod 256.

Section Views.

Variable W : Type.
Variable movable : W -> WebViewPtr -> bool.
Variable ignoringBounds : W -> WebViewPtr -> bool.
Variable isPointOverMe : W -> WebViewPtr -> Z -> Z -> bool.
Variable getRelativeX : W -> WebViewPtr -> Z -> Z.
Variable getRelativeY : W -> WebViewPtr -> Z -> Z.
Variable panelZOrder : W -> WebViewPtr -> Z.
Variable getVisibility : W -> WebViewPtr -> bool.
Variable move : W -> WebViewPtr -> Z -> Z -> W.
Variable viewInjectMouseMove : W -> WebViewPtr -> Z -> Z -> W.
Variable setPosition : W -> WebViewPtr -> Z -> Z -> W.
Variable hide : W -> WebViewPtr -> bool -> W.
Variable evaluateJS : W -> WebViewPtr -> string -> W.

(** The other members of [WebView], of its overlay and of the Awesomium
    view that the functions below use, and the objects the manager owns
    ([webCore], [tooltipTimer]): [W] holds them all. *)
Variable okayToDelete : W -> WebViewPtr -> bool.
Variable setOkayToDelete : W -> WebViewPtr -> W.
Variable viewUpdate : W -> WebViewPtr -> W.
Variable deleteView : W -> WebViewPtr -> W.
Variable coreUpdate : W -> W.
Variable show : W -> WebViewPtr -> bool -> W.
Variable getMilliseconds : W -> Z.
Variable hasOverlay : W -> WebViewPtr -> bool.
Variable getTier : W -> WebViewPtr -> Z.
Variable getZOrder : W -> WebViewPtr -> Z.
Variable setZOrder : W -> WebViewPtr -> Z -> W.
Variable focus : W -> WebViewPtr -> W.
Variable unfocus : W -> WebViewPtr -> W.
Variable isMaterialOnly : W -> WebViewPtr -> bool.
Variable resetPosition : W -> WebViewPtr -> W.
Variable viewInjectMouseWheel : W -> WebViewPtr -> Z -> W.
Variable viewInjectMouseDown : W -> WebViewPtr -> Z -> Z -> W.
Variable viewInjectMouseUp : W -> WebViewPtr -> Z -> Z -> W.

(** [std::sort(sortedWebViews.begin(), sortedWebViews.end(), compare())]
    with the z-orders of the store: the standard leaves the order of views
    of equal z-order open, so the sorted vector is given. *)
Variable sort : W -> list WebViewPtr -> list WebViewPtr.

(** [OverlayPosition], [Ogre::Viewport*] and the arguments of
    [new WebView(name, width, height, position, asyncRender,
    maxAsyncRenderRate, zOrder, tier, viewport)], which yields the new view
    and the store with it. *)
Variable OverlayPosition : Type.
Variable Viewport : Type.
Variable newWebView : W -> string -> Z -> Z -> OverlayPosition -> bool -> Z -> Z -> Z ->
                      option Viewport -> WebViewPtr * W.
Variable defaultViewport : option Viewport.

(** The enumerators of the mouse buttons. *)
Variable LeftMouseButton : Z.
Variable RightMouseButton : Z.

#[local] Arguments webViews {W} _.
#[local] Arguments focusedWebView {W} _.
#[local] Arguments mouseXPos {W} _.
#[local] Arguments mouseYPos {W} _.
#[local] Arguments mouseButtonRDown {W} _.
#[local] Arguments isDraggingFocusedWebView {W} _.
#[local] Arguments activeWebViews {W} _.
#[local] Arguments tooltipParent {W} _.
#[local] Arguments tooltipWebView {W} _.
#[local] Arguments tooltipShowTime {W} _.
#[local] Arguments eventHandled {W} _.
#[local] Arguments after {W} _.
#[local] Arguments branch {W} _.
#[local] Arguments mkManager {W} _ _ _ _ _ _ _ _ _ _.
#[local] Arguments setWebViews {W} _ _.

(** [WebView* WebViewManager::getWebView(const std::string &webViewName)] *)
Definition getWebView (m : Manager W) (webViewName : string) : option WebViewPtr :=
  mapFind (activeWebViews m) webViewName.

(** [void WebViewManager::destroyWebView(const std::string &webViewName)] *)
Definition destroyWebView (m : Manager W) (webViewName : string) : Manager W :=
  match mapFind (activeWebViews m) webViewName with
  | Some v => setWebViews m (setOkayToDelete (webViews m) v)
  | None => m
  end.

(** [void WebViewManager::destroyWebView(WebView* webViewToDestroy)] *)
Definition destroyWebViewPtr (m : Manager W) (webViewToDestroy : option WebViewPtr)
    : Manager W :=
  match webViewToDestroy with
  | Some v => setWebViews m (setOkayToDelete (webViews m) v)
  | None => m
  end.

(** The loop of [createWebView] that finds the highest z-order among the
    views with an overlay of the tier; [-1] if there is none. *)
Definition highestZOrder (w : W) (tier : Z) (views : list (string * WebViewPtr)) : Z :=
  fold_left
    (fun highest (it : string * WebViewPtr) =>
       if hasOverlay w (snd it) then
         if getTier w (snd it) =? tier then
           if getZOrder w (snd it) >? highest then getZOrder w (snd it) else highest
         else highest
       else highest)
    views (-1).

(** The z-order [createWebView] hands to the new view. *)
Definition newZOrder (w : W) (tier : Z) (views : list (string * WebViewPtr)) : Z :=
  let highest := highestZOrder w tier views in
  uchar (if negb (highest =? -1) then int_add highest 1 else 0).

(** [WebView* WebViewManager::createWebView(...)]; [None] when the name is
    taken and OGRE_EXCEPT throws. *)
Definition createWebView (m : Manager W) (webViewName : string) (width height : Z)
    (webViewPosition : OverlayPosition) (asyncRender : bool) (maxAsyncRenderRate : Z)
    (tier : Z) (viewport : option Viewport) : option (WebViewPtr * Manager W) :=
  match mapFind (activeWebViews m) webViewName with
  | Some _ => None
  | None =>
      let zOrder := newZOrder (webViews m) tier (activeWebViews m) in
      let '(v, w) :=
        newWebView (webViews m) webViewName width height webViewPosition asyncRender
          maxAsyncRenderRate zOrder tier
          (match viewport with Some vp => Some vp | None => defaultViewport end) in
      Some (v, mkManager w (focusedWebView m) (mouseXPos m) (mouseYPos m)
                 (mouseButtonRDown m) (isDraggingFocusedWebView m)
                 (mapInsert (activeWebViews m) webViewName v)
                 (tooltipParent m) (tooltipWebView m) (tooltipShowTime m))
  end.

(** The loop of [Update]: a view marked [okayToDelete] is erased from the
    map and deleted, and the focus is dropped if it was on that view;
    every other view is updated. *)
Record Sweep := mkSweep {
  sw_views : W;
  sw_focused : option WebViewPtr;
  sw_dragging : bool;
  sw_kept : list (string * WebViewPtr);
  sw_deleted : list WebViewPtr
}.

Fixpoint sweep (w : W) (focused : option WebViewPtr) (dragging : bool)
    (views : list (string * WebViewPtr)) : Sweep :=
  match views with
  | [] => mkSweep w focused dragging [] []
  | it :: rest =>
      if okayToDelete w (snd it) then
        let hit := match focused with
                   | Some f => Nat.eqb f (snd it)
                   | None => false
                   end in
        let r := sweep (deleteView w (snd it))
                   (if hit then None else focused)
                   (if hit then false else dragging) rest in
        mkSweep (sw_views r) (sw_focused r) (sw_dragging r) (sw_kept r)
          (snd it :: sw_deleted r)
      else
        let r := sweep (viewUpdate w (snd it)) focused dragging rest in
        mkSweep (sw_views r) (sw_focused r) (sw_dragging r) (it :: sw_kept r)
          (sw_deleted r)
  end.

(** What [Update] leaves: the manager, the views it deleted and the value
    it gave [lastTooltip], if it gave one. *)
Record Updated := mkUpdated {
  updated : Manager W;
  deleted : list WebViewPtr;
  lastTooltip : option Z
}.

(** [void WebViewManager::Update()] *)
Definition Update (m : Manager W) : Updated :=
  let w0 := coreUpdate (webViews m) in
  let r := sweep w0 (focusedWebView m) (isDraggingFocusedWebView m) (activeWebViews m) in
  let w1 := sw_views r in
  let '(w2, showTime, last) :=
    if negb (tooltipShowTime m =? 0) then
      if tooltipShowTime m <? getMilliseconds w1 then
        let w2 := show w1 (tooltipWebView m) true in
        (w2, 0, Some (getMilliseconds w2))
      else (w1, tooltipShowTime m, None)
    else (w1, tooltipShowTime m, None) in
  mkUpdated
    (mkManager w2 (sw_focused r) (mouseXPos m) (mouseYPos m) (mouseButtonRDown m)
       (sw_dragging r) (sw_kept r) (tooltipParent m) (tooltipWebView m) showTime)
    (sw_deleted r) last.

(** [void WebViewManager::resetAllPositions()] *)
Definition resetAllPositions (m : Manager W) : Manager W :=
  setWebViews m
    (fold_left
       (fun w (it : string * WebViewPtr) =>
          if negb (isMaterialOnly w (snd it)) then resetPosition w (snd it) else w)
       (activeWebViews m) (webViews m)).

(** [bool WebViewManager::isAnyWebViewFocused()] *)
Definition isAnyWebViewFocused (m : Manager W) : bool :=
  match focusedWebView m with Some _ => true | None => false end.

(** [bool WebViewManager::injectMouseWheel(int relScroll)] *)
Definition injectMouseWheel (m : Manager W) (relScroll : Z) : bool * Manager W :=
  match focusedWebView m with
  | Some f => (true, setWebViews m (viewInjectMouseWheel (webViews m) f relScroll))
  | None => (false, m)
  end.

(** [void WebViewManager::deFocusAllWebViews()] *)
Definition deFocusAllWebViews (m : Manager W) : Manager W :=
  mkManager
    (fold_left (fun w (it : string * WebViewPtr) => unfocus w (snd it))
       (activeWebViews m) (webViews m))
    None (mouseXPos m) (mouseYPos m) (mouseButtonRDown m) false (activeWebViews m)
    (tooltipParent m) (tooltipWebView m) (tooltipShowTime m).

(** The index at which the search loop of [focusWebView] stops: that of
    the first occurrence of the view, or the size of the vector. *)
Fixpoint popIndex (l : list WebViewPtr) (t : WebViewPtr) : nat :=
  match l with
  | [] => 0
  | a :: rest => if Nat.eqb a t then 0 else S (popIndex rest t)
  end.

(** [for(unsigned int i = 0; i < popIdx; i++)
       sortedWebViews.at(i)->overlay->setZOrder(
         sortedWebViews.at(i+1)->overlay->getZOrder());]
    on the vector from index [i] on, with [n] rounds to go.  [at] throws
    [std::out_of_range] past the end: the flag is then [false] and the
    store is as the rounds before left it. *)
Fixpoint shiftDown (w : W) (l : list WebViewPtr) (n : nat) : W * bool :=
  match n with
  | O => (w, true)
  | S n' =>
      match l with
      | a :: rest =>
          match rest with
          | b :: _ => shiftDown (setZOrder w a (getZOrder w b)) rest n'
          | [] => (w, false)
          end
      | [] => (w, false)
      end
  end.

(** The block [if(sortedWebViews.size()) { ... }] of [focusWebView]. *)
Definition popToFront (w : W) (sortedWebViews : list WebViewPtr)
    (webViewToFocus : WebViewPtr) : W * bool :=
  match sortedWebViews with
  | [] => (w, true)
  | first :: _ =>
      if Nat.eqb first webViewToFocus then (w, true)
      else
        let popIdx := popIndex sortedWebViews webViewToFocus in
        let highestZ := getZOrder w first in
        let '(w1, ok) := shiftDown w sortedWebViews popIdx in
        if ok then
          match sortedWebViews !! popIdx with
          | Some v => (setZOrder w1 v highestZ, true)
          | None => (w1, false)
          end
        else (w1, false)
  end.

(** How a call ends: it returns a value or an exception leaves it. *)
Inductive Outcome := Returned (b : bool) | Threw.

(** [bool WebViewManager::focusWebView(int x, int y, WebView* selection)].
    The loop that collects the views of the tier reads
    [webViewToFocus->overlay->getTier()] for every active view that has an
    overlay: [None] is this call through a null [overlay], when the view
    to focus has none. *)
Definition focusWebView (m : Manager W) (x y : Z) (selection : option WebViewPtr)
    : option (Outcome * Manager W) :=
  let m1 := deFocusAllWebViews m in
  let webViewToFocus :=
    match selection with
    | Some s => Some s
    | None => getTopWebView W isPointOverMe panelZOrder m1 x y
    end in
  match webViewToFocus with
  | None => Some (Returned false, m1)
  | Some t =>
      let w1 := webViews m1 in
      if negb (hasOverlay w1 t) &&
         existsb (fun it : string * WebViewPtr => hasOverlay w1 (snd it)) (activeWebViews m1)
      then None
      else
        let sortedWebViews :=
          sort w1
            (map snd
               (filter (fun it : string * WebViewPtr =>
                          hasOverlay w1 (snd it) && (getTier w1 (snd it) =? getTier w1 t) = true)
                  (activeWebViews m1))) in
        let '(w2, ok) := popToFront w1 sortedWebViews t in
        if ok then
          Some (Returned true,
                mkManager (focus w2 t) (Some t) (mouseXPos m1) (mouseYPos m1)
                  (mouseButtonRDown m1) false (activeWebViews m1)
                  (tooltipParent m1) (tooltipWebView m1) (tooltipShowTime m1))
        else Some (Threw, setWebViews m1 w2)
  end.

(** [void WebViewManager::handleRequestDrag(WebView* caller)] *)
Definition handleRequestDrag (m : Manager W) (caller : option WebViewPtr)
    : option (Outcome * Manager W) :=
  match focusWebView m 0 0 caller with
  | Some (Returned b, m1) =>
      Some (Returned b,
            mkManager (webViews m1) (focusedWebView m1) (mouseXPos m1) (mouseYPos m1)
              (mouseButtonRDown m1) true (activeWebViews m1)
              (tooltipParent m1) (tooltipWebView m1) (tooltipShowTime m1))
  | other => other
  end.

(** [bool WebViewManager::injectMouseDown(int buttonID)] *)
Definition injectMouseDown (m : Manager W) (buttonID : Z)
    : option (Outcome * Manager W) :=
  let finish (m' : Manager W) :=
    Some (Returned (isAnyWebViewFocused m'), m') in
  if buttonID =? LeftMouseButton then
    match focusWebView m (mouseXPos m) (mouseYPos m) None with
    | Some (Returned true, m1) =>
        match focusedWebView m1 with
        | Some f =>
            let relX := getRelativeX (webViews m1) f (mouseXPos m1) in
            let relY := getRelativeY (webViews m1) f (mouseYPos m1) in
            finish (setWebViews m1 (viewInjectMouseDown (webViews m1) f relX relY))
        | None => None
        end
    | Some (Returned false, m1) => finish m1
    | other => other
    end
  else if buttonID =? RightMouseButton then
    let m0 := mkManager (webViews m) (focusedWebView m) (mouseXPos m) (mouseYPos m)
                true (isDraggingFocusedWebView m) (activeWebViews m)
                (tooltipParent m) (tooltipWebView m) (tooltipShowTime m) in
    match focusWebView m0 (mouseXPos m0) (mouseYPos m0) None with
    | Some (Returned _, m1) => finish m1
    | other => other
    end
  else finish m.

(** [bool WebViewManager::injectMouseUp(int buttonID)] *)
Definition injectMouseUp (m : Manager W) (buttonID : Z) : bool * Manager W :=
  let m0 := mkManager (webViews m) (focusedWebView m) (mouseXPos m) (mouseYPos m)
              (mouseButtonRDown m) false (activeWebViews m)
              (tooltipParent m) (tooltipWebView m) (tooltipShowTime m) in
  let m1 :=
    match (buttonID =? LeftMouseButton), focusedWebView m0 with
    | true, Some f =>
        setWebViews m0
          (viewInjectMouseUp (webViews m0) f
             (getRelativeX (webViews m0) f (mouseXPos m0))
             (getRelativeY (webViews m0) f (mouseYPos m0)))
    | _, _ =>
        if buttonID =? RightMouseButton then
          mkManager (webViews m0) (focusedWebView m0) (mouseXPos m0) (mouseYPos m0)
            false (isDraggingFocusedWebView m0) (activeWebViews m0)
            (tooltipParent m0) (tooltipWebView m0) (tooltipShowTime m0)
        else m0
    end in
  (isAnyWebViewFocused m1, m1).

(** *** Creating and finding views *)

Lemma mapFind_mapInsert_same (l : list (string * WebViewPtr)) (name : string)
    (v : WebViewPtr) :
  mapFind (mapInsert l name v) name = Some v.
Proof.
  induction l as [| [k u] rest IH]; cbn.
  - rewrite String.eqb_refl. reflexivity.
  - destruct (String.ltb name k).
    + cbn. rewrite String.eqb_refl. reflexivity.
    + destruct (String.eqb name k) eqn:E; cbn.
      * rewrite String.eqb_sym, E. reflexivity.
      * rewrite String.eqb_sym, E. exact IH.
Qed.

Lemma mapFind_mapInsert_other (l : list (string * WebViewPtr)) (name other : string)
    (v : WebViewPtr) :
  other <> name -> mapFind (mapInsert l name v) other = mapFind l other.
Proof.
  intros Hne. assert (Hno : String.eqb name other = false).
  { apply String.eqb_neq. congruence. }
  induction l as [| [k u] rest IH]; cbn.
  - rewrite Hno. reflexivity.
  - destruct (String.ltb name k).
    + cbn. rewrite Hno. reflexivity.
    + destruct (String.eqb name k) eqn:E; cbn.
      * apply String.eqb_eq in E. subst k. rewrite Hno. reflexivity.
      * rewrite IH. reflexivity.
Qed.

(** [createWebView] throws exactly when a view of that name is active.
    Otherwise the new view is what [getWebView] returns for the name from
    then on, the views of the other names are found as before, a second
    view of the name cannot be created, and nothing else of the manager
    changes. *)
Theorem createWebView_registers (m : Manager W) (name : string) (width height : Z)
    (position : OverlayPosition) (asyncRender : bool) (rate tier : Z)
    (viewport : option Viewport) :
  (createWebView m name width height position asyncRender rate tier viewport = None <->
     getWebView m name <> None) /\
  (forall v m',
     createWebView m name width height position asyncRender rate tier viewport
       = Some (v, m') ->
     getWebView m' name = Some v /\
     (forall other, other <> name -> getWebView m' other = getWebView m other) /\
     (forall width' height' position' asyncRender' rate' tier' viewport',
        createWebView m' name width' height' position' asyncRender' rate' tier' viewport'
          = None) /\
     focusedWebView m' = focusedWebView m /\
     isDraggingFocusedWebView m' = isDraggingFocusedWebView m /\
     mouseButtonRDown m' = mouseButtonRDown m /\
     tooltipParent m' = tooltipParent m).
Proof.
  unfold createWebView, getWebView.
  destruct (mapFind (activeWebViews m) name) as [u |] eqn:Hfind.
  - split; [split; [discriminate | reflexivity] | intros v m' H; discriminate].
  - destruct (newWebView _ _ _ _ _ _ _ _ _ _) as [v0 w0].
    split; [split; [discriminate | congruence] |].
    intros v m' H. injection H as <- <-. cbn.
    split; [apply mapFind_mapInsert_same |].
    split; [intros other Hne; apply mapFind_mapInsert_other; exact Hne |].
    split; [| repeat split].
    intros. rewrite mapFind_mapInsert_same. reflexivity.
Qed.

Lemma mapFind_None (l : list (string * WebViewPtr)) (name : string) :
  mapFind l name = None -> name ∉ map fst l.
Proof.
  induction l as [| [k u] rest IH]; cbn; intros H Hin.
  - apply elem_of_nil in Hin. contradiction.
  - destruct (String.eqb_spec k name) as [-> | Hne]; [discriminate |].
    apply elem_of_cons in Hin as [-> | Hin]; [congruence | exact (IH H Hin)].
Qed.

Lemma mapInsert_Permutation (l : list (string * WebViewPtr)) (name : string)
    (v : WebViewPtr) :
  mapFind l name = None -> mapInsert l name v ≡ₚ (name, v) :: l.
Proof.
  induction l as [| [k u] rest IH]; cbn; intros H; [reflexivity |].
  destruct (String.eqb_spec k name) as [-> | Hne]; [discriminate |].
  destruct (String.ltb name k); [reflexivity |].
  destruct (String.eqb_spec name k) as [-> | _]; [congruence |].
  rewrite (IH H). apply perm_swap.
Qed.

(** [createWebView] keeps the map a map: when the names of the active
    views are distinct and so are the views, and [new] gave a view that is
    not among them, the map afterwards holds the entries of before and the
    new one, again with distinct names and distinct views. *)
Theorem createWebView_keeps_distinct (m : Manager W) (name : string) (width height : Z)
    (position : OverlayPosition) (asyncRender : bool) (rate tier : Z)
    (viewport : option Viewport) (v : WebViewPtr) (m' : Manager W) :
  NoDup (map fst (activeWebViews m)) -> NoDup (map snd (activeWebViews m)) ->
  createWebView m name width height position asyncRender rate tier viewport = Some (v, m') ->
  v ∉ map snd (activeWebViews m) ->
  activeWebViews m' ≡ₚ (name, v) :: activeWebViews m /\
  NoDup (map fst (activeWebViews m')) /\ NoDup (map snd (activeWebViews m')).
Proof.
  intros Hkeys Hptrs Hcreate Hfresh. unfold createWebView in Hcreate.
  destruct (mapFind (activeWebViews m) name) eqn:Hfind; [discriminate |].
  destruct (newWebView _ _ _ _ _ _ _ _ _ _) as [v0 w0].
  injection Hcreate as <- <-. cbn [activeWebViews].
  pose proof (mapInsert_Permutation (activeWebViews m) name v0 Hfind) as Hperm.
  split; [exact Hperm |]. split.
  - rewrite Hperm. cbn. apply NoDup_cons_2; [| exact Hkeys].
    apply mapFind_None. exact Hfind.
  - rewrite Hperm. cbn. apply NoDup_cons_2; assumption.
Qed.



(** *** Deleting views *)

Lemma sweep_unfocused (views : list (string * WebViewPtr)) : forall w dragging,
  sw_focused (sweep w None dragging views) = None /\
  sw_dragging (sweep w None dragging views) = dragging.
Proof.
  induction views as [| it rest IH]; intros w dragging; cbn; [split; reflexivity |].
  destruct (okayToDelete w (snd it)); cbn; apply IH.
Qed.

Lemma sweep_spec (views : list (string * WebViewPtr)) : forall w focused dragging,
  let r := sweep w focused dragging views in
  sw_kept r `sublist_of` views /\
  map snd views ≡ₚ map snd (sw_kept r) ++ sw_deleted r /\
  ((sw_focused r = focused /\ sw_dragging r = dragging /\
    forall f, focused = Some f -> f ∉ sw_deleted r) \/
   (sw_focused r = None /\ sw_dragging r = false /\
    exists f, focused = Some f /\ f ∈ sw_deleted r)).
Proof.
  induction views as [| it rest IH]; intros w focused dragging; cbn [sweep].
  - cbn. split; [constructor |]. split; [reflexivity |]. left.
    split; [reflexivity |]. split; [reflexivity |].
    intros f _ Hin. apply elem_of_nil in Hin. contradiction.
  - destruct (okayToDelete w (snd it)).
    + set (hit := match focused with Some f => Nat.eqb f (snd it) | None => false end).
      destruct (IH (deleteView w (snd it)) (if hit then None else focused)
                  (if hit then false else dragging)) as (H1 & H2 & H3).
      cbn zeta in H1, H2, H3. cbn [sw_kept sw_deleted sw_focused sw_dragging map].
      split; [apply sublist_cons; exact H1 |].
      split; [rewrite H2; apply Permutation_middle |].
      destruct hit eqn:Hhit.
      * right. destruct focused as [f |]; [| discriminate Hhit].
        apply Nat.eqb_eq in Hhit. subst f.
        destruct (sweep_unfocused rest (deleteView w (snd it)) false) as [-> ->].
        split; [reflexivity |]. split; [reflexivity |].
        exists (snd it). split; [reflexivity | left].
      * destruct H3 as [(F1 & F2 & F3) | (F1 & F2 & f & F3 & F4)].
        -- left. split; [exact F1 |]. split; [exact F2 |].
           intros f Hf Hin. apply elem_of_cons in Hin as [-> | Hin].
           ++ subst focused. unfold hit in Hhit. rewrite Nat.eqb_refl in Hhit. discriminate.
           ++ exact (F3 f Hf Hin).
        -- right. split; [exact F1 |]. split; [exact F2 |].
           exists f. split; [exact F3 | right; exact F4].
    + destruct (IH (viewUpdate w (snd it)) focused dragging) as (H1 & H2 & H3).
      cbn zeta in H1, H2, H3. cbn [sw_kept sw_deleted sw_focused sw_dragging map].
      split; [apply sublist_skip; exact H1 |].
      split; [cbn; rewrite H2; reflexivity |]. exact H3.
Qed.

(** [Update] erases from the map exactly the views it deletes and keeps
    the others in their order.  It never leaves the focus on a view it has
    deleted: if the focused view is deleted, the focus and the dragging
    flag are dropped, and otherwise both are as before; a focus that was
    on an active view is afterwards on an active view or on none.  The
    parent of the tooltip is left as it was, whether deleted or not. *)
Theorem Update_sweeps (m : Manager W) :
  NoDup (map snd (activeWebViews m)) ->
  let r := Update m in
  activeWebViews (updated r) `sublist_of` activeWebViews m /\
  (map snd (activeWebViews m) ≡ₚ map snd (activeWebViews (updated r)) ++ deleted r) /\
  (forall v, v ∈ deleted r ->
     (v ∉ map snd (activeWebViews (updated r))) /\ focusedWebView (updated r) <> Some v) /\
  ((focusedWebView (updated r) = focusedWebView m /\
    isDraggingFocusedWebView (updated r) = isDraggingFocusedWebView m) \/
   (focusedWebView (updated r) = None /\ isDraggingFocusedWebView (updated r) = false /\
    exists f, focusedWebView m = Some f /\ f ∈ deleted r)) /\
  (forall f, focusedWebView (updated r) = Some f -> f ∈ map snd (activeWebViews m) ->
     f ∈ map snd (activeWebViews (updated r))) /\
  tooltipParent (updated r) = tooltipParent m.
Proof.
  intros Hnodup r.
  destruct (sweep_spec (activeWebViews m) (coreUpdate (webViews m)) (focusedWebView m)
              (isDraggingFocusedWebView m)) as (H1 & H2 & H3).
  cbn zeta in H1, H2, H3.
  assert (Hr : activeWebViews (updated r) =
                 sw_kept (sweep (coreUpdate (webViews m)) (focusedWebView m)
                            (isDraggingFocusedWebView m) (activeWebViews m)) /\
               deleted r =
                 sw_deleted (sweep (coreUpdate (webViews m)) (focusedWebView m)
                               (isDraggingFocusedWebView m) (activeWebViews m)) /\
               focusedWebView (updated r) =
                 sw_focused (sweep (coreUpdate (webViews m)) (focusedWebView m)
                               (isDraggingFocusedWebView m) (activeWebViews m)) /\
               isDraggingFocusedWebView (updated r) =
                 sw_dragging (sweep (coreUpdate (webViews m)) (focusedWebView m)
                                (isDraggingFocusedWebView m) (activeWebViews m)) /\
               tooltipParent (updated r) = tooltipParent m).
  { subst r. unfold Update.
    destruct (negb (tooltipShowTime m =? 0));
      [destruct (tooltipShowTime m <? getMilliseconds _) |]; repeat split. }
  destruct Hr as (-> & -> & -> & -> & ->).
  set (sw := sweep (coreUpdate (webViews m)) (focusedWebView m)
               (isDraggingFocusedWebView m) (activeWebViews m)) in *.
  assert (Hapart : forall v, v ∈ sw_deleted sw -> v ∉ map snd (sw_kept sw)).
  { intros v Hd Hk. rewrite H2 in Hnodup. apply NoDup_app in Hnodup as (_ & Hdisj & _).
    exact (Hdisj v Hk Hd). }
  assert (Hfocus : forall v, v ∈ sw_deleted sw -> sw_focused sw <> Some v).
  { intros v Hd Hf. destruct H3 as [(F1 & _ & F3) | (F1 & _)]; [| congruence].
    rewrite F1 in Hf. exact (F3 v Hf Hd). }
  split; [exact H1 |]. split; [exact H2 |].
  split; [intros v Hd; split; [exact (Hapart v Hd) | exact (Hfocus v Hd)] |].
  split.
  { destruct H3 as [(F1 & F2 & _) | (F1 & F2 & F3)]; [left | right]; repeat split; assumption. }
  split; [| reflexivity].
  intros f Hf Hin. rewrite H2 in Hin. apply elem_of_app in Hin as [Hin | Hin]; [exact Hin |].
  exfalso. exact (Hfocus f Hin Hf).
Qed.

(** *** Bringing a view to the front *)

Lemma popIndex_split (pre post : list WebViewPtr) (t : WebViewPtr) :
  t ∉ pre -> popIndex (pre ++ t :: post) t = length pre.
Proof.
  induction pre as [| a pre IH]; intros Hnot; cbn.
  - rewrite Nat.eqb_refl. reflexivity.
  - destruct (Nat.eqb_spec a t) as [-> | Hne].
    + exfalso. apply Hnot. left.
    + f_equal. apply IH. intros Hin. apply Hnot. right. exact Hin.
Qed.

Section ZOrderLaws.

(** What [setZOrder] and [getZOrder] of an overlay are taken to do: the
    one stores what the other returns, in the overlay of that view
    alone. *)
Hypothesis getZOrder_setZOrder : forall w v z, getZOrder (setZOrder w v z) v = z.
Hypothesis getZOrder_setZOrder_other : forall w v u z,
  u <> v -> getZOrder (setZOrder w v z) u = getZOrder w u.

Lemma shiftDown_spec (xs : list WebViewPtr) : forall w y ys,
  NoDup (xs ++ [y]) ->
  exists w',
    shiftDown w (xs ++ y :: ys) (length xs) = (w', true) /\
    (forall u, u ∉ xs -> getZOrder w' u = getZOrder w u) /\
    map (getZOrder w') xs = map (getZOrder w) (tail (xs ++ [y])).
Proof.
  induction xs as [| a xs IH]; intros w y ys Hnd.
  - exists w. split; [reflexivity |]. split; reflexivity.
  - cbn [app length shiftDown].
    cbn [app] in Hnd. apply NoDup_cons in Hnd as [Ha Hnd].
    assert (Hb : exists b, xs ++ y :: ys = b :: tail (xs ++ y :: ys) /\
                           xs ++ [y] = b :: tail (xs ++ [y])).
    { destruct xs as [| c xs']; [exists y | exists c]; split; reflexivity. }
    destruct Hb as (b & Hb1 & Hb2). rewrite Hb1. rewrite <- Hb1.
    destruct (IH (setZOrder w a (getZOrder w b)) y ys Hnd) as (w' & Hs & Hout & Hmap).
    exists w'. split; [exact Hs |]. split.
    + intros u Hu. rewrite Hout by (intros Hin; apply Hu; right; exact Hin).
      apply getZOrder_setZOrder_other. intros ->. apply Hu. left.
    + cbn [map tail]. rewrite Hout by (intros Hin; apply Ha; apply elem_of_app; left; exact Hin).
      rewrite getZOrder_setZOrder, Hmap.
      assert (Hsame : map (getZOrder (setZOrder w a (getZOrder w b))) (tail (xs ++ [y]))
                      = map (getZOrder w) (tail (xs ++ [y]))).
      { apply map_ext_in. intros u Hu. apply getZOrder_setZOrder_other.
        intros ->. apply Ha. apply list_elem_of_In in Hu.
        rewrite Hb2. right. exact Hu. }
      rewrite Hsame. rewrite Hb2 at 2. reflexivity.
Qed.

Lemma popToFront_spec (w : W) (pre post : list WebViewPtr) (t : WebViewPtr) :
  NoDup (pre ++ t :: post) ->
  exists w',
    popToFront w (pre ++ t :: post) t = (w', true) /\
    map (getZOrder w') (t :: pre) = map (getZOrder w) (pre ++ [t]) /\
    (forall u, u ∉ pre -> u <> t -> getZOrder w' u = getZOrder w u).
Proof.
  intros Hnd.
  assert (Htpre : t ∉ pre).
  { intros Hin. apply NoDup_app in Hnd as (_ & Hdisj & _). apply (Hdisj t Hin). left. }
  destruct pre as [| first pre'].
  - exists w. cbn. rewrite Nat.eqb_refl. repeat split.
  - unfold popToFront. cbn [app].
    destruct (Nat.eqb_spec first t) as [-> | Hne]; [exfalso; apply Htpre; left |].
    change (first :: pre' ++ t :: post) with ((first :: pre') ++ t :: post).
    rewrite popIndex_split by exact Htpre.
    assert (Hnd' : NoDup ((first :: pre') ++ [t])).
    { apply NoDup_app. apply NoDup_app in Hnd as (N1 & N2 & N3).
      split; [exact N1 |]. split; [| apply NoDup_singleton].
      intros u Hu Hut. apply list_elem_of_singleton in Hut. subst u. exact (Htpre Hu). }
    destruct (shiftDown_spec (first :: pre') w t post Hnd') as (w1 & Hs & Hout & Hmap).
    rewrite Hs.
    assert (Hlk : ((first :: pre') ++ t :: post) !! length (first :: pre') = Some t).
    { rewrite lookup_app_r by lia. rewrite Nat.sub_diag. reflexivity. }
    rewrite Hlk. eexists. split; [reflexivity |]. split.
    + cbn [map]. rewrite getZOrder_setZOrder.
      assert (Hpre : map (getZOrder (setZOrder w1 t (getZOrder w first))) (first :: pre')
                     = map (getZOrder w1) (first :: pre')).
      { apply map_ext_in. intros u Hu. apply getZOrder_setZOrder_other.
        intros ->. apply Htpre. apply list_elem_of_In. exact Hu. }
      change (getZOrder (setZOrder w1 t (getZOrder w first)) first
              :: map (getZOrder (setZOrder w1 t (getZOrder w first))) pre')
        with (map (getZOrder (setZOrder w1 t (getZOrder w first))) (first :: pre')).
      rewrite Hpre, Hmap. reflexivity.
    + intros u Hu Hut. rewrite getZOrder_setZOrder_other by exact Hut.
      apply Hout. exact Hu.
Qed.

(** After the block, the view is as high as the first view of the vector
    was, and so at least as high as every view of the vector if the first
    was the highest. *)
Lemma popToFront_highest (w w' : W) (pre post : list WebViewPtr) (t : WebViewPtr) :
  NoDup (pre ++ t :: post) ->
  map (getZOrder w') (t :: pre) = map (getZOrder w) (pre ++ [t]) ->
  (forall u, u ∉ pre -> u <> t -> getZOrder w' u = getZOrder w u) ->
  map (getZOrder w') (t :: pre ++ post) = map (getZOrder w) (pre ++ t :: post) /\
  ((forall u, u ∈ pre ++ t :: post -> getZOrder w u <= getZOrder w (hd t pre)) ->
   forall u, u ∈ pre ++ t :: post -> getZOrder w' u <= getZOrder w' t).
Proof.
  intros Hnd Hmap Hout.
  assert (Hpost : map (getZOrder w') post = map (getZOrder w) post).
  { apply map_ext_in. intros u Hu. apply list_elem_of_In in Hu.
    apply NoDup_app in Hnd as (_ & Hdisj & Hnd2). apply NoDup_cons in Hnd2 as [Ht _].
    apply Hout.
    - intros Hin. apply (Hdisj u Hin). right. exact Hu.
    - intros ->. exact (Ht Hu). }
  assert (Hall : map (getZOrder w') (t :: pre ++ post) = map (getZOrder w) (pre ++ t :: post)).
  { change (t :: pre ++ post) with ((t :: pre) ++ post).
    rewrite map_app, Hmap, Hpost, <- map_app, <- app_assoc. reflexivity. }
  split; [exact Hall |].
  intros Hmax u Hu.
  assert (Ht' : getZOrder w' t = getZOrder w (hd t pre)).
  { cbn [map] in Hall. destruct pre as [| first pre']; cbn in Hall |- *; congruence. }
  rewrite Ht'.
  assert (Hz : getZOrder w' u ∈ map (getZOrder w) (pre ++ t :: post)).
  { rewrite <- Hall. apply list_elem_of_fmap. exists u. split; [reflexivity |].
    apply elem_of_app in Hu as [Hu | Hu]; [right; apply elem_of_app; left; exact Hu |].
    apply elem_of_cons in Hu as [-> | Hu]; [left | right; apply elem_of_app; right; exact Hu]. }
  apply list_elem_of_fmap in Hz as (u0 & -> & Hu0). exact (Hmax u0 Hu0).
Qed.

(** The rotation of [focusWebView].  When the view [t] is in the sorted
    vector, after [pre] and before [post], the block gives [t] the z-order
    of the first view and each view of [pre] that of the view after it:
    the z-orders of [t], [pre], [post] in this order are afterwards what
    those of [pre], [t], [post] were.  So [t] is then as high as the
    highest was, the others keep their order, the z-orders in use are the
    same, and the views outside the vector keep theirs. *)
Theorem popToFront_rotates (w : W) (pre post : list WebViewPtr) (t : WebViewPtr) :
  NoDup (pre ++ t :: post) ->
  exists w',
    popToFront w (pre ++ t :: post) t = (w', true) /\
    map (getZOrder w') (t :: pre ++ post) = map (getZOrder w) (pre ++ t :: post) /\
    (forall u, u ∉ pre ++ t :: post -> getZOrder w' u = getZOrder w u) /\
    map (getZOrder w') (pre ++ t :: post) ≡ₚ map (getZOrder w) (pre ++ t :: post) /\
    ((forall u, u ∈ pre ++ t :: post ->
        getZOrder w u <= getZOrder w (hd t pre)) ->
     forall u, u ∈ pre ++ t :: post -> getZOrder w' u <= getZOrder w' t).
Proof.
  intros Hnd.
  destruct (popToFront_spec w pre post t Hnd) as (w' & Hpop & Hmap & Hout).
  destruct (popToFront_highest w w' pre post t Hnd Hmap Hout) as [Hall Hmax].
  exists w'. split; [exact Hpop |]. split; [exact Hall |].
  split; [| split; [| exact Hmax]].
  - intros u Hu. apply Hout.
    + intros Hin. apply Hu. apply elem_of_app. left. exact Hin.
    + intros ->. apply Hu. apply elem_of_app. right. left.
  - rewrite <- Hall. apply Permutation_map. symmetry. apply Permutation_middle.
Qed.

(** What the Awesomium view's [focus] is taken to leave alone. *)
Hypothesis getZOrder_focus : forall w v u, getZOrder (focus w v) u = getZOrder w u.

(** [focusWebView] with a selection that is an active view with an
    overlay returns [true] and leaves the selection focused, not dragged,
    and at least as high as every active view with an overlay of its tier
    (tiers and z-orders as they are once the views have lost the focus),
    whatever order [std::sort] gave the views of equal z-order. *)
Theorem focusWebView_brings_to_front (m : Manager W) (x y : Z) (t : WebViewPtr) :
  let w1 := webViews (deFocusAllWebViews m) in
  let candidates :=
    map snd (filter (fun it : string * WebViewPtr =>
                       hasOverlay w1 (snd it) && (getTier w1 (snd it) =? getTier w1 t) = true)
               (activeWebViews m)) in
  NoDup (map snd (activeWebViews m)) ->
  t ∈ map snd (activeWebViews m) -> hasOverlay w1 t = true ->
  sort w1 candidates ≡ₚ candidates ->
  StronglySorted (fun a b => getZOrder w1 b <= getZOrder w1 a) (sort w1 candidates) ->
  exists m1,
    focusWebView m x y (Some t) = Some (Returned true, m1) /\
    focusedWebView m1 = Some t /\ isDraggingFocusedWebView m1 = false /\
    activeWebViews m1 = activeWebViews m /\
    (forall u, u ∈ candidates ->
       getZOrder (webViews m1) u <= getZOrder (webViews m1) t) /\
    (map (getZOrder (webViews m1)) candidates ≡ₚ map (getZOrder w1) candidates).
Proof.
  intros w1 candidates Hnd Hin Hov Hperm Hsorted.
  assert (Hcand : t ∈ candidates).
  { subst candidates. apply list_elem_of_fmap in Hin as ([name t'] & -> & Hin).
    apply list_elem_of_fmap. exists (name, t'). split; [reflexivity |].
    apply list_elem_of_filter. split; [| exact Hin].
    cbn [snd] in *. rewrite Hov, Z.eqb_refl. reflexivity. }
  assert (Hndc : NoDup candidates).
  { subst candidates. clear -Hnd.
    induction (activeWebViews m) as [| it l IH]; [constructor |].
    cbn [map] in Hnd. apply NoDup_cons in Hnd as [Hit Hnd].
    destruct (decide (hasOverlay w1 (snd it) && (getTier w1 (snd it) =? getTier w1 t) = true))
      as [Hyes | Hno].
    - rewrite filter_cons_True by exact Hyes. cbn [map]. apply NoDup_cons_2; [| exact (IH Hnd)].
      intros Hin. apply Hit. apply list_elem_of_fmap in Hin as (it' & Heq & Hin).
      apply list_elem_of_filter in Hin as [_ Hin].
      apply list_elem_of_fmap. exists it'. split; assumption.
    - rewrite filter_cons_False by exact Hno. exact (IH Hnd). }
  assert (Hts : t ∈ sort w1 candidates) by (rewrite Hperm; exact Hcand).
  apply list_elem_of_split in Hts as (pre & post & Hsplit).
  assert (Hnds : NoDup (pre ++ t :: post)) by (rewrite <- Hsplit, Hperm; exact Hndc).
  destruct (popToFront_spec w1 pre post t Hnds) as (w' & Hpop & Hmap & Hout).
  destruct (popToFront_highest w1 w' pre post t Hnds Hmap Hout) as [Hall Hmax].
  unfold focusWebView. fold w1. rewrite Hov. cbn [negb andb].
  change (activeWebViews (deFocusAllWebViews m)) with (activeWebViews m).
  fold candidates. rewrite Hsplit, Hpop.
  eexists. split; [reflexivity |]. cbn [focusedWebView isDraggingFocusedWebView
    activeWebViews webViews].
  split; [reflexivity |]. split; [reflexivity |]. split; [reflexivity |]. split.
  - intros u Hu. rewrite !getZOrder_focus. apply Hmax.
    + intros u0 Hu0. rewrite Hsplit in Hsorted.
      destruct pre as [| first pre']; cbn [hd app] in *.
      * apply elem_of_cons in Hu0 as [-> | Hu0]; [lia |].
        apply StronglySorted_inv in Hsorted as [_ Hfa].
        rewrite Forall_forall in Hfa. exact (Hfa u0 Hu0).
      * apply elem_of_cons in Hu0 as [-> | Hu0]; [lia |].
        apply StronglySorted_inv in Hsorted as [_ Hfa].
        rewrite Forall_forall in Hfa. exact (Hfa u0 Hu0).
    + rewrite <- Hsplit, Hperm. exact Hu.
  - assert (Hf : map (getZOrder (focus w' t)) candidates = map (getZOrder w') candidates).
    { apply map_ext. intros u. apply getZOrder_focus. }
    rewrite Hf, <- Hperm, Hsplit, <- Hall.
    apply Permutation_map. symmetry. apply Permutation_middle.
Qed.

End ZOrderLaws.

(** *** Dragging *)

Lemma focusWebView_returned (m : Manager W) (x y : Z) (selection : option WebViewPtr)
    (b : bool) (m1 : Manager W) :
  focusWebView m x y selection = Some (Returned b, m1) ->
  mouseXPos m1 = mouseXPos m /\ mouseYPos m1 = mouseYPos m /\
  mouseButtonRDown m1 = mouseButtonRDown m /\
  isDraggingFocusedWebView m1 = false /\
  activeWebViews m1 = activeWebViews m /\
  tooltipParent m1 = tooltipParent m /\
  ((b = false /\ focusedWebView m1 = None /\ selection = None /\
    getTopWebView W isPointOverMe panelZOrder (deFocusAllWebViews m) x y = None) \/
   (b = true /\ exists t, focusedWebView m1 = Some t /\
      (selection = Some t \/
       (selection = None /\
        getTopWebView W isPointOverMe panelZOrder (deFocusAllWebViews m) x y = Some t)))).
Proof.
  unfold focusWebView. intros H.
  destruct selection as [s |].
  - destruct (negb (hasOverlay _ s) && _); [discriminate |].
    destruct (popToFront _ _ s) as [w2 ok]. destruct ok; [| discriminate].
    injection H as <- <-. cbn. repeat (split; [reflexivity |]).
    right. split; [reflexivity |]. exists s. split; [reflexivity | left; reflexivity].
  - destruct (getTopWebView W isPointOverMe panelZOrder (deFocusAllWebViews m) x y)
      as [t |] eqn:Htop.
    + destruct (negb (hasOverlay _ t) && _); [discriminate |].
      destruct (popToFront _ _ t) as [w2 ok]. destruct ok; [| discriminate].
      injection H as <- <-. cbn. repeat (split; [reflexivity |]).
      right. split; [reflexivity |]. exists t. split; [reflexivity |].
      right. split; reflexivity.
    + injection H as <- <-. cbn. repeat (split; [reflexivity |]).
      left. repeat split.
Qed.

(** After [handleRequestDrag(caller)] has returned, the dragging flag is
    set and the focus is on the caller, or, for a null caller, on the top
    view under the point (0,0) if there is one.  The next
    [injectMouseMove] reports the event handled and moves the view that
    has the focus, if it is movable, by the distance of the pointer from
    where it was; when no view has the focus it moves nothing, although
    the flag is set. *)
Theorem handleRequestDrag_then_move (m m1 : Manager W) (caller : option WebViewPtr)
    (b : bool) (xPos yPos : Z) :
  handleRequestDrag m caller = Some (Returned b, m1) ->
  let r := injectMouseMove W movable ignoringBounds isPointOverMe getRelativeX getRelativeY
             panelZOrder getVisibility move viewInjectMouseMove setPosition hide evaluateJS
             m1 xPos yPos in
  isDraggingFocusedWebView m1 = true /\
  b = isAnyWebViewFocused m1 /\
  focusedWebView m1 =
    match caller with
    | Some c => Some c
    | None => getTopWebView W isPointOverMe panelZOrder (deFocusAllWebViews m) 0 0
    end /\
  (forall c, focusedWebView m1 = Some c ->
     branch r = MoveFocused /\ eventHandled r = true /\
     webViews (after r) =
       if movable (webViews m1) c
       then move (webViews m1) c (int_sub xPos (mouseXPos m)) (int_sub yPos (mouseYPos m))
       else webViews m1) /\
  (focusedWebView m1 = None -> branch r = Hover).
Proof.
  intros H r. unfold handleRequestDrag in H.
  destruct (focusWebView m 0 0 caller) as [[[b0 |] m0] |] eqn:Hf; try discriminate.
  injection H as <- <-.
  destruct (focusWebView_returned m 0 0 caller b0 m0 Hf)
    as (Hx & Hy & _ & _ & _ & _ & Hcase).
  assert (Hfocus : focusedWebView m0 =
                     match caller with
                     | Some c => Some c
                     | None => getTopWebView W isPointOverMe panelZOrder
                                 (deFocusAllWebViews m) 0 0
                     end /\
                   b0 = match focusedWebView m0 with Some _ => true | None => false end).
  { destruct Hcase as [(-> & Hn & -> & Htop) | (-> & t & Ht & [-> | [-> Htop]])].
    - rewrite Hn, Htop. split; reflexivity.
    - rewrite Ht. split; reflexivity.
    - rewrite Ht, Htop. split; reflexivity. }
  destruct Hfocus as [Hfoc Hb].
  split; [reflexivity |].
  split; [unfold isAnyWebViewFocused; cbn; exact Hb |].
  split; [exact Hfoc |].
  subst r. unfold injectMouseMove. cbn [focusedWebView isDraggingFocusedWebView
    mouseButtonRDown webViews mouseXPos mouseYPos]. split.
  - intros c ->. cbn. rewrite Hx, Hy. repeat split.
  - intros ->. cbn.
    repeat match goal with
           | |- context [let '(_, _) := ?e in _] => destruct e
           end.
    reflexivity.
Qed.

(** A mouse-down of the left or the right button puts the focus on the
    top view under the pointer, as the manager last saw it, and takes it
    from every view if none is there; the right button sets its flag
    either way.  Any other button changes nothing.  The call returns
    whether a view has the focus afterwards. *)
Theorem injectMouseDown_focuses (m m1 : Manager W) (buttonID : Z) (b : bool) :
  injectMouseDown m buttonID = Some (Returned b, m1) ->
  b = isAnyWebViewFocused m1 /\
  (buttonID = LeftMouseButton \/ buttonID = RightMouseButton ->
     focusedWebView m1 =
       getTopWebView W isPointOverMe panelZOrder (deFocusAllWebViews m)
         (mouseXPos m) (mouseYPos m) /\
     isDraggingFocusedWebView m1 = false) /\
  (buttonID <> LeftMouseButton -> buttonID = RightMouseButton ->
     mouseButtonRDown m1 = true) /\
  (buttonID = LeftMouseButton -> mouseButtonRDown m1 = mouseButtonRDown m) /\
  (buttonID <> LeftMouseButton -> buttonID <> RightMouseButton -> m1 = m).
Proof.
  unfold injectMouseDown. intros H.
  destruct (Z.eqb_spec buttonID LeftMouseButton) as [El | El].
  - destruct (focusWebView m (mouseXPos m) (mouseYPos m) None) as [[[b0 |] m0] |] eqn:Hf;
      try discriminate.
    destruct (focusWebView_returned m _ _ None b0 m0 Hf)
      as (_ & _ & Hr & Hd & _ & _ & Hcase).
    destruct Hcase as [(-> & Hn & _ & Htop) | (-> & t & Ht & [Hs | [_ Htop]])];
      [| discriminate Hs |].
    + injection H as <- <-. unfold isAnyWebViewFocused. rewrite Hn.
      split; [reflexivity |]. split; [intros _; rewrite Htop; split; [reflexivity | exact Hd] |].
      split; [contradiction |]. split; [intros _; exact Hr | contradiction].
    + rewrite Ht in H. injection H as <- <-.
      unfold isAnyWebViewFocused.
      cbn [setWebViews focusedWebView isDraggingFocusedWebView mouseButtonRDown]. rewrite Ht.
      split; [reflexivity |]. split; [intros _; rewrite Htop; split; [reflexivity | exact Hd] |].
      split; [contradiction |]. split; [intros _; exact Hr | contradiction].
  - destruct (Z.eqb_spec buttonID RightMouseButton) as [Er | Er].
    + match type of H with
      | match focusWebView ?m0 ?x0 ?y0 None with _ => _ end = _ =>
          destruct (focusWebView m0 x0 y0 None) as [[[b0 |] m2] |] eqn:Hf; try discriminate;
          destruct (focusWebView_returned m0 x0 y0 None b0 m2 Hf)
            as (_ & _ & Hr & Hd & _ & _ & Hcase)
      end.
      injection H as <- <-. cbn [mouseButtonRDown] in Hr.
      split; [reflexivity |].
      split; [| split; [intros _ _; exact Hr | split; [contradiction | contradiction]]].
      intros _. split; [| exact Hd].
      destruct Hcase as [(_ & Hn & _ & Htop) | (_ & t & Ht & [Hs | [_ Htop]])];
        [| discriminate Hs |].
      * rewrite Hn. symmetry. exact Htop.
      * rewrite Ht. symmetry. exact Htop.
    + injection H as <- <-. split; [reflexivity |].
      split; [intros [E | E]; contradiction |].
      split; [intros _ E; contradiction |]. split; [contradiction | reflexivity].
Qed.

(** A mouse-up of any button ends the dragging, clears the flag of the
    right button if it is that button, and keeps the focus; it returns
    whether a view has the focus.  The [injectMouseMove] after it moves
    the focused view only if the right button is still down. *)
Theorem injectMouseUp_ends_drag (m : Manager W) (buttonID xPos yPos : Z) :
  LeftMouseButton <> RightMouseButton ->
  let m1 := snd (injectMouseUp m buttonID) in
  fst (injectMouseUp m buttonID) = isAnyWebViewFocused m /\
  focusedWebView m1 = focusedWebView m /\
  isDraggingFocusedWebView m1 = false /\
  mouseButtonRDown m1 =
    (if buttonID =? RightMouseButton then false else mouseButtonRDown m) /\
  (branch (injectMouseMove W movable ignoringBounds isPointOverMe getRelativeX getRelativeY
             panelZOrder getVisibility move viewInjectMouseMove setPosition hide evaluateJS
             m1 xPos yPos) = MoveFocused <->
   focusedWebView m <> None /\ mouseButtonRDown m = true /\ buttonID <> RightMouseButton).
Proof.
  intros Hbuttons m1.
  assert (Hm1 : focusedWebView m1 = focusedWebView m /\
                isDraggingFocusedWebView m1 = false /\
                mouseButtonRDown m1 =
                  (if buttonID =? RightMouseButton then false else mouseButtonRDown m)).
  { subst m1. unfold injectMouseUp. cbn [snd focusedWebView].
    destruct (Z.eqb_spec buttonID LeftMouseButton) as [-> | Hl].
    - destruct (Z.eqb_spec LeftMouseButton RightMouseButton) as [E | _]; [contradiction |].
      destruct (focusedWebView m); repeat split.
    - destruct (buttonID =? RightMouseButton); repeat split. }
  destruct Hm1 as (H1 & H2 & H3).
  split.
  { change (fst (injectMouseUp m buttonID)) with (isAnyWebViewFocused m1).
    unfold isAnyWebViewFocused. rewrite H1. reflexivity. }
  split; [exact H1 |]. split; [exact H2 |]. split; [exact H3 |].
  unfold injectMouseMove. rewrite H1, H2, H3.
  destruct (focusedWebView m) as [f |], (Z.eqb_spec buttonID RightMouseButton) as [E | E],
    (mouseButtonRDown m); cbn [andb orb];
    repeat match goal with
           | |- context [let '(_, _) := ?e in _] => destruct e
           end; cbn [branch];
    split; try discriminate; try tauto; try (intros (A & B & C); congruence);
    try (intros _; repeat split; congruence).
Qed.

End Views.

(** *** A store of views for the examples

    Each view has an overlay with a tier and a z-order, a rectangle on the
    screen and the flags the manager reads; the panel of an overlay is at
    [100 * tier + zOrder]. *)

Record View := mkView {
  v_overlay : bool;
  v_tier : Z;
  v_zOrder : Z;
  v_okayToDelete : bool;
  v_movable : bool;
  v_left : Z;
  v_top : Z;
  v_width : Z;
  v_height : Z
}.

Record Store := mkStore {
  viewAt : WebViewPtr -> View;
  nextView : WebViewPtr
}.

Definition st_update (s : Store) (v : WebViewPtr) (f : View -> View) : Store :=
  mkStore (fun u => if Nat.eqb u v then f (viewAt s v) else viewAt s u) (nextView s).

Definition st_hasOverlay (s : Store) (v : WebViewPtr) : bool := v_overlay (viewAt s v).
Definition st_getTier (s : Store) (v : WebViewPtr) : Z := v_tier (viewAt s v).
Definition st_getZOrder (s : Store) (v : WebViewPtr) : Z := v_zOrder (viewAt s v).
Definition st_okayToDelete (s : Store) (v : WebViewPtr) : bool :=
  v_okayToDelete (viewAt s v).
Definition st_movable (s : Store) (v : WebViewPtr) : bool := v_movable (viewAt s v).
Definition st_panelZOrder (s : Store) (v : WebViewPtr) : Z :=
  100 * v_tier (viewAt s v) + v_zOrder (viewAt s v).

Definition st_isPointOverMe (s : Store) (v : WebViewPtr) (x y : Z) : bool :=
  (v_left (viewAt s v) <=? x) && (x <? v_left (viewAt s v) + v_width (viewAt s v)) &&
  (v_top (viewAt s v) <=? y) && (y <? v_top (viewAt s v) + v_height (viewAt s v)).

Definition st_getRelativeX (s : Store) (v : WebViewPtr) (x : Z) : Z :=
  x - v_left (viewAt s v).
Definition st_getRelativeY (s : Store) (v : WebViewPtr) (y : Z) : Z :=
  y - v_top (viewAt s v).

Definition st_setZOrder (s : Store) (v : WebViewPtr) (z : Z) : Store :=
  st_update s v (fun a =>
    mkView (v_overlay a) (v_tier a) z (v_okayToDelete a) (v_movable a)
      (v_left a) (v_top a) (v_width a) (v_height a)).

Definition st_move (s : Store) (v : WebViewPtr) (dx dy : Z) : Store :=
  st_update s v (fun a =>
    mkView (v_overlay a) (v_tier a) (v_zOrder a) (v_okayToDelete a) (v_movable a)
      (v_left a + dx) (v_top a + dy) (v_width a) (v_height a)).

Definition st_same (s : Store) (_ : WebViewPtr) : Store := s.
Definition st_same2 (s : Store) (_ : WebViewPtr) (_ _ : Z) : Store := s.
Definition st_sameFlag (s : Store) (_ : WebViewPtr) (_ : bool) : Store := s.
Definition st_sameText (s : Store) (_ : WebViewPtr) (_ : string) : Store := s.
Definition st_no (s : Store) (_ : WebViewPtr) : bool := false.

Fixpoint st_insert (s : Store) (v : WebViewPtr) (l : list WebViewPtr) : list WebViewPtr :=
  match l with
  | [] => [v]
  | a :: rest =>
      if st_getZOrder s a <? st_getZOrder s v then v :: a :: rest
      else a :: st_insert s v rest
  end.

Definition st_sort (s : Store) (l : list WebViewPtr) : list WebViewPtr :=
  fold_right (st_insert s) [] l.

Definition st_newWebView (s : Store) (_ : string) (width height : Z) (position : Z * Z)
    (_ : bool) (_ : Z) (zOrder tier : Z) (_ : option unit) : WebViewPtr * Store :=
  (nextView s,
   mkStore (fun u => if Nat.eqb u (nextView s)
                     then mkView true tier zOrder false true
                            (fst position) (snd position) width height
                     else viewAt s u)
     (S (nextView s))).

Lemma st_getZOrder_setZOrder (s : Store) (v : WebViewPtr) (z : Z) :
  st_getZOrder (st_setZOrder s v z) v = z.
Proof. unfold st_getZOrder, st_setZOrder, st_update. cbn. rewrite Nat.eqb_refl. reflexivity. Qed.

Lemma st_getZOrder_setZOrder_other (s : Store) (v u : WebViewPtr) (z : Z) :
  u <> v -> st_getZOrder (st_setZOrder s v z) u = st_getZOrder s u.
Proof.
  intros Hne. unfold st_getZOrder, st_setZOrder, st_update. cbn.
  destruct (Nat.eqb_spec u v); [contradiction | reflexivity].
Qed.

(** Three views of tier 1 at the z-orders 0, 1 and 2, the first two
    overlapping, and a manager with the three of them active. *)
Definition threeViews : Store :=
  mkStore (fun v => match v with
                    | 0%nat => mkView true 1 0 false true 0 0 100 100
                    | 1%nat => mkView true 1 1 true true 50 50 100 100
                    | _ => mkView true 1 2 false false 300 300 10 10
                    end) 3%nat.

Definition threeViewManager : Manager Store :=
  mkManager Store threeViews (Some 1%nat) 60 60 false true
    [("a"%string, 0%nat); ("b"%string, 1%nat); ("c"%string, 2%nat)] None 2%nat 0.


Lemma createWebView_keeps_distinct_witness :
  exists v m',
    createWebView Store st_hasOverlay st_getTier st_getZOrder (Z * Z)%type unit
      st_newWebView None threeViewManager "d" 10 10 (0, 0) false 70 1 None = Some (v, m') /\
    NoDup (map snd (activeWebViews Store m')).
Proof.
  destruct (createWebView Store st_hasOverlay st_getTier st_getZOrder (Z * Z)%type unit
              st_newWebView None threeViewManager "d" 10 10 (0, 0) false 70 1 None)
    as [[v m'] |] eqn:Hc; [| vm_compute in Hc; discriminate].
  exists v, m'. split; [reflexivity |].
  refine (proj2 (proj2 (createWebView_keeps_distinct Store st_hasOverlay st_getTier
            st_getZOrder (Z * Z)%type unit st_newWebView None threeViewManager "d" 10 10
            (0, 0) false 70 1 None v m' _ _ Hc _))).
  - change (NoDup ["a"; "b"; "c"]%string).
    repeat (apply NoDup_cons_2; [rewrite ?elem_of_cons, ?elem_of_nil; intuition discriminate |]).
    apply NoDup_nil_2.
  - cbn. repeat (apply NoDup_cons_2; [rewrite ?elem_of_cons, ?elem_of_nil; lia |]).
    apply NoDup_nil_2.
  - vm_compute in Hc. injection Hc as <- _. cbn.
    rewrite ?elem_of_cons, ?elem_of_nil. lia.
Defined.

Lemma Update_sweeps_witness :
  focusedWebView Store
    (updated Store (Update Store st_okayToDelete st_same st_same (fun s => s) st_sameFlag
                      (fun _ => 0) threeViewManager)) = None /\
  deleted Store (Update Store st_okayToDelete st_same st_same (fun s => s) st_sameFlag
                   (fun _ => 0) threeViewManager) = [1%nat].
Proof.
  destruct (Update_sweeps Store st_okayToDelete st_same st_same (fun s => s) st_sameFlag
              (fun _ => 0) threeViewManager) as (_ & _ & _ & Hfocus & _).
  - cbn. repeat (apply NoDup_cons_2; [rewrite ?elem_of_cons, ?elem_of_nil; lia |]).
    apply NoDup_nil_2.
  - split; [| reflexivity].
    destruct Hfocus as [[_ Hdrag] | [Hnone _]]; [| exact Hnone].
    vm_compute in Hdrag. discriminate Hdrag.
Defined.

Lemma popToFront_rotates_witness :
  exists w',
    popToFront Store st_getZOrder st_setZOrder threeViews [2; 1; 0]%nat 0%nat = (w', true) /\
    map (st_getZOrder w') [0; 2; 1]%nat = map (st_getZOrder threeViews) [2; 1; 0]%nat.
Proof.
  destruct (popToFront_rotates Store st_getZOrder st_setZOrder st_getZOrder_setZOrder
              st_getZOrder_setZOrder_other threeViews [2; 1]%nat [] 0%nat)
    as (w' & H1 & H2 & _).
  - cbn. repeat (apply NoDup_cons_2; [rewrite ?elem_of_cons, ?elem_of_nil; lia |]).
    apply NoDup_nil_2.
  - exists w'. split; [exact H1 | exact H2].
Defined.

Lemma handleRequestDrag_then_move_witness :
  exists b m1,
    handleRequestDrag Store st_isPointOverMe st_panelZOrder st_hasOverlay st_getTier
      st_getZOrder st_setZOrder st_same st_same st_sort threeViewManager (Some 0%nat)
      = Some (Returned b, m1) /\
    isDraggingFocusedWebView Store m1 = true.
Proof.
  destruct (handleRequestDrag Store st_isPointOverMe st_panelZOrder st_hasOverlay st_getTier
              st_getZOrder st_setZOrder st_same st_same st_sort threeViewManager (Some 0%nat))
    as [[[b |] m1] |] eqn:H; [| vm_compute in H; discriminate | vm_compute in H; discriminate].
  exists b, m1. split; [reflexivity |].
  exact (proj1 (handleRequestDrag_then_move Store st_movable st_no st_isPointOverMe
           st_getRelativeX st_getRelativeY st_panelZOrder st_no st_move st_same2 st_same2
           st_sameFlag st_sameText st_hasOverlay st_getTier st_getZOrder st_setZOrder
           st_same st_same st_sort threeViewManager m1 (Some 0%nat) b 70 65 H)).
Defined.

Lemma injectMouseUp_ends_drag_witness :
  isDraggingFocusedWebView Store
    (snd (injectMouseUp Store st_getRelativeX st_getRelativeY st_same2 0 1
            threeViewManager 0)) = false.
Proof.
  exact (proj1 (proj2 (proj2 (injectMouseUp_ends_drag Store st_movable st_no
           st_isPointOverMe st_getRelativeX st_getRelativeY st_panelZOrder st_no st_move
           st_same2 st_same2 st_sameFlag st_sameText st_same2 0 1 threeViewManager 0 70 65
           ltac:(lia))))).
Defined.

Lemma focusWebView_brings_to_front_witness :
  exists m1,
    focusWebView Store st_isPointOverMe st_panelZOrder st_hasOverlay st_getTier
      st_getZOrder st_setZOrder st_same st_same st_sort threeViewManager 0 0 (Some 0%nat)
      = Some (Returned true, m1) /\
    focusedWebView Store m1 = Some 0%nat.
Proof.
  destruct (focusWebView_brings_to_front Store st_isPointOverMe st_panelZOrder
              st_hasOverlay st_getTier st_getZOrder st_setZOrder st_same st_same st_sort
              st_getZOrder_setZOrder st_getZOrder_setZOrder_other
              (fun w v u => eq_refl) threeViewManager 0 0 0%nat)
    as (m1 & H1 & H2 & _).
  - cbn. repeat (apply NoDup_cons_2; [rewrite ?elem_of_cons, ?elem_of_nil; lia |]).
    apply NoDup_nil_2.
  - cbn. left.
  - reflexivity.
  - vm_compute. apply NoDup_Permutation.
    + repeat (apply NoDup_cons_2; [rewrite ?elem_of_cons, ?elem_of_nil; lia |]).
      apply NoDup_nil_2.
    + repeat (apply NoDup_cons_2; [rewrite ?elem_of_cons, ?elem_of_nil; lia |]).
      apply NoDup_nil_2.
    + intros u. rewrite !elem_of_cons, !elem_of_nil. lia.
  - change (StronglySorted
              (fun a b => st_getZOrder threeViews b <= st_getZOrder threeViews a)
              [2; 1; 0]%nat).
    repeat (apply SSorted_cons; [| repeat (apply Forall_cons; split; [vm_compute; discriminate |]);
                                   apply Forall_nil; exact I]).
    apply SSorted_nil.
  - exists m1. split; [exact H1 | exact H2].
Defined.

Lemma injectMouseDown_focuses_witness :
  exists b m1,
    injectMouseDown Store st_isPointOverMe st_getRelativeX st_getRelativeY st_panelZOrder
      st_hasOverlay st_getTier st_getZOrder st_setZOrder st_same st_same st_same2 st_sort
      0 1 threeViewManager 0 = Some (Returned b, m1) /\
    mouseButtonRDown Store m1 = false.
Proof.
  destruct (injectMouseDown Store st_isPointOverMe st_getRelativeX st_getRelativeY
              st_panelZOrder st_hasOverlay st_getTier st_getZOrder st_setZOrder st_same
              st_same st_same2 st_sort 0 1 threeViewManager 0)
    as [[[b |] m1] |] eqn:H; [| vm_compute in H; discriminate | vm_compute in H; discriminate].
  exists b, m1. split; [reflexivity |].
  exact (proj1 (proj2 (proj2 (proj2 (injectMouseDown_focuses Store st_isPointOverMe
           st_getRelativeX st_getRelativeY st_panelZOrder st_hasOverlay st_getTier
           st_getZOrder st_setZOrder st_same st_same st_same2 st_sort 0 1 threeViewManager
           m1 0 b H)))) eq_refl).
Defined.

(** The three views in use: a drag requested by the view at the bottom
    brings it to the front, with the z-orders of the other two lowered by
    one place, and the mouse move that follows moves it. *)
Example drag_brings_to_front :
  exists m1,
    handleRequestDrag Store st_isPointOverMe st_panelZOrder st_hasOverlay st_getTier
      st_getZOrder st_setZOrder st_same st_same st_sort threeViewManager (Some 0%nat)
      = Some (Returned true, m1) /\
    map (st_getZOrder (webViews Store m1)) [0; 1; 2]%nat = [2; 0; 1] /\
    v_left (viewAt (webViews Store (after Store
      (injectMouseMove Store st_movable st_no st_isPointOverMe st_getRelativeX
         st_getRelativeY st_panelZOrder st_no st_move st_same2 st_same2 st_sameFlag
         st_sameText m1 70 65))) 0%nat) = 10.
Proof. eexists. split; [vm_compute; reflexivity |]. split; vm_compute; reflexivity. Qed.

End WebViewManager.

(** ** CacheLayer.hpp *)

Module CacheLayer.

(** A [CacheLayer] object: [mRespondTo] and [mNext] are addresses of other
    layers, [None] for the null pointer. *)
Record Layer := mkLayer {
  mRespondTo : option nat;
  mNext : option nat
}.

#[global] Instance Layer_eq_dec : EqDecision Layer.
Proof. solve_decision. Defined.

(** The heap maps the address of every live layer to its fields.  Calling
    through a pointer to storage that holds no live layer is undefined
    behaviour and yields [None]. *)
Abbreviation Heap := (gmap nat Layer).

(** [inline void setResponder(CacheLayer *other) { mRespondTo = other; }] *)
Definition setResponder (h : Heap) (this : nat) (other : option nat) : option Heap :=
  match h !! this with
  | Some l => Some (<[this := mkLayer other (mNext l)]> h)
  | None => None
  end.

(** [CacheLayer(CacheLayer *tryNext) : mRespondTo(NULL), mNext(tryNext)]
    with the body [if (tryNext) tryNext->setResponder(this);].  [this] is
    the address of the storage the object is constructed in, which holds
    no live layer. *)
Definition construct (h : Heap) (this : nat) (tryNext : option nat) : option Heap :=
  match h !! this with
  | Some _ => None
  | None =>
      let h1 := <[this := mkLayer None tryNext]> h in
      match tryNext with
      | Some n => setResponder h1 n (Some this)
      | None => Some h1
      end
  end.

(** [virtual ~CacheLayer() { if (mNext) mNext->setResponder(NULL); }]; the
    object is gone once the body has run. *)
Definition destroy (h : Heap) (this : nat) : option Heap :=
  match h !! this with
  | None => None
  | Some l =>
      match mNext l with
      | Some n =>
          match setResponder h n None with
          | Some h1 => Some (delete this h1)
          | None => None
          end
      | None => Some (delete this h)
      end
  end.

Section GetData.

Variables URI Range SparseData : Type.

(** What a [TransferCallback] was called with: [None] is [callback(NULL)]. *)
Definition Calls := list (option SparseData).

(** [virtual bool getData(const URI &uri, const Range &requestedRange,
    const TransferCallback &callback)] of the base class: forward to
    [mNext] if there is one, else [callback(NULL); return false;].  The
    function is virtual and the tiers that hold data override it; none of
    them is among the sources, so every layer of the heap is a plain
    [CacheLayer].  The recursion follows [mNext] pointers, one unit of
    [fuel] per hop; the result is the returned flag and the calls made on
    [callback]. *)
Fixpoint getData (fuel : nat) (h : Heap) (this : nat) (uri : URI)
    (requestedRange : Range) : option (bool * Calls) :=
  match fuel with
  | O => None
  | S fuel' =>
      match h !! this with
      | None => None
      | Some l =>
          match mNext l with
          | Some n => getData fuel' h n uri requestedRange
          | None => Some (false, [None])
          end
      end
  end.

End GetData.

Arguments getData {URI Range SparseData} fuel h this uri requestedRange.

(** Operations on the chain as a program performs them. *)
Inductive Op :=
| Construct (this : nat) (tryNext : option nat)
| Destroy (this : nat).

Definition step (h : Heap) (op : Op) : option Heap :=
  match op with
  | Construct this tryNext => construct h this tryNext
  | Destroy this => destroy h this
  end.

Fixpoint run (h : Heap) (ops : list Op) : option Heap :=
  match ops with
  | [] => Some h
  | op :: rest =>
      match step h op with
      | Some h' => run h' rest
      | None => None
      end
  end.

(** Every linked pair is linked both ways: if layer [a] has [n] as its
    next tier then [n] is live and its responder is [a]. *)
Definition backLinked (h : Heap) : Prop :=
  forall a la n, h !! a = Some la -> mNext la = Some n ->
    exists ln, h !! n = Some ln /\ mRespondTo ln = Some a.

(** No live layer has [n] as its next tier. *)
Definition unlinked (h : Heap) (n : nat) : bool :=
  bool_decide (map_Forall (fun (_ : nat) (l : Layer) => mNext l <> Some n) h).

(** The discipline of a linear chain: a layer is constructed in free
    storage, in front of a live layer that nothing links to yet (or in
    front of nothing), and a layer is destroyed only while nothing links
    to it. *)
Definition admissible (h : Heap) (op : Op) : bool :=
  match op with
  | Construct this tryNext =>
      bool_decide (h !! this = None) &&
      match tryNext with
      | Some n => bool_decide (is_Some (h !! n)) && unlinked h n
      | None => true
      end
  | Destroy this => bool_decide (is_Some (h !! this)) && unlinked h this
  end.

Fixpoint runAdmissible (h : Heap) (ops : list Op) : bool :=
  match ops with
  | [] => true
  | op :: rest =>
      admissible h op &&
      match step h op with
      | Some h' => runAdmissible h' rest
      | None => false
      end
  end.

(** *** The read path *)

(** Following [mNext] from [this] for [k] hops reaches a layer without a
    next tier. *)
Fixpoint endsAfter (h : Heap) (k : nat) (this : nat) : Prop :=
  match h !! this with
  | None => False
  | Some l =>
      match k, mNext l with
      | O, None => True
      | S k', Some n => endsAfter h k' n
      | _, _ => False
      end
  end.

(** On such a chain the request travels to the last layer, which answers
    with [callback(NULL)] once and returns [false]. *)
Lemma getData_chain_end {URI Range SparseData : Type} (h : Heap) (uri : URI)
    (range : Range) (k : nat) :
  forall this fuel, endsAfter h k this ->
    getData (SparseData := SparseData) (S k + fuel) h this uri range
      = Some (false, [None]).
Proof.
  induction k as [| k IH]; intros this fuel Hend; cbn in Hend |- *;
    destruct (h !! this) as [l |]; try contradiction;
    destruct (mNext l) as [n |]; try contradiction.
  - reflexivity.
  - apply IH. exact Hend.
Qed.

(** C3: [getData] on a layer whose [mNext] is null calls the callback
    exactly once, with NULL, and returns [false] (the base layer holds no
    data of its own, so it never satisfies a range locally). *)
Theorem getData_no_next {URI Range SparseData : Type} (fuel : nat) (h : Heap)
    (this : nat) (l : Layer) (uri : URI) (range : Range) :
  h !! this = Some l -> mNext l = None ->
  getData (SparseData := SparseData) (S fuel) h this uri range = Some (false, [None]).
Proof.
  intros Hl Hn. cbn. rewrite Hl, Hn. reflexivity.
Qed.

Lemma getData_no_next_witness :
  getData (SparseData := nat) 1 ({[ 7 := mkLayer None None ]} : Heap) 7 tt tt
    = Some (false, [None]).
Proof.
  apply (getData_no_next (SparseData := nat) 0 {[ 7 := mkLayer None None ]} 7
           (mkLayer None None) tt tt).
  - vm_compute. reflexivity.
  - reflexivity.
Defined.

(** *** The chain *)

Lemma unlinked_spec (h : Heap) (n : nat) :
  unlinked h n = true <->
  forall a la, h !! a = Some la -> mNext la <> Some n.
Proof.
  unfold unlinked. rewrite bool_decide_eq_true. apply map_Forall_lookup.
Qed.

(** Constructing a layer in front of a live tier [n] makes the new layer
    the responder of [n]. *)
Lemma construct_sets_responder (h : Heap) (this n : nat) :
  h !! this = None -> is_Some (h !! n) ->
  exists h' ln,
    construct h this (Some n) = Some h' /\
    h' !! n = Some ln /\ mRespondTo ln = Some this /\
    h' !! this = Some (mkLayer None (Some n)).
Proof.
  intros Hfree [ln Hn].
  assert (Hne : n <> this) by congruence.
  unfold construct, setResponder. rewrite Hfree.
  rewrite lookup_insert_ne by congruence. rewrite Hn.
  eexists _, _. split; [reflexivity |].
  rewrite lookup_insert_eq. split; [reflexivity |]. split; [reflexivity |].
  rewrite lookup_insert_ne by congruence. apply lookup_insert_eq.
Qed.

(** Destroying a layer whose next tier is [n] resets the responder of [n]
    to null. *)
Lemma destroy_resets_responder (h : Heap) (this n : nat) (l : Layer) :
  h !! this = Some l -> mNext l = Some n -> n <> this -> is_Some (h !! n) ->
  exists h' ln,
    destroy h this = Some h' /\
    h' !! n = Some ln /\ mRespondTo ln = None /\ h' !! this = None.
Proof.
  intros Hl Hnext Hne [ln Hn].
  unfold destroy, setResponder. rewrite Hl, Hnext, Hn.
  eexists _, _. split; [reflexivity |].
  rewrite lookup_delete_ne by congruence. rewrite lookup_insert_eq.
  split; [reflexivity |]. split; [reflexivity |]. apply lookup_delete_eq.
Qed.

Lemma admissible_construct (h : Heap) (this : nat) (tryNext : option nat) :
  admissible h (Construct this tryNext) = true ->
  h !! this = None /\
  forall n, tryNext = Some n ->
    is_Some (h !! n) /\ forall a la, h !! a = Some la -> mNext la <> Some n.
Proof.
  cbn. rewrite andb_true_iff, bool_decide_eq_true. intros [Hfree Hrest].
  split; [exact Hfree |]. intros n ->.
  rewrite andb_true_iff, bool_decide_eq_true, unlinked_spec in Hrest. exact Hrest.
Qed.

Lemma admissible_destroy (h : Heap) (this : nat) :
  admissible h (Destroy this) = true ->
  is_Some (h !! this) /\ forall a la, h !! a = Some la -> mNext la <> Some this.
Proof.
  cbn. rewrite andb_true_iff, bool_decide_eq_true, unlinked_spec. tauto.
Qed.

Lemma construct_backLinked (h : Heap) (this : nat) (tryNext : option nat) :
  backLinked h -> admissible h (Construct this tryNext) = true ->
  exists h', construct h this tryNext = Some h' /\ backLinked h'.
Proof.
  intros Hinv Hadm. apply admissible_construct in Hadm as [Hfree Hnext].
  destruct tryNext as [n |].
  - destruct (Hnext n eq_refl) as [[ln Hn] Hun].
    assert (Hne : n <> this) by congruence.
    unfold construct, setResponder. rewrite Hfree.
    rewrite lookup_insert_ne by congruence. rewrite Hn.
    eexists. split; [reflexivity |].
    intros a la m Ha Hm.
    destruct (decide (a = n)) as [-> | Han].
    + rewrite lookup_insert_eq in Ha. injection Ha as <-. cbn in Hm.
      destruct (Hinv n ln m Hn Hm) as (lm & Hlm & Hresp).
      assert (m <> n) by (intros ->; exact (Hun n ln Hn Hm)).
      assert (m <> this) by congruence.
      exists lm. rewrite !lookup_insert_ne by congruence. split; assumption.
    + rewrite lookup_insert_ne in Ha by congruence.
      destruct (decide (a = this)) as [-> | Hat].
      * rewrite lookup_insert_eq in Ha. injection Ha as <-. cbn in Hm.
        injection Hm as <-. eexists. rewrite lookup_insert_eq. split; reflexivity.
      * rewrite lookup_insert_ne in Ha by congruence.
        destruct (Hinv a la m Ha Hm) as (lm & Hlm & Hresp).
        assert (m <> n) by (intros ->; exact (Hun a la Ha Hm)).
        assert (m <> this) by congruence.
        exists lm. rewrite !lookup_insert_ne by congruence. split; assumption.
  - unfold construct. rewrite Hfree. eexists. split; [reflexivity |].
    intros a la m Ha Hm.
    destruct (decide (a = this)) as [-> | Hat].
    + rewrite lookup_insert_eq in Ha. injection Ha as <-. discriminate Hm.
    + rewrite lookup_insert_ne in Ha by congruence.
      destruct (Hinv a la m Ha Hm) as (lm & Hlm & Hresp).
      assert (m <> this) by congruence.
      exists lm. rewrite lookup_insert_ne by congruence. split; assumption.
Qed.

Lemma destroy_backLinked (h : Heap) (this : nat) :
  backLinked h -> admissible h (Destroy this) = true ->
  exists h', destroy h this = Some h' /\ backLinked h'.
Proof.
  intros Hinv Hadm. apply admissible_destroy in Hadm as [[l Hl] Hun].
  unfold destroy. rewrite Hl. destruct (mNext l) as [n |] eqn:Hnext.
  - destruct (Hinv this l n Hl Hnext) as (ln & Hn & Hresp).
    assert (Hne : n <> this) by (intros ->; exact (Hun this l Hl Hnext)).
    unfold setResponder. rewrite Hn. eexists. split; [reflexivity |].
    intros a la m Ha Hm.
    assert (Hat : a <> this) by (intros ->; rewrite lookup_delete_eq in Ha; discriminate).
    rewrite lookup_delete_ne in Ha by congruence.
    assert (Hold : exists la0, h !! a = Some la0 /\ mNext la0 = Some m).
    { destruct (decide (a = n)) as [-> | Han].
      - rewrite lookup_insert_eq in Ha. injection Ha as <-. exists ln. split; assumption.
      - rewrite lookup_insert_ne in Ha by congruence. exists la. split; assumption. }
    destruct Hold as (la0 & Ha0 & Hm0).
    destruct (Hinv a la0 m Ha0 Hm0) as (lm & Hlm & Hrm).
    assert (m <> this) by (intros ->; exact (Hun a la0 Ha0 Hm0)).
    assert (m <> n) by (intros ->; congruence).
    exists lm. rewrite lookup_delete_ne, lookup_insert_ne by congruence.
    split; assumption.
  - eexists. split; [reflexivity |].
    intros a la m Ha Hm.
    assert (Hat : a <> this) by (intros ->; rewrite lookup_delete_eq in Ha; discriminate).
    rewrite lookup_delete_ne in Ha by congruence.
    destruct (Hinv a la m Ha Hm) as (lm & Hlm & Hrm).
    assert (m <> this) by (intros ->; exact (Hun a la Ha Hm)).
    exists lm. rewrite lookup_delete_ne by congruence. split; assumption.
Qed.

Lemma step_backLinked (h : Heap) (op : Op) :
  backLinked h -> admissible h op = true ->
  exists h', step h op = Some h' /\ backLinked h'.
Proof.
  destruct op as [this tryNext | this]; cbn [step].
  - apply construct_backLinked.
  - apply destroy_backLinked.
Qed.

Lemma run_backLinked (ops : list Op) :
  forall h, backLinked h -> runAdmissible h ops = true ->
    exists h', run h ops = Some h' /\ backLinked h'.
Proof.
  induction ops as [| op ops IH]; intros h Hinv Hadm; cbn in Hadm |- *.
  - exists h. split; [reflexivity | exact Hinv].
  - apply andb_true_iff in Hadm as [Hop Hrest].
    destruct (step_backLinked h op Hinv Hop) as (h1 & Hstep & Hinv1).
    rewrite Hstep in Hrest |- *. apply IH; assumption.
Qed.

Lemma backLinked_empty : backLinked (∅ : Heap).
Proof. intros a la n Ha. rewrite lookup_empty in Ha. discriminate. Qed.

(** C7, as the code has it.  The constructor makes the new layer the
    responder of its next tier and the destructor resets the responder of
    the next tier to null.  The two-way link of every linked pair is an
    invariant of the programs that keep the chain linear: a layer is
    constructed in front of a tier that no live layer links to, and is
    destroyed only while no live layer links to it.  Such programs never
    call through a dangling pointer. *)
Theorem chain_doubly_linked (ops : list Op) :
  runAdmissible ∅ ops = true ->
  exists h,
    run ∅ ops = Some h /\ backLinked h /\
    (forall this n, h !! this = None -> is_Some (h !! n) ->
       exists h' ln, construct h this (Some n) = Some h' /\
         h' !! n = Some ln /\ mRespondTo ln = Some this) /\
    (forall this l n, h !! this = Some l -> mNext l = Some n -> n <> this ->
       exists h' ln, destroy h this = Some h' /\
         h' !! n = Some ln /\ mRespondTo ln = None).
Proof.
  intros Hadm.
  destruct (run_backLinked ops ∅ backLinked_empty Hadm) as (h & Hrun & Hinv).
  exists h. split; [exact Hrun |]. split; [exact Hinv |]. split.
  - intros this n Hfree Hn.
    destruct (construct_sets_responder h this n Hfree Hn) as (h' & ln & H1 & H2 & H3 & _).
    exists h', ln. split; [exact H1 |]. split; assumption.
  - intros this l n Hl Hnext Hne.
    destruct (Hinv this l n Hl Hnext) as (ln0 & Hn & _).
    destruct (destroy_resets_responder h this n l Hl Hnext Hne (ex_intro _ ln0 Hn))
      as (h' & ln & H1 & H2 & H3 & _).
    exists h', ln. split; [exact H1 |]. split; assumption.
Qed.

(** Memory, disk, network: three tiers built back to front, then the
    front tier destroyed. *)
Definition threeTiers : list Op :=
  [Construct 30 None; Construct 20 (Some 30); Construct 10 (Some 20); Destroy 10].

Lemma chain_doubly_linked_witness :
  exists h, run ∅ threeTiers = Some h /\ backLinked h.
Proof.
  destruct (chain_doubly_linked threeTiers) as (h & Hrun & Hinv & _).
  - vm_compute. reflexivity.
  - exists h. split; assumption.
Defined.

(** A tier destroyed while a layer in front of it is alive: the layer at
    20 keeps its pointer to the storage at 30, where no layer lives any
    more. *)
Lemma chain_dangling_after_destroy :
  exists h, run ∅ [Construct 30 None; Construct 20 (Some 30); Destroy 30] = Some h /\
    h !! 20 = Some (mkLayer None (Some 30)) /\ h !! 30 = None.
Proof.
  eexists. split; [vm_compute; reflexivity |]. split; reflexivity.
Qed.

(** Two layers constructed in front of the same tier. *)
Definition sharedNext : list Op :=
  [Construct 30 None; Construct 20 (Some 30); Construct 10 (Some 30)].

(** C7 as stated fails: after [sharedNext] the layer at 20 links to the
    tier at 30, whose responder is the layer at 10. *)
Lemma chain_not_always_back_linked :
  ~ (forall ops h, run ∅ ops = Some h -> backLinked h).
Proof.
  intros Hall.
  assert (Hrun : run ∅ sharedNext =
            Some (<[30 := mkLayer (Some 10) None]>
                    (<[10 := mkLayer None (Some 30)]>
                       (<[20 := mkLayer None (Some 30)]>
                          (<[30 := mkLayer None None]> ∅))))).
  { vm_compute. reflexivity. }
  destruct (Hall _ _ Hrun 20 (mkLayer None (Some 30)) 30) as (ln & Hln & Hresp).
  - vm_compute. reflexivity.
  - reflexivity.
  - assert (Hln' : ln = mkLayer (Some 10) None).
    { rewrite lookup_insert_eq in Hln. congruence. }
    subst ln. discriminate Hresp.
Qed.

(** *** The way back *)

(** [populateCache] of the base class, which is [populateParentCaches]:
    [if (mRespondTo) mRespondTo->populateCache(fileId, data);].  The
    result lists the layers whose [populateCache] ran, in the order of the
    calls; one unit of [fuel] per call. *)
Fixpoint populateCache (fuel : nat) (h : Heap) (this : nat) : option (list nat) :=
  match fuel with
  | O => None
  | S fuel' =>
      match h !! this with
      | None => None
      | Some l =>
          match mRespondTo l with
          | Some r => cons this <$> populateCache fuel' h r
          | None => Some [this]
          end
      end
  end.

(** [populateParentCaches], called by a layer that found the data. *)
Definition populateParentCaches (fuel : nat) (h : Heap) (this : nat)
    : option (list nat) :=
  match h !! this with
  | None => None
  | Some l =>
      match mRespondTo l with
      | Some r => populateCache fuel h r
      | None => Some []
      end
  end.

(** The layers whose [getData] runs for a request made to [this], in the
    order of the calls: [getData] with the calls recorded. *)
Fixpoint forwarded (fuel : nat) (h : Heap) (this : nat) : option (list nat) :=
  match fuel with
  | O => None
  | S fuel' =>
      match h !! this with
      | None => None
      | Some l =>
          match mNext l with
          | Some n => cons this <$> forwarded fuel' h n
          | None => Some [this]
          end
      end
  end.

(** Every responder is the layer in front: if [y] is the responder of [x]
    then [y] is live and its next tier is [x]. *)
Definition respLinked (h : Heap) : Prop :=
  forall x lx y, h !! x = Some lx -> mRespondTo lx = Some y ->
    exists ly, h !! y = Some ly /\ mNext ly = Some x.

(** Following [mRespondTo] from [this] for [k] hops reaches a layer
    without responder. *)
Fixpoint topsAfter (h : Heap) (k : nat) (this : nat) : Prop :=
  match h !! this with
  | None => False
  | Some l =>
      match k, mRespondTo l with
      | O, None => True
      | S k', Some r => topsAfter h k' r
      | _, _ => False
      end
  end.

(** The heaps of the programs that keep the chains linear. *)
Record Linear (h : Heap) : Prop := mkLinear {
  lin_back : backLinked h;
  lin_resp : respLinked h;
  lin_end : forall a la, h !! a = Some la -> exists k, endsAfter h k a;
  lin_top : forall a la, h !! a = Some la -> exists k, topsAfter h k a
}.

Lemma forwarded_getData {URI Range SparseData : Type} (h : Heap) (uri : URI)
    (range : Range) (fuel : nat) : forall this,
  getData (SparseData := SparseData) fuel h this uri range
    = (fun _ => (false, [None])) <$> forwarded fuel h this.
Proof.
  induction fuel as [| fuel IH]; intros this; cbn; [reflexivity |].
  destruct (h !! this) as [l |]; [| reflexivity].
  destruct (mNext l) as [n |]; [| reflexivity].
  rewrite IH. destruct (forwarded fuel h n); reflexivity.
Qed.

Lemma forwarded_chain_end (h : Heap) (k : nat) : forall this fuel,
  endsAfter h k this ->
  exists path e, forwarded (S k + fuel) h this = Some (path ++ [e]) /\
    length path = k /\
    (exists le, h !! e = Some le /\ mNext le = None) /\
    hd e path = this.
Proof.
  induction k as [| k IH]; intros this fuel Hend; cbn in Hend |- *;
    destruct (h !! this) as [l |] eqn:Hl; try contradiction;
    destruct (mNext l) as [n |] eqn:Hn; try contradiction.
  - exists [], this. split; [reflexivity |]. split; [reflexivity |].
    split; [exists l; split; assumption | reflexivity].
  - destruct (IH n fuel Hend) as (path & e & Hf & Hlen & He & _).
    exists (this :: path), e. cbn in Hf. rewrite Hf. cbn.
    split; [reflexivity |]. split; [congruence |]. split; [exact He | reflexivity].
Qed.

Lemma populateCache_top (h : Heap) (k : nat) : forall this fuel,
  topsAfter h k this ->
  exists above, populateCache (S k + fuel) h this = Some (this :: above) /\
    length above = k.
Proof.
  induction k as [| k IH]; intros this fuel Htop; cbn in Htop |- *;
    destruct (h !! this) as [l |] eqn:Hl; try contradiction;
    destruct (mRespondTo l) as [r |] eqn:Hr; try contradiction.
  - exists []. split; reflexivity.
  - destruct (IH r fuel Htop) as (above & Hp & Hlen).
    cbn in Hp. rewrite Hp. exists (r :: above). split; [reflexivity | cbn; congruence].
Qed.

Lemma populateCache_more (h : Heap) (fuel : nat) : forall this t d,
  populateCache fuel h this = Some t -> populateCache (fuel + d) h this = Some t.
Proof.
  induction fuel as [| fuel IH]; intros this t d H; cbn in H |- *; [discriminate |].
  destruct (h !! this) as [l |]; [| discriminate].
  destruct (mRespondTo l) as [r |]; [| exact H].
  destruct (populateCache fuel h r) as [t' |] eqn:E; [| discriminate].
  rewrite (IH r t' d E). exact H.
Qed.

Lemma populateParentCaches_more (h : Heap) (fuel d : nat) (this : nat) (t : list nat) :
  populateParentCaches fuel h this = Some t ->
  populateParentCaches (fuel + d) h this = Some t.
Proof.
  unfold populateParentCaches. destruct (h !! this) as [l |]; [| discriminate].
  destruct (mRespondTo l) as [r |]; [| trivial]. apply populateCache_more.
Qed.

Lemma forwarded_nonempty (h : Heap) (fuel : nat) (this : nat) :
  forwarded fuel h this <> Some [].
Proof.
  destruct fuel as [| fuel]; cbn; [discriminate |].
  destruct (h !! this) as [l |]; [| discriminate].
  destruct (mNext l) as [n |]; [| discriminate].
  destruct (forwarded fuel h n); discriminate.
Qed.

(** On a chain linked both ways, the layer at the end of the request path
    hands the data to the layers of the path, nearest first, and then to
    whatever is in front of the layer the request was made to. *)
Lemma populate_reverses_path (h : Heap) (fuel : nat) : backLinked h ->
  forall this path e above g,
    forwarded fuel h this = Some (path ++ [e]) ->
    populateParentCaches g h this = Some above ->
    populateParentCaches (g + length path) h e = Some (rev path ++ above).
Proof.
  intros Hback. induction fuel as [| fuel IH]; intros this path e above g Hf Hp;
    cbn in Hf; [discriminate |].
  destruct (h !! this) as [l |] eqn:Hl; [| discriminate].
  destruct (mNext l) as [n |] eqn:Hn.
  - destruct (forwarded fuel h n) as [p' |] eqn:Hf'; [| discriminate].
    cbn in Hf. injection Hf as Hf.
    destruct path as [| x path]; cbn in Hf.
    { injection Hf as _ ->. exfalso. exact (forwarded_nonempty h fuel n Hf'). }
    injection Hf as <- ->.
    destruct (Hback this l n Hl Hn) as (ln & Hln & Hresp).
    assert (Hpn : populateParentCaches (S g) h n = Some (this :: above)).
    { unfold populateParentCaches. rewrite Hln, Hresp. cbn. rewrite Hl.
      unfold populateParentCaches in Hp. rewrite Hl in Hp.
      destruct (mRespondTo l) as [r |]; [rewrite Hp; reflexivity |].
      injection Hp as <-. reflexivity. }
    pose proof (IH n path e (this :: above) (S g) Hf' Hpn) as H.
    cbn [length rev]. rewrite <- app_assoc. cbn [app].
    replace (g + S (length path)) with (S g + length path) by lia. exact H.
  - injection Hf as Hf. destruct path as [| x path].
    + cbn in Hf. injection Hf as <-. cbn. rewrite Nat.add_0_r. exact Hp.
    + destruct path; discriminate Hf.
Qed.

Lemma endsAfter_mono (P : nat -> Prop) (h h' : Heap) :
  (forall y ly n, P y -> h !! y = Some ly -> mNext ly = Some n -> P n) ->
  (forall y ly, P y -> h !! y = Some ly ->
     exists ly', h' !! y = Some ly' /\ mNext ly' = mNext ly) ->
  forall k x, P x -> endsAfter h k x -> endsAfter h' k x.
Proof.
  intros Hclosed Hsame. induction k as [| k IH]; intros x Hx Hend; cbn in Hend |- *;
    destruct (h !! x) as [l |] eqn:Hl; try contradiction;
    destruct (Hsame x l Hx Hl) as (l' & -> & ->);
    destruct (mNext l) as [n |] eqn:Hn; try contradiction.
  - exact I.
  - apply IH; [exact (Hclosed x l n Hx Hl Hn) | exact Hend].
Qed.

Lemma topsAfter_mono (P : nat -> Prop) (h h' : Heap) :
  (forall y ly r, P y -> h !! y = Some ly -> mRespondTo ly = Some r -> P r) ->
  (forall y ly, P y -> h !! y = Some ly ->
     exists ly', h' !! y = Some ly' /\ mRespondTo ly' = mRespondTo ly) ->
  forall k x, P x -> topsAfter h k x -> topsAfter h' k x.
Proof.
  intros Hclosed Hsame. induction k as [| k IH]; intros x Hx Htop; cbn in Htop |- *;
    destruct (h !! x) as [l |] eqn:Hl; try contradiction;
    destruct (Hsame x l Hx Hl) as (l' & -> & ->);
    destruct (mRespondTo l) as [r |] eqn:Hr; try contradiction.
  - exact I.
  - apply IH; [exact (Hclosed x l r Hx Hl Hr) | exact Htop].
Qed.

Lemma Linear_empty : Linear (∅ : Heap).
Proof.
  split.
  - apply backLinked_empty.
  - intros x lx y Hx. rewrite lookup_empty in Hx. discriminate.
  - intros a la Ha. rewrite lookup_empty in Ha. discriminate.
  - intros a la Ha. rewrite lookup_empty in Ha. discriminate.
Qed.

(** A tier that nothing links to has no responder. *)
Lemma unlinked_no_responder (h : Heap) (n : nat) (ln : Layer) :
  respLinked h -> (forall a la, h !! a = Some la -> mNext la <> Some n) ->
  h !! n = Some ln -> mRespondTo ln = None.
Proof.
  intros Hresp Hun Hn. destruct (mRespondTo ln) as [y |] eqn:Hy; [| reflexivity].
  destruct (Hresp n ln y Hn Hy) as (ly & Hly & Hnext).
  exfalso. exact (Hun y ly Hly Hnext).
Qed.

Lemma construct_Linear (h : Heap) (this : nat) (tryNext : option nat) :
  Linear h -> admissible h (Construct this tryNext) = true ->
  exists h', construct h this tryNext = Some h' /\ Linear h'.
Proof.
  intros Hlin Hadm.
  destruct (construct_backLinked h this tryNext (lin_back h Hlin) Hadm) as (h' & Hc & Hback').
  exists h'. split; [exact Hc |].
  apply admissible_construct in Hadm as [Hfree Hnext].
  destruct tryNext as [n |].
  - destruct (Hnext n eq_refl) as [[ln Hn] Hun].
    assert (Hne : n <> this) by congruence.
    pose proof (unlinked_no_responder h n ln (lin_resp h Hlin) Hun Hn) as Hnr.
    unfold construct, setResponder in Hc. rewrite Hfree in Hc.
    rewrite lookup_insert_ne in Hc by congruence. rewrite Hn in Hc.
    injection Hc as <-. cbn [mNext] in *.
    assert (Hthis : (<[n:=mkLayer (Some this) (mNext ln)]>
                       (<[this:=mkLayer None (Some n)]> h)) !! this
                    = Some (mkLayer None (Some n))).
    { rewrite lookup_insert_ne by congruence. apply lookup_insert_eq. }
    assert (Hn' : (<[n:=mkLayer (Some this) (mNext ln)]>
                     (<[this:=mkLayer None (Some n)]> h)) !! n
                  = Some (mkLayer (Some this) (mNext ln))) by apply lookup_insert_eq.
    assert (Hother : forall y, y <> n -> y <> this ->
              (<[n:=mkLayer (Some this) (mNext ln)]>
                 (<[this:=mkLayer None (Some n)]> h)) !! y = h !! y).
    { intros y H1 H2. rewrite !lookup_insert_ne by congruence. reflexivity. }
    assert (Hends : forall k x, is_Some (h !! x) -> endsAfter h k x ->
              endsAfter (<[n:=mkLayer (Some this) (mNext ln)]>
                           (<[this:=mkLayer None (Some n)]> h)) k x).
    { intros k x Hx. apply (endsAfter_mono (fun y => is_Some (h !! y))); [| | exact Hx].
      - intros y ly m _ Hy Hm. destruct (lin_back h Hlin y ly m Hy Hm) as (lm & Hlm & _).
        exists lm. exact Hlm.
      - intros y ly _ Hy. destruct (decide (y = n)) as [-> | Hyn].
        + rewrite Hn'. eexists. split; [reflexivity |]. cbn. congruence.
        + rewrite Hother by congruence. exists ly. split; [exact Hy | reflexivity]. }
    split.
    + exact Hback'.
    + intros x lx y Hx Hy. destruct (decide (x = n)) as [-> | Hxn].
      * rewrite Hn' in Hx. injection Hx as <-. cbn in Hy. injection Hy as <-.
        eexists. split; [exact Hthis | reflexivity].
      * destruct (decide (x = this)) as [-> | Hxt].
        { rewrite Hthis in Hx. injection Hx as <-. discriminate Hy. }
        rewrite Hother in Hx by assumption.
        destruct (lin_resp h Hlin x lx y Hx Hy) as (ly & Hly & Hnx).
        destruct (decide (y = n)) as [-> | Hyn].
        -- rewrite Hn'. eexists. split; [reflexivity |]. cbn. congruence.
        -- rewrite Hother by congruence. exists ly. split; assumption.
    + intros a la Ha. destruct (decide (a = this)) as [-> | Hat].
      * destruct (lin_end h Hlin n ln Hn) as (k & Hk). exists (S k).
        cbn [endsAfter]. rewrite Hthis. cbn [mNext].
        apply Hends; [exists ln; exact Hn | exact Hk].
      * assert (Hlive : is_Some (h !! a)).
        { destruct (decide (a = n)) as [-> | Han]; [exists ln; exact Hn |].
          rewrite Hother in Ha by assumption. exists la. exact Ha. }
        destruct Hlive as [la0 Ha0].
        destruct (lin_end h Hlin a la0 Ha0) as (k & Hk). exists k.
        apply Hends; [exists la0; exact Ha0 | exact Hk].
    + assert (Htops : forall k x, is_Some (h !! x) -> topsAfter h k x ->
                exists k', topsAfter (<[n:=mkLayer (Some this) (mNext ln)]>
                                        (<[this:=mkLayer None (Some n)]> h)) k' x).
      { induction k as [| k IH]; intros x [lx Hx] Htop; cbn in Htop; rewrite Hx in Htop.
        - destruct (mRespondTo lx) as [r |] eqn:Hr; [contradiction |].
          destruct (decide (x = n)) as [-> | Hxn].
          + exists 1. cbn. rewrite Hn'. cbn. rewrite Hthis. cbn. exact I.
          + exists 0. cbn. rewrite Hother by congruence. rewrite Hx, Hr. exact I.
        - destruct (mRespondTo lx) as [r |] eqn:Hr; [| contradiction].
          assert (Hxn : x <> n) by (intros ->; congruence).
          destruct (lin_resp h Hlin x lx r Hx Hr) as (lr & Hlr & _).
          destruct (IH r (ex_intro _ lr Hlr) Htop) as (k' & Hk').
          exists (S k'). cbn. rewrite Hother by congruence. rewrite Hx, Hr. exact Hk'. }
      intros a la Ha. destruct (decide (a = this)) as [-> | Hat].
      * exists 0. cbn. rewrite Hthis. cbn. exact I.
      * assert (Hlive : is_Some (h !! a)).
        { destruct (decide (a = n)) as [-> | Han]; [exists ln; exact Hn |].
          rewrite Hother in Ha by assumption. exists la. exact Ha. }
        destruct Hlive as [la0 Ha0].
        destruct (lin_top h Hlin a la0 Ha0) as (k & Hk).
        exact (Htops k a (ex_intro _ la0 Ha0) Hk).
  - unfold construct in Hc. rewrite Hfree in Hc. injection Hc as <-.
    assert (Hother : forall y, y <> this ->
              (<[this:=mkLayer None None]> h) !! y = h !! y).
    { intros y H1. rewrite lookup_insert_ne by congruence. reflexivity. }
    assert (Hsame : forall y ly, is_Some (h !! y) -> h !! y = Some ly ->
              (<[this:=mkLayer None None]> h) !! y = Some ly).
    { intros y ly _ Hy. rewrite Hother by congruence. exact Hy. }
    split.
    + exact Hback'.
    + intros x lx y Hx Hy. destruct (decide (x = this)) as [-> | Hxt].
      { rewrite lookup_insert_eq in Hx. injection Hx as <-. discriminate Hy. }
      rewrite Hother in Hx by assumption.
      destruct (lin_resp h Hlin x lx y Hx Hy) as (ly & Hly & Hnx).
      exists ly. split; [| exact Hnx]. rewrite Hother by congruence. exact Hly.
    + intros a la Ha. destruct (decide (a = this)) as [-> | Hat].
      * exists 0. cbn. rewrite lookup_insert_eq. cbn. exact I.
      * rewrite Hother in Ha by assumption.
        destruct (lin_end h Hlin a la Ha) as (k & Hk). exists k.
        apply (endsAfter_mono (fun y => is_Some (h !! y)) h); [| | exists la; exact Ha | exact Hk].
        -- intros y ly m _ Hy Hm. destruct (lin_back h Hlin y ly m Hy Hm) as (lm & Hlm & _).
           exists lm. exact Hlm.
        -- intros y ly Hy1 Hy. exists ly. split; [apply Hsame; assumption | reflexivity].
    + intros a la Ha. destruct (decide (a = this)) as [-> | Hat].
      * exists 0. cbn. rewrite lookup_insert_eq. cbn. exact I.
      * rewrite Hother in Ha by assumption.
        destruct (lin_top h Hlin a la Ha) as (k & Hk). exists k.
        apply (topsAfter_mono (fun y => is_Some (h !! y)) h); [| | exists la; exact Ha | exact Hk].
        -- intros y ly r _ Hy Hr. destruct (lin_resp h Hlin y ly r Hy Hr) as (lr & Hlr & _).
           exists lr. exact Hlr.
        -- intros y ly Hy1 Hy. exists ly. split; [apply Hsame; assumption | reflexivity].
Qed.

Lemma destroy_Linear (h : Heap) (this : nat) :
  Linear h -> admissible h (Destroy this) = true ->
  exists h', destroy h this = Some h' /\ Linear h'.
Proof.
  intros Hlin Hadm.
  destruct (destroy_backLinked h this (lin_back h Hlin) Hadm) as (h' & Hd & Hback').
  exists h'. split; [exact Hd |].
  apply admissible_destroy in Hadm as [[l Hl] Hun].
  pose proof (unlinked_no_responder h this l (lin_resp h Hlin) Hun Hl) as Htr.
  assert (Hclosed_next : forall y ly n, y <> this -> h !! y = Some ly ->
            mNext ly = Some n -> n <> this).
  { intros y ly n _ Hy Hn ->. exact (Hun y ly Hy Hn). }
  unfold destroy in Hd. rewrite Hl in Hd. destruct (mNext l) as [n |] eqn:Hnext.
  - destruct (lin_back h Hlin this l n Hl Hnext) as (ln & Hn & Hresp).
    assert (Hne : n <> this) by (intros ->; exact (Hun this l Hl Hnext)).
    unfold setResponder in Hd. rewrite Hn in Hd. injection Hd as <-.
    assert (Hn' : delete this (<[n:=mkLayer None (mNext ln)]> h) !! n
                  = Some (mkLayer None (mNext ln))).
    { rewrite lookup_delete_ne by congruence. apply lookup_insert_eq. }
    assert (Hother : forall y, y <> n -> y <> this ->
              delete this (<[n:=mkLayer None (mNext ln)]> h) !! y = h !! y).
    { intros y H1 H2. rewrite lookup_delete_ne, lookup_insert_ne by congruence. reflexivity. }
    assert (Hgone : delete this (<[n:=mkLayer None (mNext ln)]> h) !! this = None)
      by apply lookup_delete_eq.
    assert (Hlive : forall a la, delete this (<[n:=mkLayer None (mNext ln)]> h) !! a = Some la ->
              a <> this /\ is_Some (h !! a)).
    { intros a la Ha. assert (Hat : a <> this) by (intros ->; congruence).
      split; [exact Hat |]. destruct (decide (a = n)) as [-> | Han]; [exists ln; exact Hn |].
      rewrite Hother in Ha by assumption. exists la. exact Ha. }
    split.
    + exact Hback'.
    + intros x lx y Hx Hy. destruct (Hlive x lx Hx) as [Hxt _].
      destruct (decide (x = n)) as [-> | Hxn].
      { rewrite Hn' in Hx. injection Hx as <-. discriminate Hy. }
      rewrite Hother in Hx by assumption.
      destruct (lin_resp h Hlin x lx y Hx Hy) as (ly & Hly & Hnx).
      assert (Hyt : y <> this) by (intros ->; congruence).
      destruct (decide (y = n)) as [-> | Hyn].
      * rewrite Hn'. eexists. split; [reflexivity |]. cbn. congruence.
      * rewrite Hother by assumption. exists ly. split; assumption.
    + intros a la Ha. destruct (Hlive a la Ha) as [Hat [la0 Ha0]].
      destruct (lin_end h Hlin a la0 Ha0) as (k & Hk). exists k.
      apply (endsAfter_mono (fun y => y <> this) h); [exact Hclosed_next | | exact Hat | exact Hk].
      intros y ly Hyt Hy. destruct (decide (y = n)) as [-> | Hyn].
      * rewrite Hn'. eexists. split; [reflexivity |]. cbn. congruence.
      * rewrite Hother by assumption. exists ly. split; [exact Hy | reflexivity].
    + assert (Htops : forall k x, x <> this -> is_Some (h !! x) -> topsAfter h k x ->
                exists k', topsAfter (delete this (<[n:=mkLayer None (mNext ln)]> h)) k' x).
      { induction k as [| k IH]; intros x Hxt [lx Hx] Htop; cbn in Htop; rewrite Hx in Htop.
        - destruct (mRespondTo lx) as [r |] eqn:Hr; [contradiction |].
          exists 0. cbn. destruct (decide (x = n)) as [-> | Hxn].
          + rewrite Hn'. cbn. exact I.
          + rewrite Hother by assumption. rewrite Hx, Hr. exact I.
        - destruct (mRespondTo lx) as [r |] eqn:Hr; [| contradiction].
          destruct (decide (x = n)) as [-> | Hxn].
          + exists 0. cbn. rewrite Hn'. cbn. exact I.
          + destruct (lin_resp h Hlin x lx r Hx Hr) as (lr & Hlr & Hrx).
            assert (Hrt : r <> this) by (intros ->; congruence).
            destruct (IH r Hrt (ex_intro _ lr Hlr) Htop) as (k' & Hk').
            exists (S k'). cbn. rewrite Hother by assumption. rewrite Hx, Hr. exact Hk'. }
      intros a la Ha. destruct (Hlive a la Ha) as [Hat [la0 Ha0]].
      destruct (lin_top h Hlin a la0 Ha0) as (k & Hk).
      exact (Htops k a Hat (ex_intro _ la0 Ha0) Hk).
  - injection Hd as <-.
    assert (Hother : forall y, y <> this -> delete this h !! y = h !! y).
    { intros y H1. rewrite lookup_delete_ne by congruence. reflexivity. }
    assert (Hlive : forall a la, delete this h !! a = Some la -> a <> this /\ h !! a = Some la).
    { intros a la Ha. assert (Hat : a <> this) by (intros ->; rewrite lookup_delete_eq in Ha; discriminate).
      split; [exact Hat |]. rewrite Hother in Ha by assumption. exact Ha. }
    assert (Hclosed_resp : forall y ly r, y <> this -> h !! y = Some ly ->
              mRespondTo ly = Some r -> r <> this).
    { intros y ly r _ Hy Hr ->.
      destruct (lin_resp h Hlin y ly this Hy Hr) as (lt & Hlt & Hnx). congruence. }
    split.
    + exact Hback'.
    + intros x lx y Hx Hy. destruct (Hlive x lx Hx) as [Hxt Hx0].
      destruct (lin_resp h Hlin x lx y Hx0 Hy) as (ly & Hly & Hnx).
      assert (Hyt : y <> this) by (intros ->; congruence).
      exists ly. split; [| exact Hnx]. rewrite Hother by assumption. exact Hly.
    + intros a la Ha. destruct (Hlive a la Ha) as [Hat Ha0].
      destruct (lin_end h Hlin a la Ha0) as (k & Hk). exists k.
      apply (endsAfter_mono (fun y => y <> this) h); [exact Hclosed_next | | exact Hat | exact Hk].
      intros y ly Hyt Hy. exists ly. split; [| reflexivity].
      rewrite Hother by assumption. exact Hy.
    + intros a la Ha. destruct (Hlive a la Ha) as [Hat Ha0].
      destruct (lin_top h Hlin a la Ha0) as (k & Hk). exists k.
      apply (topsAfter_mono (fun y => y <> this) h); [exact Hclosed_resp | | exact Hat | exact Hk].
      intros y ly Hyt Hy. exists ly. split; [| reflexivity].
      rewrite Hother by assumption. exact Hy.
Qed.

Lemma run_Linear (ops : list Op) :
  forall h, Linear h -> runAdmissible h ops = true ->
    exists h', run h ops = Some h' /\ Linear h'.
Proof.
  induction ops as [| op ops IH]; intros h Hinv Hadm; cbn in Hadm |- *.
  - exists h. split; [reflexivity | exact Hinv].
  - apply andb_true_iff in Hadm as [Hop Hrest].
    assert (Hstep : exists h1, step h op = Some h1 /\ Linear h1).
    { destruct op as [this tryNext | this]; cbn [step].
      - apply construct_Linear; assumption.
      - apply destroy_Linear; assumption. }
    destruct Hstep as (h1 & Hstep & Hinv1).
    rewrite Hstep in Hrest |- *. apply IH; assumption.
Qed.

Lemma forwarded_more (h : Heap) (fuel : nat) : forall this p d,
  forwarded fuel h this = Some p -> forwarded (fuel + d) h this = Some p.
Proof.
  induction fuel as [| fuel IH]; intros this p d H; cbn in H |- *; [discriminate |].
  destruct (h !! this) as [l |]; [| discriminate].
  destruct (mNext l) as [n |]; [| exact H].
  destruct (forwarded fuel h n) as [p' |] eqn:E; [| discriminate].
  rewrite (IH n p' d E). exact H.
Qed.

Lemma populateParentCaches_top (h : Heap) (k : nat) (this : nat) :
  topsAfter h k this ->
  exists above, length above = k /\
    forall fuel, populateParentCaches (k + fuel) h this = Some above.
Proof.
  intros Htop. unfold populateParentCaches.
  destruct k as [| k]; cbn in Htop;
    destruct (h !! this) as [l |]; try contradiction;
    destruct (mRespondTo l) as [r |]; try contradiction.
  - exists []. split; reflexivity.
  - destruct (populateCache_top h k r 0 Htop) as (above & Hp & Hlen).
    exists (r :: above). split; [cbn; congruence |]. intros fuel.
    replace (S k + fuel) with (S k + 0 + fuel) by lia.
    apply populateCache_more. exact Hp.
Qed.

(** Three tiers built back to front. *)
Definition threeTierHeap : Heap :=
  <[20 := mkLayer (Some 10) (Some 30)]>
    (<[10 := mkLayer None (Some 20)]>
       (<[30 := mkLayer (Some 20) None]>
          (<[20 := mkLayer None (Some 30)]>
             (<[30 := mkLayer None None]> ∅)))).

Definition threeTierOps : list Op :=
  [Construct 30 None; Construct 20 (Some 30); Construct 10 (Some 20)].

Lemma threeTierOps_run : run ∅ threeTierOps = Some threeTierHeap.
Proof. vm_compute. reflexivity. Qed.

(** In the chains of a program that keeps them linear, a request made to
    any live layer of the base class comes back: it is passed from tier to
    tier to the last one, which calls the callback once, with NULL, and
    [getData] returns [false]. *)
Theorem getData_on_chain {URI Range SparseData : Type} (ops : list Op) (h : Heap)
    (this : nat) (l : Layer) (uri : URI) (range : Range) :
  runAdmissible ∅ ops = true -> run ∅ ops = Some h -> h !! this = Some l ->
  exists k path e,
    endsAfter h k this /\
    forall fuel,
      forwarded (S k + fuel) h this = Some (path ++ [e]) /\
      getData (SparseData := SparseData) (S k + fuel) h this uri range
        = Some (false, [None]).
Proof.
  intros Hadm Hrun Hl.
  destruct (run_Linear ops ∅ Linear_empty Hadm) as (h' & Hrun' & Hlin).
  rewrite Hrun in Hrun'. injection Hrun' as <-.
  destruct (lin_end h Hlin this l Hl) as (k & Hk).
  destruct (forwarded_chain_end h k this 0 Hk) as (path & e & Hf & _).
  exists k, path, e. split; [exact Hk |]. intros fuel.
  assert (Hf' : forwarded (S k + fuel) h this = Some (path ++ [e])).
  { replace (S k + fuel) with (S k + 0 + fuel) by lia. apply forwarded_more. exact Hf. }
  split; [exact Hf' |].
  rewrite forwarded_getData, Hf'. reflexivity.
Qed.

Lemma getData_on_chain_witness :
  exists k path e, forall fuel,
    forwarded (S k + fuel) threeTierHeap 10 = Some (path ++ [e]) /\
    getData (SparseData := nat) (S k + fuel) threeTierHeap 10 tt tt = Some (false, [None]).
Proof.
  destruct (getData_on_chain (SparseData := nat) threeTierOps threeTierHeap 10
              (mkLayer None (Some 20)) tt tt) as (k & path & e & _ & H).
  - vm_compute. reflexivity.
  - exact threeTierOps_run.
  - vm_compute. reflexivity.
  - exists k, path, e. exact H.
Defined.

(** In such chains the layer at the end of the request path, when it calls
    [populateParentCaches], reaches every layer the request was passed
    through, nearest first and the layer the request was made to last of
    them, and then the layers in front of that one. *)
Theorem populate_covers_request_path (ops : list Op) (h : Heap) (this : nat) (l : Layer) :
  runAdmissible ∅ ops = true -> run ∅ ops = Some h -> h !! this = Some l ->
  exists path e above fuel0,
    hd e path = this /\
    forall fuel,
      forwarded (fuel0 + fuel) h this = Some (path ++ [e]) /\
      populateParentCaches (fuel0 + fuel) h this = Some above /\
      populateParentCaches (fuel0 + fuel) h e = Some (rev path ++ above).
Proof.
  intros Hadm Hrun Hl.
  destruct (run_Linear ops ∅ Linear_empty Hadm) as (h' & Hrun' & Hlin).
  rewrite Hrun in Hrun'. injection Hrun' as <-.
  destruct (lin_end h Hlin this l Hl) as (k & Hk).
  destruct (lin_top h Hlin this l Hl) as (k2 & Hk2).
  destruct (forwarded_chain_end h k this 0 Hk) as (path & e & Hf & Hlen & _ & Hhd).
  destruct (populateParentCaches_top h k2 this Hk2) as (above & _ & Hab).
  exists path, e, above, (S k + k2). split; [exact Hhd |]. intros fuel.
  split; [| split].
  - replace (S k + k2 + fuel) with (S k + 0 + (k2 + fuel)) by lia.
    apply forwarded_more. exact Hf.
  - replace (S k + k2 + fuel) with (k2 + (S k + fuel)) by lia. apply Hab.
  - pose proof (populate_reverses_path h (S k + 0) (lin_back h Hlin) this path e above
                  (k2 + 0) Hf (Hab 0)) as Hrev.
    replace (S k + k2 + fuel) with (k2 + 0 + length path + (1 + fuel)) by lia.
    apply populateParentCaches_more. exact Hrev.
Qed.

Lemma populate_covers_request_path_witness :
  exists path e above fuel0,
    hd e path = 20 /\
    forall fuel,
      forwarded (fuel0 + fuel) threeTierHeap 20 = Some (path ++ [e]) /\
      populateParentCaches (fuel0 + fuel) threeTierHeap 20 = Some above /\
      populateParentCaches (fuel0 + fuel) threeTierHeap e = Some (rev path ++ above).
Proof.
  apply (populate_covers_request_path threeTierOps threeTierHeap 20
           (mkLayer (Some 10) (Some 30))).
  - vm_compute. reflexivity.
  - exact threeTierOps_run.
  - vm_compute. reflexivity.
Defined.

(** In such chains the responder of a tier is null exactly when no live
    layer has the tier as its next one, and is otherwise the one live
    layer that has: no tier is the next tier of two layers, and no
    responder dangles. *)
Theorem responder_is_the_layer_in_front (ops : list Op) (h : Heap) (x : nat) (lx : Layer) :
  runAdmissible ∅ ops = true -> run ∅ ops = Some h -> h !! x = Some lx ->
  (mRespondTo lx = None <-> forall a la, h !! a = Some la -> mNext la <> Some x) /\
  (forall y, mRespondTo lx = Some y <->
     exists ly, h !! y = Some ly /\ mNext ly = Some x) /\
  (forall a la a' la', h !! a = Some la -> mNext la = Some x ->
     h !! a' = Some la' -> mNext la' = Some x -> a = a').
Proof.
  intros Hadm Hrun Hx.
  destruct (run_Linear ops ∅ Linear_empty Hadm) as (h' & Hrun' & Hlin).
  rewrite Hrun in Hrun'. injection Hrun' as <-.
  pose proof (lin_back h Hlin) as Hback. pose proof (lin_resp h Hlin) as Hresp.
  assert (Hfront : forall a la, h !! a = Some la -> mNext la = Some x ->
            mRespondTo lx = Some a).
  { intros a la Ha Hn. destruct (Hback a la x Ha Hn) as (lx' & Hx' & Hr). congruence. }
  split; [| split].
  - split.
    + intros Hnone a la Ha Hn. rewrite (Hfront a la Ha Hn) in Hnone. discriminate.
    + intros Hun. exact (unlinked_no_responder h x lx Hresp Hun Hx).
  - intros y. split.
    + intros Hy. exact (Hresp x lx y Hx Hy).
    + intros (ly & Hy & Hn). exact (Hfront y ly Hy Hn).
  - intros a la a' la' Ha Hn Ha' Hn'.
    pose proof (Hfront a la Ha Hn). pose proof (Hfront a' la' Ha' Hn'). congruence.
Qed.

Lemma responder_is_the_layer_in_front_witness :
  exists ly, threeTierHeap !! 10 = Some ly /\ mNext ly = Some 20.
Proof.
  destruct (responder_is_the_layer_in_front threeTierOps threeTierHeap 20
              (mkLayer (Some 10) (Some 30))) as (_ & H & _).
  - vm_compute. reflexivity.
  - exact threeTierOps_run.
  - vm_compute. reflexivity.
  - apply (proj1 (H 10)). reflexivity.
Defined.

(** The destructor resets the responder of the next tier and nothing else:
    a layer that has the destroyed tier as its next one keeps the pointer,
    and a request made to it afterwards goes through the dangling
    pointer. *)
Theorem destroy_leaves_next_dangling {URI Range SparseData : Type} (h h' : Heap)
    (a b : nat) (la : Layer) (fuel : nat) (uri : URI) (range : Range) :
  h !! a = Some la -> mNext la = Some b -> a <> b -> destroy h b = Some h' ->
  h' !! b = None /\
  (exists la', h' !! a = Some la' /\ mNext la' = Some b) /\
  getData (SparseData := SparseData) fuel h' a uri range = None.
Proof.
  intros Ha Hn Hab Hd.
  assert (H : h' !! b = None /\ exists la', h' !! a = Some la' /\ mNext la' = Some b).
  { unfold destroy in Hd. destruct (h !! b) as [lb |] eqn:Hb; [| discriminate].
    destruct (mNext lb) as [c |] eqn:Hc.
    - unfold setResponder in Hd. destruct (h !! c) as [lc |] eqn:Hlc; [| discriminate].
      injection Hd as <-. split; [apply lookup_delete_eq |].
      rewrite lookup_delete_ne by congruence.
      destruct (decide (a = c)) as [-> | Hac].
      + rewrite lookup_insert_eq. eexists. split; [reflexivity |]. cbn. congruence.
      + rewrite lookup_insert_ne by congruence. exists la. split; assumption.
    - injection Hd as <-. split; [apply lookup_delete_eq |].
      rewrite lookup_delete_ne by congruence. exists la. split; assumption. }
  destruct H as (Hb' & la' & Ha' & Hn'). split; [exact Hb' |].
  split; [exists la'; split; assumption |].
  destruct fuel as [| fuel]; cbn; [reflexivity |]. rewrite Ha', Hn'.
  destruct fuel as [| fuel]; cbn; [reflexivity |]. rewrite Hb'. reflexivity.
Qed.

Lemma destroy_leaves_next_dangling_witness :
  exists h', destroy threeTierHeap 20 = Some h' /\
    getData (SparseData := nat) 5 h' 10 tt tt = None.
Proof.
  destruct (destroy threeTierHeap 20) as [h' |] eqn:Hd; [| vm_compute in Hd; discriminate].
  exists h'. split; [reflexivity |].
  exact (proj2 (proj2 (destroy_leaves_next_dangling (SparseData := nat) threeTierHeap h'
           10 20 (mkLayer None (Some 20)) 5 tt tt eq_refl eq_refl ltac:(lia) Hd))).
Defined.

End CacheLayer.

(** ** EventManager.hpp *)

Module EventManager.

(** [enum EventOrder { EARLY, MIDDLE, LATE, NUM_EVENTORDER }] *)
Inductive EventOrder := EARLY | MIDDLE | LATE.

#[global] Instance EventOrder_eq_dec : EqDecision EventOrder.
Proof. solve_decision. Defined.

(** The enumerator after the last order: the number of orders. *)
Definition NUM_EVENTORDER : nat := 3.

(** The orders in the sequence of their enumerators. *)
Definition allOrders : list EventOrder := [EARLY; MIDDLE; LATE].

(** [class EventResponse]: the four values of [mResp]. *)
Inductive EventResponse := nop | del | cancel | cancelAndDel.

(** [DELETE_LISTENER=1], [CANCEL_EVENT=2]; NOP is 0 and
    DELETE_LISTENER_AND_CANCEL_EVENT their bitwise or. *)
Definition DELETE_LISTENER : Z := 1.
Definition CANCEL_EVENT : Z := 2.

Definition mResp (r : EventResponse) : Z :=
  match r with
  | nop => 0
  | del => DELETE_LISTENER
  | cancel => CANCEL_EVENT
  | cancelAndDel => Z.lor DELETE_LISTENER CANCEL_EVENT
  end.

(** The response has the CANCEL_EVENT (DELETE_LISTENER) bit set. *)
Definition cancelsEvent (r : EventResponse) : bool :=
  negb (Z.land (mResp r) CANCEL_EVENT =? 0)%Z.

Definition deletesListener (r : EventResponse) : bool :=
  negb (Z.land (mResp r) DELETE_LISTENER =? 0)%Z.

(** Modelled from the spec: Event.hpp is not among the sources.  An event
    is an immutable record with an [IdPair] key, a primary tag (the event
    family) and a secondary tag (the subject); the rest of it is an opaque
    payload. *)
Record IdPair := mkIdPair { mPriId : nat; mSecId : nat }.

Record Event := mkEvent { getId : IdPair; payload : nat }.

#[global] Instance IdPair_eq_dec : EqDecision IdPair.
Proof. solve_decision. Defined.

(** Modelled from the spec: Subscription.hpp is not among the sources.  A
    [SubscriptionId] is an opaque identifier, explicitly supplied or null;
    [None] is [SubscriptionId::null()]. *)
Definition SubscriptionId := option nat.

(** [ListenerSubscriptionInfo], a node of a [std::list]: the listener (a
    [boost::function], here the name of the handler it is bound to) and
    its [SubscriptionId].  [node] is the identity of the list node, which
    an iterator designates. *)
Record ListenerSubscriptionInfo := mkInfo {
  node : nat;
  listener : nat;
  subId : SubscriptionId
}.

#[global] Instance ListenerSubscriptionInfo_eq_dec : EqDecision ListenerSubscriptionInfo.
Proof. solve_decision. Defined.

Abbreviation ListenerList := (list ListenerSubscriptionInfo).

(** [class PartiallyOrderedListenerList { ListenerList ll [NUM_EVENTORDER]; }] *)
Definition PartiallyOrderedListenerList := EventOrder -> ListenerList.

Definition emptyLists : PartiallyOrderedListenerList := fun _ => [].

Definition setOrder (p : PartiallyOrderedListenerList) (w : EventOrder)
    (l : ListenerList) : PartiallyOrderedListenerList :=
  fun w' => if decide (w = w') then l else p w'.

(** A listener list is reached either by a primary id alone (generic
    listeners) or by an [IdPair] (specific listeners). *)
Inductive Bucket :=
| Generic (pri : nat)
| Specific (pri sec : nat).

#[global] Instance Bucket_eq_dec : EqDecision Bucket.
Proof. solve_decision. Defined.

(** [PrimaryListenerMap]: [std::map<Primary, std::pair<PartiallyOrderedListenerList,
    SecondaryListenerMap>>]. *)
Abbreviation SecondaryListenerMap := (gmap nat PartiallyOrderedListenerList).
Abbreviation PrimaryListenerMap :=
  (gmap nat (PartiallyOrderedListenerList * gmap nat PartiallyOrderedListenerList)).

(** The element of the map at [pri]; one that is not there has no
    listeners. *)
Definition primaryInfo (m : PrimaryListenerMap) (pri : nat)
    : PartiallyOrderedListenerList * SecondaryListenerMap :=
  default (emptyLists, ∅) (m !! pri).

(** The listener list of bucket [b] and order [w]. *)
Definition getList (m : PrimaryListenerMap) (b : Bucket) (w : EventOrder) : ListenerList :=
  match b with
  | Generic pri => (primaryInfo m pri).1 w
  | Specific pri sec => default emptyLists ((primaryInfo m pri).2 !! sec) w
  end.

(** Modelled from the spec: [insertPriId] and [insertSecId] are declared
    in the header, their bodies are not among the sources.  [l] is stored
    as the list of bucket [b] and order [w]; the map elements on the way
    are created if they are not there. *)
Definition setList (m : PrimaryListenerMap) (b : Bucket) (w : EventOrder)
    (l : ListenerList) : PrimaryListenerMap :=
  match b with
  | Generic pri =>
      let info := primaryInfo m pri in
      <[pri := (setOrder info.1 w l, info.2)]> m
  | Specific pri sec =>
      let info := primaryInfo m pri in
      <[pri := (info.1,
                <[sec := setOrder (default emptyLists (info.2 !! sec)) w l]> info.2)]> m
  end.

Definition noItems (p : PartiallyOrderedListenerList) : bool :=
  forallb (fun w => match p w with [] => true | _ => false end) allOrders.

(** Modelled from the spec: the two [cleanUp] overloads are declared in
    the header, their bodies are not among the sources; from the comment
    on them: remove the map element if it has no items left. *)
Definition cleanUpSec (m : PrimaryListenerMap) (pri sec : nat) : PrimaryListenerMap :=
  match m !! pri with
  | Some (g, slm) =>
      match slm !! sec with
      | Some p => if noItems p then <[pri := (g, delete sec slm)]> m else m
      | None => m
      end
  | None => m
  end.

Definition cleanUpPri (m : PrimaryListenerMap) (pri : nat) : PrimaryListenerMap :=
  match m !! pri with
  | Some (g, slm) =>
      if noItems g && bool_decide (size slm = 0) then delete pri m else m
  | None => m
  end.

Definition cleanUp (m : PrimaryListenerMap) (b : Bucket) : PrimaryListenerMap :=
  match b with
  | Generic pri => cleanUpPri m pri
  | Specific pri sec => cleanUpPri (cleanUpSec m pri sec) pri
  end.

(** [EventSubscriptionInfo]: the list ([mList]) and the node in it
    ([mIter]) that a [SubscriptionId] stands for. *)
Record EventSubscriptionInfo := mkSub {
  mListBucket : Bucket;
  mListOrder : EventOrder;
  mIter : nat
}.

(** What a listener may call on the manager while it handles an event:
    the public member functions, the processing of the queue among them
    (a nested dispatch). *)
Inductive Action :=
| ActSubscribe (b : Bucket) (l : nat) (removeId : SubscriptionId) (when : EventOrder)
| ActUnsubscribe (removeId : SubscriptionId)
| ActFire (ev : Event)
| ActProcess (budget : nat).

(** Modelled from the spec: an operation put off until the event in
    progress is complete (spec 4.4: subscriptions and unsubscriptions made
    from within a listener, and the removal that DELETE_LISTENER
    schedules). *)
Inductive Deferred :=
| DefSubscribe (b : Bucket) (l : nat) (removeId : SubscriptionId) (when : EventOrder)
| DefUnsubscribe (removeId : SubscriptionId)
| DefErase (b : Bucket) (w : EventOrder) (n : nat).

(** Modelled from the spec: the member functions of [EventManager] are
    declared in the header but their bodies are not among the sources.  The
    fields are those of the header; [mDeferred] takes the place of
    [mUnsubscribeList] and holds, in call order, every subscription,
    unsubscription and listener removal put off during a dispatch (spec
    4.4, re-entrancy discipline: both are deferred and applied after the
    currently processing event completes); [mNextNode] is the identity the
    next allocated list node gets. *)
Record Manager := mkManager {
  mListeners : PrimaryListenerMap;
  mUnprocessed : list Event;
  mRemoveById : gmap nat EventSubscriptionInfo;
  mProcessing : bool;
  mDeferred : list Deferred;
  mNextNode : nat
}.

(** A manager just constructed: no listeners, no events. *)
Definition emptyManager : Manager := mkManager ∅ [] ∅ false [] 0.

(** The list without the node [n] ([std::list::erase] on its iterator). *)
Definition eraseNode (l : ListenerList) (n : nat) : ListenerList :=
  filter (fun e => node e <> n) l.

Definition findNode (l : ListenerList) (n : nat) : option ListenerSubscriptionInfo :=
  List.find (fun e => bool_decide (node e = n)) l.

(** Modelled from the spec: the body of [unsubscribe] when no event is in
    progress.  The id is looked up in [mRemoveById]; if found, the node it
    stands for is erased from its list, the id leaves [mRemoveById] (kept
    in sync) and empty map elements are cleaned up. *)
Definition unsubscribeNow (st : Manager) (removeId : SubscriptionId) : Manager :=
  match removeId with
  | None => st
  | Some r =>
      match mRemoveById st !! r with
      | None => st
      | Some sub =>
          let b := mListBucket sub in
          let w := mListOrder sub in
          let l := eraseNode (getList (mListeners st) b w) (mIter sub) in
          mkManager (cleanUp (setList (mListeners st) b w l) b) (mUnprocessed st)
            (delete r (mRemoveById st)) (mProcessing st) (mDeferred st) (mNextNode st)
      end
  end.

(** Modelled from the spec: the body of the four [subscribe] overloads when
    no event is in progress ([removeId] is null for the two without an id,
    [b] tells the generic from the specific ones).  A prior holder of the
    id is unsubscribed first (spec 4.4, named subscription replacement),
    then the listener is appended to the list of its bucket and order and
    the id is recorded in [mRemoveById]. *)
Definition subscribeNow (st : Manager) (b : Bucket) (l : nat)
    (removeId : SubscriptionId) (when : EventOrder) : Manager :=
  let st1 := unsubscribeNow st removeId in
  let n := mNextNode st1 in
  let lst := getList (mListeners st1) b when ++ [mkInfo n l removeId] in
  mkManager (setList (mListeners st1) b when lst) (mUnprocessed st1)
    (match removeId with
     | Some r => <[r := mkSub b when n]> (mRemoveById st1)
     | None => mRemoveById st1
     end)
    (mProcessing st1) (mDeferred st1) (S n).

(** Modelled from the spec: the removal that a DELETE_LISTENER response
    schedules.  The node is erased from its list if it is still there, and
    its id, if it has one, leaves [mRemoveById]. *)
Definition eraseNow (st : Manager) (b : Bucket) (w : EventOrder) (n : nat) : Manager :=
  let old := getList (mListeners st) b w in
  match findNode old n with
  | None => st
  | Some e =>
      mkManager (cleanUp (setList (mListeners st) b w (eraseNode old n)) b)
        (mUnprocessed st)
        (match subId e with
         | Some r => delete r (mRemoveById st)
         | None => mRemoveById st
         end)
        (mProcessing st) (mDeferred st) (mNextNode st)
  end.

(** Modelled from the spec: a deferred operation is applied as the
    operation itself. *)
Definition applyDeferred (st : Manager) (d : Deferred) : Manager :=
  match d with
  | DefSubscribe b l removeId when => subscribeNow st b l removeId when
  | DefUnsubscribe removeId => unsubscribeNow st removeId
  | DefErase b w n => eraseNow st b w n
  end.

(** Modelled from the spec: an operation is put off by appending it to
    the deferred operations. *)
Definition defer (st : Manager) (d : Deferred) : Manager :=
  mkManager (mListeners st) (mUnprocessed st) (mRemoveById st) (mProcessing st)
    (mDeferred st ++ [d]) (mNextNode st).

(** Modelled from the spec: [subscribe] (bodies not among the sources).
    While an event is being processed the subscription is deferred: not
    visible to the current event, visible to the next. *)
Definition subscribe (st : Manager) (b : Bucket) (l : nat)
    (removeId : SubscriptionId) (when : EventOrder) : Manager :=
  if mProcessing st then defer st (DefSubscribe b l removeId when)
  else subscribeNow st b l removeId when.

(** Modelled from the spec: [unsubscribe] (body not among the sources).
    While an event is being processed ([mProcessing]: we are not allowed to
    immediately remove listeners) the removal is deferred. *)
Definition unsubscribe (st : Manager) (removeId : SubscriptionId) : Manager :=
  if mProcessing st then defer st (DefUnsubscribe removeId)
  else unsubscribeNow st removeId.

(** Modelled from the spec: [fire] (body not among the sources) appends the
    event to the unprocessed queue. *)
Definition fire (st : Manager) (ev : Event) : Manager :=
  mkManager (mListeners st) (mUnprocessed st ++ [ev]) (mRemoveById st)
    (mProcessing st) (mDeferred st) (mNextNode st).

(** One call of a listener, as the dispatcher sees it; [invLevel] is the
    nesting depth of the dispatch that made the call (0 for a dispatch
    that is not nested in another). *)
Record Invocation := mkInvocation {
  invLevel : nat;
  invEntry : ListenerSubscriptionInfo;
  invEvent : Event;
  invResp : EventResponse
}.

Definition setProcessing (st : Manager) (p : bool) : Manager :=
  mkManager (mListeners st) (mUnprocessed st) (mRemoveById st) p
    (mDeferred st) (mNextNode st).

(** Modelled from the spec: the deferred operations are applied, in the
    order they were made, once the event is complete and no dispatch is on
    the stack. *)
Definition applyDeferredAll (st : Manager) : Manager :=
  fold_left applyDeferred (mDeferred st)
    (mkManager (mListeners st) (mUnprocessed st) (mRemoveById st) false []
       (mNextNode st)).

Section Dispatch.

(** The listeners of the program.  A listener is called with an event; it
    may call back into the manager and returns an [EventResponse], or
    raises ([None]).  What it does may depend on every call made so far. *)
Variable handler : list Invocation -> nat -> Event -> list Action * option EventResponse.

Section Level.

(** The processing of the queue as a listener of this dispatch may call
    it, and the nesting depth of this dispatch. *)
Variable nested : nat -> list Invocation -> Manager -> list Invocation * Manager.
Variable depth : nat.

(** Modelled from the spec: a call from within a listener. *)
Definition perform (s : list Invocation * Manager) (a : Action)
    : list Invocation * Manager :=
  match a with
  | ActSubscribe b l removeId when => (s.1, subscribe s.2 b l removeId when)
  | ActUnsubscribe removeId => (s.1, unsubscribe s.2 removeId)
  | ActFire ev => (s.1, fire s.2 ev)
  | ActProcess budget => nested budget s.1 s.2
  end.

(** Modelled from the spec: [bool fireAll(EventPtr ev, ListenerList &lili,
    AbsTime forceCompletionBy)] (body not among the sources).  The
    listeners of one list are called in list order.  A listener that raises
    counts as NOP; DELETE_LISTENER schedules the removal of the listener;
    CANCEL_EVENT stops the delivery.  The result tells whether the event
    was cancelled.  Time is not modelled: the deadline only bounds the
    number of events drained (see [temporary_processEventQueue]). *)
Fixpoint fireAll (tr : list Invocation) (st : Manager) (ev : Event)
    (b : Bucket) (w : EventOrder) (lili : ListenerList)
    : list Invocation * Manager * bool :=
  match lili with
  | [] => (tr, st, false)
  | e :: rest =>
      let '(acts, outcome) := handler tr (listener e) ev in
      let '(tr0, st1) := fold_left perform acts (tr, st) in
      let resp := default nop outcome in
      let tr1 := tr0 ++ [mkInvocation depth e ev resp] in
      let st2 := if deletesListener resp then defer st1 (DefErase b w (node e)) else st1 in
      if cancelsEvent resp then (tr1, st2, true)
      else fireAll tr1 st2 ev b w rest
  end.

(** Modelled from the spec: one band of the dispatch of [ev]: the specific
    listeners at its [IdPair], then the generic listeners at its primary
    id.  Each list is read from the manager when its turn comes. *)
Definition fireOrder (tr : list Invocation) (st : Manager) (ev : Event)
    (w : EventOrder) : list Invocation * Manager * bool :=
  let pri := mPriId (getId ev) in
  let sec := mSecId (getId ev) in
  let '(tr1, st1, cancelled) :=
    fireAll tr st ev (Specific pri sec) w (getList (mListeners st) (Specific pri sec) w) in
  if cancelled then (tr1, st1, true)
  else fireAll tr1 st1 ev (Generic pri) w (getList (mListeners st1) (Generic pri) w).

(** Modelled from the spec: the bands in the order of [orders]. *)
Fixpoint fireOrders (tr : list Invocation) (st : Manager) (ev : Event)
    (orders : list EventOrder) : list Invocation * Manager * bool :=
  match orders with
  | [] => (tr, st, false)
  | w :: rest =>
      let '(tr1, st1, cancelled) := fireOrder tr st ev w in
      if cancelled then (tr1, st1, true)
      else fireOrders tr1 st1 ev rest
  end.

(** Modelled from the spec: the dispatch of one event (the loop body of
    [temporary_processEventQueue], not among the sources): the bands in the
    order EARLY, MIDDLE, LATE with [mProcessing] set; then, unless this
    dispatch is nested in another ([mProcessing] was set already), the
    deferred operations. *)
Definition processEvent (tr : list Invocation) (st : Manager) (ev : Event)
    : list Invocation * Manager :=
  let '(tr1, st1, _) := fireOrders tr (setProcessing st true) ev allOrders in
  (tr1, if mProcessing st then st1 else applyDeferredAll st1).

(** Modelled from the spec: [temporary_processEventQueue(AbsTime
    forceCompletionBy)] (body not among the sources) drains the unprocessed
    queue first in, first out, until the deadline is reached or the queue
    is empty; [budget] is the number of events the deadline leaves time
    for. *)
Fixpoint temporary_processEventQueue (budget : nat) (tr : list Invocation)
    (st : Manager) : list Invocation * Manager :=
  match budget with
  | O => (tr, st)
  | S budget' =>
      match mUnprocessed st with
      | [] => (tr, st)
      | ev :: queue =>
          let st0 := mkManager (mListeners st) queue (mRemoveById st)
                       (mProcessing st) (mDeferred st) (mNextNode st) in
          let '(tr1, st1) := processEvent tr st0 ev in
          temporary_processEventQueue budget' tr1 st1
      end
  end.

End Level.

(** Modelled from the spec: the processing of the queue at nesting depth
    [depth]; the listeners it calls may themselves process the queue, one
    level deeper.  [fuel] bounds the nesting: at [fuel] 0 the call returns
    at once. *)
Fixpoint processAt (fuel depth : nat) {struct fuel}
    : nat -> list Invocation -> Manager -> list Invocation * Manager :=
  match fuel with
  | O => fun _ tr st => (tr, st)
  | S fuel' => temporary_processEventQueue (processAt fuel' (S depth)) depth
  end.

(** The calls a program makes on the manager from outside any listener. *)
Inductive Op :=
| OpSubscribe (b : Bucket) (l : nat) (removeId : SubscriptionId) (when : EventOrder)
| OpUnsubscribe (removeId : SubscriptionId)
| OpFire (ev : Event)
| OpProcess (budget : nat).

(** One call, on the trace and the manager; [fuel] bounds the nesting of
    dispatches below the one the call starts. *)
Definition step (fuel : nat) (s : list Invocation * Manager) (op : Op)
    : list Invocation * Manager :=
  match op with
  | OpSubscribe b l removeId when => (s.1, subscribe s.2 b l removeId when)
  | OpUnsubscribe removeId => (s.1, unsubscribe s.2 removeId)
  | OpFire ev => (s.1, fire s.2 ev)
  | OpProcess budget => processAt (S fuel) 0 budget s.1 s.2
  end.

Definition run (fuel : nat) (s : list Invocation * Manager) (ops : list Op)
    : list Invocation * Manager :=
  fold_left (step fuel) ops s.

End Dispatch.

(** The order in which the listeners of state [m] are due for an event with
    key [id]: for EARLY, MIDDLE, LATE in turn, the specific listeners at
    [id] and then the generic listeners at its primary id, each list in
    insertion order. *)
Definition dispatchOrder (m : PrimaryListenerMap) (id : IdPair) : ListenerList :=
  getList m (Specific (mPriId id) (mSecId id)) EARLY ++ getList m (Generic (mPriId id)) EARLY ++
  getList m (Specific (mPriId id) (mSecId id)) MIDDLE ++ getList m (Generic (mPriId id)) MIDDLE ++
  getList m (Specific (mPriId id) (mSecId id)) LATE ++ getList m (Generic (mPriId id)) LATE.

(** The calls of [tr] made by a dispatch at nesting depth [d]. *)
Definition atLevel (d : nat) (tr : list Invocation) : list Invocation :=
  filter (fun i => invLevel i = d) tr.

(** Scenario S3: L1 (EARLY), L2 (MIDDLE), L3 (MIDDLE) at (1,7); the handler
    of L2 unsubscribes L3 and subscribes L4 at MIDDLE. *)
Definition s3_handler (_ : list Invocation) (l : nat) (_ : Event)
    : list Action * option EventResponse :=
  if Nat.eqb l 2
  then ([ActUnsubscribe (Some 3); ActSubscribe (Specific 1 7) 4 (Some 4) MIDDLE], Some nop)
  else ([], Some nop).

Definition s3_setup : list Op :=
  [OpSubscribe (Specific 1 7) 1 (Some 1) EARLY;
   OpSubscribe (Specific 1 7) 2 (Some 2) MIDDLE;
   OpSubscribe (Specific 1 7) 3 (Some 3) MIDDLE;
   OpFire (mkEvent (mkIdPair 1 7) 100)].

Definition s3_ops : list Op :=
  s3_setup ++ [OpProcess 1; OpFire (mkEvent (mkIdPair 1 7) 200); OpProcess 1].

Example s3_deliveries :
  map (fun i => (listener (invEntry i), payload (invEvent i)))
      (run s3_handler 0 ([], emptyManager) s3_ops).1
  = [(1, 100); (2, 100); (3, 100); (1, 200); (2, 200); (4, 200)].
Proof. vm_compute. reflexivity. Qed.

(** A nested dispatch: L1 and L3 listen at (1,7), L2 to every event of
    primary id 2.  On an event L1 subscribes L4 next to L2, fires an
    event (2,0) and processes the queue.  The event (2,0) reaches L2 while
    the event (1,7) is still being delivered, and does not reach L4, whose
    subscription waits for the outer dispatch to complete. *)
Definition nested_handler (_ : list Invocation) (l : nat) (_ : Event)
    : list Action * option EventResponse :=
  if Nat.eqb l 1
  then ([ActSubscribe (Generic 2) 4 None MIDDLE;
         ActFire (mkEvent (mkIdPair 2 0) 300); ActProcess 1], Some nop)
  else ([], Some nop).

Definition nested_ops : list Op :=
  [OpSubscribe (Specific 1 7) 1 None EARLY;
   OpSubscribe (Specific 1 7) 3 None LATE;
   OpSubscribe (Generic 2) 2 None MIDDLE;
   OpFire (mkEvent (mkIdPair 1 7) 100); OpProcess 1;
   OpFire (mkEvent (mkIdPair 2 0) 400); OpProcess 1].

Example nested_deliveries :
  map (fun i => (invLevel i, listener (invEntry i), payload (invEvent i)))
      (run nested_handler 1 ([], emptyManager) nested_ops).1
  = [(1, 2, 300); (0, 1, 100); (0, 3, 100); (0, 2, 400); (0, 4, 400)].
Proof. vm_compute. reflexivity. Qed.

(** *** The listener map *)

Lemma noItems_spec (p : PartiallyOrderedListenerList) (w : EventOrder) :
  noItems p = true -> p w = [].
Proof.
  unfold noItems, allOrders. cbn. intros H.
  destruct (p EARLY) eqn:E1; [| discriminate].
  destruct (p MIDDLE) eqn:E2; [| discriminate].
  destruct (p LATE) eqn:E3; [| discriminate].
  destruct w; assumption.
Qed.

Lemma getList_setList (m : PrimaryListenerMap) (b b' : Bucket) (w w' : EventOrder)
    (l : ListenerList) :
  getList (setList m b w l) b' w' =
  if decide (b = b' /\ w = w') then l else getList m b' w'.
Proof.
  unfold getList, setList, primaryInfo.
  destruct b as [pri | pri sec], b' as [pri' | pri' sec'];
    (destruct (decide (pri = pri')) as [-> | Hp];
     [ rewrite lookup_insert_eq | rewrite lookup_insert_ne by congruence ]); cbn.
  - unfold setOrder. destruct (decide (w = w')) as [-> | Hw].
    + rewrite decide_True by (split; reflexivity). reflexivity.
    + rewrite decide_False by (intros [_ ?]; congruence). reflexivity.
  - rewrite decide_False by (intros [? _]; congruence). reflexivity.
  - rewrite decide_False by (intros [? _]; congruence). reflexivity.
  - rewrite decide_False by (intros [? _]; congruence). reflexivity.
  - rewrite decide_False by (intros [? _]; congruence). reflexivity.
  - rewrite decide_False by (intros [? _]; congruence). reflexivity.
  - destruct (decide (sec = sec')) as [-> | Hs].
    + rewrite lookup_insert_eq. cbn. unfold setOrder.
      destruct (decide (w = w')) as [-> | Hw].
      * rewrite decide_True by (split; reflexivity). reflexivity.
      * rewrite decide_False by (intros [_ ?]; congruence). reflexivity.
    + rewrite lookup_insert_ne by congruence.
      rewrite decide_False by (intros [? _]; congruence). reflexivity.
  - rewrite decide_False by (intros [? _]; congruence). reflexivity.
Qed.

Lemma getList_setList_eq (m : PrimaryListenerMap) (b : Bucket) (w : EventOrder)
    (l : ListenerList) :
  getList (setList m b w l) b w = l.
Proof. rewrite getList_setList. apply decide_True. split; reflexivity. Qed.

Lemma getList_setList_ne (m : PrimaryListenerMap) (b b' : Bucket) (w w' : EventOrder)
    (l : ListenerList) :
  (b, w) <> (b', w') -> getList (setList m b w l) b' w' = getList m b' w'.
Proof.
  intros Hne. rewrite getList_setList. apply decide_False.
  intros [-> ->]. apply Hne. reflexivity.
Qed.

Lemma getList_cleanUpSec (m : PrimaryListenerMap) (pri sec : nat) (b : Bucket)
    (w : EventOrder) :
  getList (cleanUpSec m pri sec) b w = getList m b w.
Proof.
  unfold cleanUpSec.
  destruct (m !! pri) as [[g slm] |] eqn:Hm; [| reflexivity].
  destruct (slm !! sec) as [p |] eqn:Hs; [| reflexivity].
  destruct (noItems p) eqn:Hp; [| reflexivity].
  unfold getList, primaryInfo. destruct b as [pri' | pri' sec'].
  - destruct (decide (pri = pri')) as [<- | Hne].
    + rewrite lookup_insert_eq, Hm. reflexivity.
    + rewrite lookup_insert_ne by congruence. reflexivity.
  - destruct (decide (pri = pri')) as [<- | Hne].
    + rewrite lookup_insert_eq, Hm. cbn.
      destruct (decide (sec = sec')) as [<- | Hne'].
      * rewrite lookup_delete_eq, Hs. cbn.
        symmetry. apply noItems_spec. exact Hp.
      * rewrite lookup_delete_ne by congruence. reflexivity.
    + rewrite lookup_insert_ne by congruence. reflexivity.
Qed.

Lemma getList_cleanUpPri (m : PrimaryListenerMap) (pri : nat) (b : Bucket)
    (w : EventOrder) :
  getList (cleanUpPri m pri) b w = getList m b w.
Proof.
  unfold cleanUpPri.
  destruct (m !! pri) as [[g slm] |] eqn:Hm; [| reflexivity].
  destruct (noItems g) eqn:Hg; [| reflexivity]. cbn.
  case_bool_decide as Hsz; [| reflexivity].
  apply map_size_empty_inv in Hsz. subst slm.
  unfold getList, primaryInfo. destruct b as [pri' | pri' sec'].
  - destruct (decide (pri = pri')) as [<- | Hne].
    + rewrite lookup_delete_eq, Hm. cbn. symmetry. apply noItems_spec. exact Hg.
    + rewrite lookup_delete_ne by congruence. reflexivity.
  - destruct (decide (pri = pri')) as [<- | Hne].
    + rewrite lookup_delete_eq, Hm. cbn. rewrite lookup_empty. reflexivity.
    + rewrite lookup_delete_ne by congruence. reflexivity.
Qed.

Lemma getList_cleanUp (m : PrimaryListenerMap) (b0 b : Bucket) (w : EventOrder) :
  getList (cleanUp m b0) b w = getList m b w.
Proof.
  destruct b0 as [pri | pri sec]; cbn [cleanUp].
  - apply getList_cleanUpPri.
  - rewrite getList_cleanUpPri. apply getList_cleanUpSec.
Qed.

(** *** Delivery of one event *)

(** [Delivered d ev order new cancelled]: the calls [new], made at depth
    [d], hand [ev] to the listeners of [order] from the first on, one call
    each, and stop after the first response with CANCEL_EVENT, if there is
    one. *)
Inductive Delivered (d : nat) (ev : Event) :
    ListenerList -> list Invocation -> bool -> Prop :=
| Delivered_nil : Delivered d ev [] [] false
| Delivered_cancel e rest r :
    cancelsEvent r = true ->
    Delivered d ev (e :: rest) [mkInvocation d e ev r] true
| Delivered_next e rest r new c :
    cancelsEvent r = false ->
    Delivered d ev rest new c ->
    Delivered d ev (e :: rest) (mkInvocation d e ev r :: new) c.

Lemma Delivered_app d ev o1 o2 n1 n2 c :
  Delivered d ev o1 n1 false -> Delivered d ev o2 n2 c ->
  Delivered d ev (o1 ++ o2) (n1 ++ n2) c.
Proof.
  intros H1. remember false as c1 eqn:Hc. induction H1; intros H2; cbn.
  - exact H2.
  - discriminate Hc.
  - constructor; [assumption |]. apply IHDelivered; assumption.
Qed.

Lemma Delivered_app_cancelled d ev o1 o2 n1 :
  Delivered d ev o1 n1 true -> Delivered d ev (o1 ++ o2) n1 true.
Proof.
  intros H1. remember true as c1 eqn:Hc. induction H1; cbn.
  - discriminate Hc.
  - constructor. assumption.
  - constructor; [assumption |]. apply IHDelivered. assumption.
Qed.

Lemma Delivered_prefix d ev order new c :
  Delivered d ev order new c -> map invEntry new = take (length new) order.
Proof.
  induction 1; cbn.
  - reflexivity.
  - destruct rest; reflexivity.
  - f_equal. assumption.
Qed.

Lemma Delivered_event d ev order new c (inv : Invocation) :
  Delivered d ev order new c -> inv ∈ new -> invEvent inv = ev.
Proof.
  induction 1; intros Hin.
  - apply elem_of_nil in Hin. contradiction.
  - apply list_elem_of_singleton in Hin. subst inv. reflexivity.
  - apply elem_of_cons in Hin as [-> | Hin]; [reflexivity | auto].
Qed.

Lemma Delivered_elem_of d ev order new c (inv : Invocation) :
  Delivered d ev order new c -> inv ∈ new -> invEntry inv ∈ order.
Proof.
  induction 1; intros Hin.
  - apply elem_of_nil in Hin. contradiction.
  - apply list_elem_of_singleton in Hin. subst inv. left.
  - apply elem_of_cons in Hin as [-> | Hin]; [left | right; auto].
Qed.

Lemma Delivered_level d ev order new c :
  Delivered d ev order new c -> atLevel d new = new.
Proof.
  unfold atLevel. induction 1.
  - reflexivity.
  - rewrite filter_cons_True by reflexivity. reflexivity.
  - rewrite filter_cons_True by reflexivity. f_equal. assumption.
Qed.

(** Only the last call may have cancelled the event. *)
Lemma Delivered_cancel_last d ev order new c (i : nat) (inv : Invocation) :
  Delivered d ev order new c -> new !! i = Some inv ->
  cancelsEvent (invResp inv) = true -> S i = length new.
Proof.
  intros H. revert i. induction H; intros i Hi Hc.
  - discriminate Hi.
  - destruct i as [| i]; [reflexivity | discriminate Hi].
  - destruct i as [| i]; cbn in Hi.
    + injection Hi as <-. cbn in Hc. congruence.
    + cbn. f_equal. apply IHDelivered; assumption.
Qed.

(** The delivery stops short of the end of the order only on a cancel. *)
Lemma Delivered_stops_on_cancel d ev order new c :
  Delivered d ev order new c -> length new < length order ->
  exists inv, last new = Some inv /\ cancelsEvent (invResp inv) = true.
Proof.
  induction 1; cbn; intros Hlen.
  - lia.
  - eexists. split; [reflexivity | assumption].
  - destruct IHDelivered as (inv & Hlast & Hc); [lia |].
    exists inv. split; [| exact Hc].
    destruct new; [discriminate Hlast | exact Hlast].
Qed.

(** A listener of the order is called unless a listener before it
    cancelled the event. *)
Lemma Delivered_reaches d ev order new c (i : nat) (e : ListenerSubscriptionInfo) :
  Delivered d ev order new c -> order !! i = Some e ->
  (forall j inv, j < i -> new !! j = Some inv -> cancelsEvent (invResp inv) = false) ->
  exists inv, new !! i = Some inv /\ invEntry inv = e.
Proof.
  intros H. revert i. induction H; intros i Hi Hprev.
  - discriminate Hi.
  - destruct i as [| i]; cbn in Hi.
    + injection Hi as <-. eexists. split; reflexivity.
    + specialize (Hprev 0 _ ltac:(lia) eq_refl). cbn in Hprev. congruence.
  - destruct i as [| i]; cbn in Hi.
    + injection Hi as <-. eexists. split; reflexivity.
    + apply IHDelivered; [exact Hi |].
      intros j inv Hj Hinv. apply (Hprev (S j) inv); [lia | exact Hinv].
Qed.

(** *** Listeners cannot touch the lists while an event is in progress *)

(** [Frozen st st']: an event is in progress and [st'] is [st] but for
    operations put off and the queue of events. *)
Definition Frozen (st st' : Manager) : Prop :=
  mProcessing st' = true /\
  mListeners st' = mListeners st /\
  mRemoveById st' = mRemoveById st /\
  mNextNode st' = mNextNode st /\
  exists ds, mDeferred st' = mDeferred st ++ ds.

Lemma Frozen_refl st : mProcessing st = true -> Frozen st st.
Proof.
  intros H. repeat (split; [first [exact H | reflexivity] |]).
  exists []. symmetry. apply app_nil_r.
Qed.

Lemma Frozen_trans st1 st2 st3 : Frozen st1 st2 -> Frozen st2 st3 -> Frozen st1 st3.
Proof.
  intros (_ & Hl & Hr & Hn & ds & Hd) (Hp' & Hl' & Hr' & Hn' & ds' & Hd').
  split; [exact Hp' |]. split; [congruence |]. split; [congruence |].
  split; [congruence |]. exists (ds ++ ds'). rewrite Hd', Hd. symmetry. apply app_assoc.
Qed.

Lemma defer_Frozen st d : mProcessing st = true -> Frozen st (defer st d).
Proof.
  intros H. unfold Frozen, defer; cbn.
  split; [exact H |]. do 3 (split; [reflexivity |]). exists [d]. reflexivity.
Qed.

(** Every call of [new] is on a listener of the lists of [st]. *)
Definition OnLists (st : Manager) (new : list Invocation) : Prop :=
  forall inv, inv ∈ new -> exists b w, invEntry inv ∈ getList (mListeners st) b w.

(** What a stretch of processing does from a state [st] in which an event
    is in progress, at depth [d] or deeper: it adds the calls [new] to the
    trace and leaves the lists as they are. *)
Definition Inner (d : nat) (tr : list Invocation) (st : Manager)
    (r : list Invocation * Manager) : Prop :=
  exists new,
    r.1 = tr ++ new /\ Frozen st r.2 /\
    (forall inv, inv ∈ new -> d <= invLevel inv) /\ OnLists st new.

Lemma Inner_refl d tr st : mProcessing st = true -> Inner d tr st (tr, st).
Proof.
  intros H. exists []. cbn. rewrite app_nil_r. split; [reflexivity |].
  split; [apply Frozen_refl; exact H |].
  split; intros inv Hin; apply elem_of_nil in Hin; contradiction.
Qed.

Lemma Inner_trans d tr st r1 r2 :
  Inner d tr st r1 -> Inner d r1.1 r1.2 r2 -> Inner d tr st r2.
Proof.
  intros (n1 & E1 & F1 & L1 & O1) (n2 & E2 & F2 & L2 & O2).
  exists (n1 ++ n2). rewrite E2, E1, app_assoc. split; [reflexivity |].
  split; [exact (Frozen_trans _ _ _ F1 F2) |].
  split; intros inv Hin; apply elem_of_app in Hin as [Hin | Hin]; auto.
  destruct F1 as (_ & Hl & _). destruct (O2 inv Hin) as (b & w & He).
  exists b, w. rewrite <- Hl. exact He.
Qed.

Lemma atLevel_deeper d (new : list Invocation) :
  (forall inv, inv ∈ new -> S d <= invLevel inv) -> atLevel d new = [].
Proof.
  unfold atLevel. induction new as [| i new IH]; intros H; [reflexivity |].
  rewrite filter_cons_False.
  - apply IH. intros inv Hin. apply H. right. exact Hin.
  - pose proof (H i ltac:(left)). lia.
Qed.

Lemma atLevel_app d (l1 l2 : list Invocation) :
  atLevel d (l1 ++ l2) = atLevel d l1 ++ atLevel d l2.
Proof. apply filter_app. Qed.

Section DispatchFacts.

Variable handler : list Invocation -> nat -> Event -> list Action * option EventResponse.

Section LevelFacts.

Variable nested : nat -> list Invocation -> Manager -> list Invocation * Manager.
Variable depth : nat.

(** The nested processing stays one level deeper and leaves the lists as
    they are. *)
Hypothesis nested_Inner : forall budget tr st,
  mProcessing st = true -> Inner (S depth) tr st (nested budget tr st).

Lemma perform_Inner s a :
  mProcessing s.2 = true -> Inner (S depth) s.1 s.2 (perform nested s a).
Proof.
  intros H. destruct s as [tr st]. cbn [fst snd] in *.
  assert (Hquiet : forall st', Frozen st st' -> Inner (S depth) tr st (tr, st')).
  { intros st' F. exists []. cbn. rewrite app_nil_r. split; [reflexivity |].
    split; [exact F |].
    split; intros inv Hin; apply elem_of_nil in Hin; contradiction. }
  destruct a as [b l r w | r | ev | budget]; cbn [perform fst snd].
  - apply Hquiet. unfold subscribe. rewrite H. apply defer_Frozen. exact H.
  - apply Hquiet. unfold unsubscribe. rewrite H. apply defer_Frozen. exact H.
  - apply Hquiet. unfold Frozen, fire; cbn. split; [exact H |].
    do 3 (split; [reflexivity |]). exists []. symmetry. apply app_nil_r.
  - apply nested_Inner. exact H.
Qed.

Lemma perform_all_Inner acts : forall s,
  mProcessing s.2 = true ->
  Inner (S depth) s.1 s.2 (fold_left (perform nested) acts s).
Proof.
  induction acts as [| a acts IH]; intros s H; cbn [fold_left].
  - destruct s. apply Inner_refl. exact H.
  - pose proof (perform_Inner s a H) as H1.
    apply (Inner_trans _ _ _ _ _ H1). apply IH.
    destruct H1 as (_ & _ & F & _). apply F.
Qed.

(** The calls of one list: the calls of this dispatch are those of
    [Delivered]; the others are deeper. *)
Lemma fireAll_spec (ev : Event) (b : Bucket) (w : EventOrder) (lili : ListenerList) :
  forall tr st, mProcessing st = true ->
    exists new st' c,
      fireAll handler nested depth tr st ev b w lili = (tr ++ new, st', c) /\
      Frozen st st' /\ Delivered depth ev lili (atLevel depth new) c /\
      (forall inv, inv ∈ new -> depth <= invLevel inv) /\
      OnLists st (filter (fun i => invLevel i <> depth) new).
Proof.
  induction lili as [| e rest IH]; intros tr st Hp; cbn [fireAll].
  - exists [], st, false. rewrite app_nil_r.
    split; [reflexivity |]. split; [apply Frozen_refl; exact Hp |].
    split; [constructor |].
    split; intros inv Hin; apply elem_of_nil in Hin; contradiction.
  - destruct (handler tr (listener e) ev) as [acts outcome].
    set (resp := default nop outcome).
    destruct (perform_all_Inner acts (tr, st) Hp) as (n0 & E0 & F0 & L0 & O0).
    destruct (fold_left (perform nested) acts (tr, st)) as [tr0 st1].
    cbn [fst snd] in *. subst tr0.
    assert (Hf2 : Frozen st
              (if deletesListener resp then defer st1 (DefErase b w (node e)) else st1)).
    { destruct (deletesListener resp); [| exact F0].
      apply (Frozen_trans _ _ _ F0). apply defer_Frozen. apply F0. }
    set (st2 := if deletesListener resp then defer st1 (DefErase b w (node e)) else st1) in *.
    assert (Hown0 : atLevel depth n0 = []) by (apply atLevel_deeper; exact L0).
    assert (Hdeep0 : filter (fun i => invLevel i <> depth) n0 = n0).
    { clear -L0. induction n0 as [| i n0 IH]; [reflexivity |].
      rewrite filter_cons_True by (pose proof (L0 i ltac:(left)); lia).
      f_equal. apply IH. intros inv Hin. apply L0. right. exact Hin. }
    destruct (cancelsEvent resp) eqn:Hc.
    + exists (n0 ++ [mkInvocation depth e ev resp]), st2, true.
      rewrite app_assoc. split; [reflexivity |]. split; [exact Hf2 |].
      split; [| split].
      * rewrite atLevel_app, Hown0. unfold atLevel.
        rewrite filter_cons_True by reflexivity. cbn. constructor. exact Hc.
      * intros inv Hin. apply elem_of_app in Hin as [Hin | Hin].
        -- pose proof (L0 inv Hin). lia.
        -- apply list_elem_of_singleton in Hin. subst inv. cbn. lia.
      * rewrite filter_app, Hdeep0.
        rewrite filter_cons_False by (cbn; intros Hne; apply Hne; reflexivity).
        rewrite filter_nil, app_nil_r. exact O0.
    + destruct (IH ((tr ++ n0) ++ [mkInvocation depth e ev resp]) st2 ltac:(apply Hf2))
        as (new & st' & c & Heq & Hf & Hd & Hl & Ho).
      exists (n0 ++ mkInvocation depth e ev resp :: new), st', c.
      rewrite Heq. split; [rewrite <- !app_assoc; reflexivity |].
      split; [exact (Frozen_trans _ _ _ Hf2 Hf) |]. split; [| split].
      * rewrite atLevel_app, Hown0. unfold atLevel.
        rewrite filter_cons_True by reflexivity. cbn. constructor; assumption.
      * intros inv Hin. apply elem_of_app in Hin as [Hin | Hin].
        -- pose proof (L0 inv Hin). lia.
        -- apply elem_of_cons in Hin as [-> | Hin]; [cbn; lia | auto].
      * rewrite filter_app, Hdeep0.
        rewrite filter_cons_False by (cbn; intros Hne; apply Hne; reflexivity).
        intros inv Hin. apply elem_of_app in Hin as [Hin | Hin]; [auto |].
        destruct (Ho inv Hin) as (b' & w' & He). exists b', w'.
        destruct Hf2 as (_ & Hls & _). rewrite <- Hls. exact He.
Qed.

(** The same for a stretch of the dispatch that goes through the
    listeners [order]. *)
Definition Fired (ev : Event) (order : ListenerList) (tr : list Invocation)
    (st : Manager) (r : list Invocation * Manager * bool) : Prop :=
  exists new,
    r.1.1 = tr ++ new /\ Frozen st r.1.2 /\
    Delivered depth ev order (atLevel depth new) r.2 /\
    (forall inv, inv ∈ new -> depth <= invLevel inv) /\
    OnLists st (filter (fun i => invLevel i <> depth) new).

Lemma Fired_state ev order tr st r :
  Fired ev order tr st r ->
  mProcessing r.1.2 = true /\ mListeners r.1.2 = mListeners st.
Proof. intros (new & _ & (Hp & Hl & _) & _). split; assumption. Qed.

Lemma Fired_nil ev tr st : mProcessing st = true -> Fired ev [] tr st (tr, st, false).
Proof.
  intros Hp. exists []. cbn. rewrite app_nil_r. split; [reflexivity |].
  split; [apply Frozen_refl; exact Hp |]. split; [constructor |].
  split; intros inv Hin; apply elem_of_nil in Hin; contradiction.
Qed.

Lemma Fired_cancelled ev o1 o2 tr st r :
  Fired ev o1 tr st r -> r.2 = true -> Fired ev (o1 ++ o2) tr st r.
Proof.
  intros (new & E & F & D & L & O) Hc. exists new.
  split; [exact E |]. split; [exact F |]. split; [| split; assumption].
  rewrite Hc in D |- *. apply Delivered_app_cancelled. exact D.
Qed.

Lemma Fired_app ev o1 o2 tr st r1 r2 :
  Fired ev o1 tr st r1 -> r1.2 = false -> Fired ev o2 r1.1.1 r1.1.2 r2 ->
  Fired ev (o1 ++ o2) tr st r2.
Proof.
  intros (n1 & E1 & F1 & D1 & L1 & O1) Hc (n2 & E2 & F2 & D2 & L2 & O2).
  exists (n1 ++ n2). rewrite E2, E1, app_assoc. split; [reflexivity |].
  split; [exact (Frozen_trans _ _ _ F1 F2) |]. split; [| split].
  - rewrite atLevel_app. rewrite Hc in D1. apply Delivered_app; assumption.
  - intros inv Hin. apply elem_of_app in Hin as [Hin | Hin]; auto.
  - rewrite filter_app. intros inv Hin. apply elem_of_app in Hin as [Hin | Hin]; [auto |].
    destruct (O2 inv Hin) as (b & w & He). exists b, w.
    destruct F1 as (_ & Hl & _). rewrite <- Hl. exact He.
Qed.

Lemma fireAll_Fired (ev : Event) (b : Bucket) (w : EventOrder) (lili : ListenerList)
    (tr : list Invocation) (st : Manager) :
  mProcessing st = true ->
  Fired ev lili tr st (fireAll handler nested depth tr st ev b w lili).
Proof.
  intros Hp. destruct (fireAll_spec ev b w lili tr st Hp) as (new & st' & c & E & F & D & L & O).
  exists new. rewrite E. cbn. repeat (split; [assumption || reflexivity |]). exact O.
Qed.

(** The listeners of one band for an event with key [id]. *)
Definition bandOrder (m : PrimaryListenerMap) (id : IdPair) (w : EventOrder) : ListenerList :=
  getList m (Specific (mPriId id) (mSecId id)) w ++ getList m (Generic (mPriId id)) w.

Lemma fireOrder_Fired (ev : Event) (w : EventOrder) (tr : list Invocation) (st : Manager) :
  mProcessing st = true ->
  Fired ev (bandOrder (mListeners st) (getId ev) w) tr st
    (fireOrder handler nested depth tr st ev w).
Proof.
  intros Hp. unfold fireOrder, bandOrder.
  pose proof (fireAll_Fired ev (Specific (mPriId (getId ev)) (mSecId (getId ev))) w
                (getList (mListeners st) (Specific (mPriId (getId ev)) (mSecId (getId ev))) w)
                tr st Hp) as H1.
  destruct (fireAll handler nested depth tr st ev _ w _) as [[tr1 st1] c1].
  destruct c1.
  - apply Fired_cancelled; [exact H1 | reflexivity].
  - apply (Fired_app _ _ _ _ _ _ _ H1 eq_refl). cbn [fst snd].
    destruct (Fired_state _ _ _ _ _ H1) as [Hp1 Hl]. cbn [fst snd] in Hp1, Hl.
    rewrite <- Hl. apply fireAll_Fired. exact Hp1.
Qed.

Lemma fireOrders_Fired (ev : Event) (orders : list EventOrder) :
  forall tr st, mProcessing st = true ->
    Fired ev (flat_map (bandOrder (mListeners st) (getId ev)) orders) tr st
      (fireOrders handler nested depth tr st ev orders).
Proof.
  induction orders as [| w rest IH]; intros tr st Hp; cbn [fireOrders flat_map].
  - apply Fired_nil. exact Hp.
  - pose proof (fireOrder_Fired ev w tr st Hp) as H1.
    destruct (fireOrder handler nested depth tr st ev w) as [[tr1 st1] c1].
    destruct c1.
    + apply Fired_cancelled; [exact H1 | reflexivity].
    + apply (Fired_app _ _ _ _ _ _ _ H1 eq_refl). cbn [fst snd].
      destruct (Fired_state _ _ _ _ _ H1) as [Hp1 Hl]. cbn [fst snd] in Hp1, Hl.
      rewrite <- Hl. apply IH. exact Hp1.
Qed.

Lemma dispatchOrder_bands (m : PrimaryListenerMap) (id : IdPair) :
  flat_map (bandOrder m id) allOrders = dispatchOrder m id.
Proof.
  unfold allOrders, dispatchOrder, bandOrder. cbn [flat_map].
  rewrite app_nil_r, <- !app_assoc. reflexivity.
Qed.

Lemma elem_of_dispatchOrder (m : PrimaryListenerMap) (id : IdPair)
    (e : ListenerSubscriptionInfo) :
  e ∈ dispatchOrder m id -> exists b w, e ∈ getList m b w.
Proof.
  unfold dispatchOrder. rewrite !elem_of_app.
  intros [H | [H | [H | [H | [H | H]]]]]; eauto.
Qed.

(** The dispatch of one event: the calls it adds to the trace, those of
    its own depth in the order of the listeners; the state the listeners
    leave behind with the lists untouched; and the deferred operations
    applied to it unless the dispatch is nested. *)
Lemma processEvent_spec (tr : list Invocation) (st : Manager) (ev : Event) :
  exists new st1 c,
    processEvent handler nested depth tr st ev
      = (tr ++ new, if mProcessing st then st1 else applyDeferredAll st1) /\
    Frozen (setProcessing st true) st1 /\
    Delivered depth ev (dispatchOrder (mListeners st) (getId ev)) (atLevel depth new) c /\
    (forall inv, inv ∈ new -> depth <= invLevel inv) /\
    OnLists st new.
Proof.
  unfold processEvent.
  destruct (fireOrders_Fired ev allOrders tr (setProcessing st true) eq_refl)
    as (new & E & F & D & L & O).
  destruct (fireOrders handler nested depth tr (setProcessing st true) ev allOrders)
    as [[tr1 st1] c]. cbn [fst snd] in *. subst tr1.
  change (mListeners (setProcessing st true)) with (mListeners st) in D.
  rewrite dispatchOrder_bands in D.
  exists new, st1, c. split; [reflexivity |]. split; [exact F |].
  split; [exact D |]. split; [exact L |].
  intros inv Hin. destruct (decide (invLevel inv = depth)) as [Hown | Hdeep].
  - apply (elem_of_dispatchOrder _ (getId ev)).
    apply (Delivered_elem_of _ _ _ _ _ _ D). apply list_elem_of_filter. split; assumption.
  - apply (O inv). apply list_elem_of_filter. split; assumption.
Qed.

(** The queue processed from within a listener. *)
Lemma processQueue_Inner (budget : nat) : forall tr st,
  mProcessing st = true ->
  Inner depth tr st (temporary_processEventQueue handler nested depth budget tr st).
Proof.
  induction budget as [| budget IH]; intros tr st Hp; cbn [temporary_processEventQueue].
  - apply Inner_refl. exact Hp.
  - destruct (mUnprocessed st) as [| ev queue]; [apply Inner_refl; exact Hp |].
    set (st0 := mkManager (mListeners st) queue (mRemoveById st) (mProcessing st)
                  (mDeferred st) (mNextNode st)).
    destruct (processEvent_spec tr st0 ev) as (new & st1 & c & E & F & _ & L & O).
    rewrite E. change (mProcessing st0) with (mProcessing st). rewrite Hp.
    assert (H1 : Inner depth tr st (tr ++ new, st1)).
    { exists new. split; [reflexivity |]. split; [exact F |]. split; [exact L | exact O]. }
    apply (Inner_trans _ _ _ _ _ H1). apply IH. apply F.
Qed.

End LevelFacts.

(** The queue processed at any depth, from a state in which an event is in
    progress: the calls are of that depth or deeper, on listeners of the
    lists, which stay as they are. *)
Lemma processAt_Inner (fuel : nat) : forall depth budget tr st,
  mProcessing st = true ->
  Inner depth tr st (processAt handler fuel depth budget tr st).
Proof.
  induction fuel as [| fuel IH]; intros depth budget tr st Hp; cbn [processAt].
  - apply Inner_refl. exact Hp.
  - apply processQueue_Inner; [| exact Hp].
    intros budget' tr' st' Hp'. apply IH. exact Hp'.
Qed.

End DispatchFacts.

(** *** The invariant of the listener lists *)

Definition nodeLt (e1 e2 : ListenerSubscriptionInfo) : Prop := node e1 < node e2.

(** Nodes are handed out in increasing order, so a list in insertion order
    is a list in increasing node order; a node lives in one list; and
    [mRemoveById] holds exactly the ids of the live listeners, each with
    the place of its node (always kept in sync). *)
Record ListsWF (st : Manager) : Prop := mkListsWF {
  wf_fresh : forall b w e,
    e ∈ getList (mListeners st) b w -> node e < mNextNode st;
  wf_sorted : forall b w, StronglySorted nodeLt (getList (mListeners st) b w);
  wf_apart : forall b1 w1 b2 w2 e1 e2,
    e1 ∈ getList (mListeners st) b1 w1 -> e2 ∈ getList (mListeners st) b2 w2 ->
    node e1 = node e2 -> b1 = b2 /\ w1 = w2;
  wf_byId : forall r sub, mRemoveById st !! r = Some sub ->
    exists e, e ∈ getList (mListeners st) (mListBucket sub) (mListOrder sub) /\
              node e = mIter sub /\ subId e = Some r;
  wf_ids : forall b w e r,
    e ∈ getList (mListeners st) b w -> subId e = Some r ->
    mRemoveById st !! r = Some (mkSub b w (node e))
}.

Lemma ListsWF_ext (st st' : Manager) :
  mListeners st' = mListeners st -> mRemoveById st' = mRemoveById st ->
  mNextNode st' = mNextNode st -> ListsWF st -> ListsWF st'.
Proof.
  intros Hl Hr Hn [H1 H2 H3 H4 H5].
  split; rewrite ?Hl, ?Hr, ?Hn; assumption.
Qed.


Lemma sorted_same_node (l : ListenerList) (e1 e2 : ListenerSubscriptionInfo) :
  StronglySorted nodeLt l -> e1 ∈ l -> e2 ∈ l -> node e1 = node e2 -> e1 = e2.
Proof.
  induction 1 as [| x l Hs IH Hall]; intros H1 H2 Hn.
  - apply elem_of_nil in H1. contradiction.
  - rewrite Forall_forall in Hall. unfold nodeLt in Hall.
    apply elem_of_cons in H1 as [-> | H1]; apply elem_of_cons in H2 as [-> | H2].
    + reflexivity.
    + specialize (Hall e2 H2). lia.
    + specialize (Hall e1 H1). lia.
    + apply IH; assumption.
Qed.

Lemma eraseNode_sorted (l : ListenerList) (n : nat) :
  StronglySorted nodeLt l -> StronglySorted nodeLt (eraseNode l n).
Proof.
  unfold eraseNode. induction 1 as [| x l Hs IH Hall].
  - constructor.
  - destruct (decide (node x <> n)) as [Hx | Hx].
    + rewrite filter_cons_True by exact Hx. constructor; [exact IH |].
      rewrite Forall_forall in Hall |- *. intros y Hy.
      apply list_elem_of_filter in Hy as [_ Hy]. auto.
    + rewrite filter_cons_False by exact Hx. exact IH.
Qed.

Lemma elem_of_eraseNode (l : ListenerList) (n : nat) (e : ListenerSubscriptionInfo) :
  e ∈ eraseNode l n <-> node e <> n /\ e ∈ l.
Proof. unfold eraseNode. rewrite list_elem_of_filter. reflexivity. Qed.

(** Taking the node [n] of the listener [e0] out of its list, and its id
    out of [mRemoveById], keeps the invariant. *)
Lemma remove_ListsWF (st st' : Manager) (b : Bucket) (w : EventOrder)
    (e0 : ListenerSubscriptionInfo) :
  ListsWF st ->
  e0 ∈ getList (mListeners st) b w ->
  (forall b' w', getList (mListeners st') b' w' =
     if decide (b = b' /\ w = w') then eraseNode (getList (mListeners st) b w) (node e0)
     else getList (mListeners st) b' w') ->
  mRemoveById st' =
    match subId e0 with
    | Some r => delete r (mRemoveById st)
    | None => mRemoveById st
    end ->
  mNextNode st' = mNextNode st ->
  ListsWF st'.
Proof.
  intros [Hfresh Hsorted Hapart HbyId Hids] He0 Hlists Hrem Hnext.
  assert (Hsub : forall b' w' e, e ∈ getList (mListeners st') b' w' ->
            e ∈ getList (mListeners st) b' w' /\ node e <> node e0).
  { intros b' w' e He. rewrite Hlists in He. case_decide as Hd.
    - destruct Hd as [<- <-]. apply elem_of_eraseNode in He. tauto.
    - split; [exact He |]. intros Hn. apply Hd.
      destruct (Hapart _ _ _ _ _ _ He He0 Hn) as [-> ->]. split; reflexivity. }
  assert (Hkeep : forall b' w' e, e ∈ getList (mListeners st) b' w' ->
            node e <> node e0 -> e ∈ getList (mListeners st') b' w').
  { intros b' w' e He Hn. rewrite Hlists. case_decide as Hd; [| exact He].
    destruct Hd as [<- <-]. apply elem_of_eraseNode. tauto. }
  split.
  - intros b' w' e He. rewrite Hnext. apply (Hfresh b' w'). apply Hsub. exact He.
  - intros b' w'. rewrite Hlists. case_decide; [| apply Hsorted].
    apply eraseNode_sorted. apply Hsorted.
  - intros b1 w1 b2 w2 e1 e2 H1 H2. apply Hapart; [apply Hsub, H1 | apply Hsub, H2].
  - intros r sub Hr.
    assert (Hr0 : mRemoveById st !! r = Some sub /\ subId e0 <> Some r).
    { rewrite Hrem in Hr. destruct (subId e0) as [r0 |]; [| split; [exact Hr | discriminate]].
      destruct (decide (r0 = r)) as [-> | Hne].
      - rewrite lookup_delete_eq in Hr. discriminate.
      - rewrite lookup_delete_ne in Hr by exact Hne. split; [exact Hr | congruence]. }
    destruct Hr0 as [Hr0 Hne].
    destruct (HbyId r sub Hr0) as (e & He & Hn & Hid).
    exists e. split; [| split; assumption].
    apply Hkeep; [exact He |]. intros Hsame.
    pose proof (Hapart _ _ _ _ _ _ He He0 Hsame) as [Hb Hw].
    rewrite Hb, Hw in He.
    pose proof (sorted_same_node _ _ _ (Hsorted b w) He He0 Hsame). congruence.
  - intros b' w' e r He Hid.
    destruct (Hsub b' w' e He) as [Hold Hn].
    pose proof (Hids b' w' e r Hold Hid) as Hr.
    rewrite Hrem. destruct (subId e0) as [r0 |] eqn:Hid0; [| exact Hr].
    rewrite lookup_delete_ne; [exact Hr |]. intros ->.
    pose proof (Hids b w e0 r He0 Hid0) as Hr'. rewrite Hr in Hr'.
    injection Hr' as _ _ Hnn. lia.
Qed.

Lemma unsubscribeNow_getList (st : Manager) (r : nat) (sub : EventSubscriptionInfo)
    (b : Bucket) (w : EventOrder) :
  mRemoveById st !! r = Some sub ->
  getList (mListeners (unsubscribeNow st (Some r))) b w =
  if decide (mListBucket sub = b /\ mListOrder sub = w)
  then eraseNode (getList (mListeners st) (mListBucket sub) (mListOrder sub)) (mIter sub)
  else getList (mListeners st) b w.
Proof.
  intros Hr. unfold unsubscribeNow. rewrite Hr. cbn [mListeners].
  rewrite getList_cleanUp. apply getList_setList.
Qed.

Lemma unsubscribeNow_subset (st : Manager) (r : SubscriptionId) (b : Bucket)
    (w : EventOrder) (e : ListenerSubscriptionInfo) :
  e ∈ getList (mListeners (unsubscribeNow st r)) b w -> e ∈ getList (mListeners st) b w.
Proof.
  destruct r as [r |]; [| trivial].
  destruct (mRemoveById st !! r) as [sub |] eqn:Hr.
  - rewrite (unsubscribeNow_getList st r sub b w Hr). case_decide as Hd; [| trivial].
    destruct Hd as [<- <-]. rewrite elem_of_eraseNode. tauto.
  - unfold unsubscribeNow. rewrite Hr. trivial.
Qed.

Lemma unsubscribeNow_next (st : Manager) (r : SubscriptionId) :
  mNextNode (unsubscribeNow st r) = mNextNode st.
Proof.
  destruct r as [r |]; [| reflexivity]. unfold unsubscribeNow.
  destruct (mRemoveById st !! r); reflexivity.
Qed.

Lemma unsubscribeNow_forgets (st : Manager) (r : nat) :
  mRemoveById (unsubscribeNow st (Some r)) !! r = None.
Proof.
  unfold unsubscribeNow. destruct (mRemoveById st !! r) eqn:Hr; [| exact Hr].
  cbn. apply lookup_delete_eq.
Qed.

Lemma unsubscribeNow_ListsWF (st : Manager) (r : SubscriptionId) :
  ListsWF st -> ListsWF (unsubscribeNow st r).
Proof.
  intros Hwf. destruct r as [r |]; [| exact Hwf].
  destruct (mRemoveById st !! r) as [sub |] eqn:Hr.
  - destruct (wf_byId st Hwf r sub Hr) as (e0 & He0 & Hn & Hid).
    apply (remove_ListsWF st _ (mListBucket sub) (mListOrder sub) e0 Hwf He0).
    + intros b' w'. rewrite (unsubscribeNow_getList st r sub b' w' Hr), Hn. reflexivity.
    + rewrite Hid. unfold unsubscribeNow. rewrite Hr. reflexivity.
    + apply unsubscribeNow_next.
  - unfold unsubscribeNow. rewrite Hr. exact Hwf.
Qed.

Lemma findNode_Some (l : ListenerList) (n : nat) (e : ListenerSubscriptionInfo) :
  findNode l n = Some e -> e ∈ l /\ node e = n.
Proof.
  unfold findNode. intros H. apply find_some in H as [Hin Hn].
  apply bool_decide_eq_true in Hn. split; [apply list_elem_of_In; exact Hin | exact Hn].
Qed.

Lemma eraseNow_getList (st : Manager) (b0 : Bucket) (w0 : EventOrder) (n : nat)
    (e0 : ListenerSubscriptionInfo) (b : Bucket) (w : EventOrder) :
  findNode (getList (mListeners st) b0 w0) n = Some e0 ->
  getList (mListeners (eraseNow st b0 w0 n)) b w =
  if decide (b0 = b /\ w0 = w)
  then eraseNode (getList (mListeners st) b0 w0) n
  else getList (mListeners st) b w.
Proof.
  intros Hf. unfold eraseNow. rewrite Hf. cbn [mListeners].
  rewrite getList_cleanUp. apply getList_setList.
Qed.

Lemma eraseNow_subset (st : Manager) (b0 : Bucket) (w0 : EventOrder) (n : nat)
    (b : Bucket) (w : EventOrder) (e : ListenerSubscriptionInfo) :
  e ∈ getList (mListeners (eraseNow st b0 w0 n)) b w -> e ∈ getList (mListeners st) b w.
Proof.
  destruct (findNode (getList (mListeners st) b0 w0) n) as [e0 |] eqn:Hf.
  - rewrite (eraseNow_getList st b0 w0 n e0 b w Hf). case_decide as Hd; [| trivial].
    destruct Hd as [<- <-]. rewrite elem_of_eraseNode. tauto.
  - unfold eraseNow. rewrite Hf. trivial.
Qed.

Lemma eraseNow_next (st : Manager) (b0 : Bucket) (w0 : EventOrder) (n : nat) :
  mNextNode (eraseNow st b0 w0 n) = mNextNode st.
Proof.
  unfold eraseNow. destruct (findNode (getList (mListeners st) b0 w0) n); reflexivity.
Qed.

Lemma eraseNow_ListsWF (st : Manager) (b0 : Bucket) (w0 : EventOrder) (n : nat) :
  ListsWF st -> ListsWF (eraseNow st b0 w0 n).
Proof.
  intros Hwf.
  destruct (findNode (getList (mListeners st) b0 w0) n) as [e0 |] eqn:Hf.
  - destruct (findNode_Some _ _ _ Hf) as [He0 Hn].
    apply (remove_ListsWF st _ b0 w0 e0 Hwf He0).
    + intros b' w'. rewrite (eraseNow_getList st b0 w0 n e0 b' w' Hf), Hn. reflexivity.
    + unfold eraseNow. rewrite Hf. reflexivity.
    + apply eraseNow_next.
  - unfold eraseNow. rewrite Hf. exact Hwf.
Qed.

(** A subscription puts the listener at the end of its list. *)
Lemma subscribeNow_getList (st : Manager) (b0 : Bucket) (l : nat) (r : SubscriptionId)
    (w0 : EventOrder) (b : Bucket) (w : EventOrder) :
  getList (mListeners (subscribeNow st b0 l r w0)) b w =
  if decide (b0 = b /\ w0 = w)
  then getList (mListeners (unsubscribeNow st r)) b0 w0 ++ [mkInfo (mNextNode st) l r]
  else getList (mListeners (unsubscribeNow st r)) b w.
Proof.
  unfold subscribeNow. cbn [mListeners]. rewrite getList_setList, unsubscribeNow_next.
  reflexivity.
Qed.

Lemma subscribeNow_next (st : Manager) (b0 : Bucket) (l : nat) (r : SubscriptionId)
    (w0 : EventOrder) :
  mNextNode (subscribeNow st b0 l r w0) = S (mNextNode st).
Proof. unfold subscribeNow. cbn. rewrite unsubscribeNow_next. reflexivity. Qed.

Lemma subscribeNow_entry (st : Manager) (b0 : Bucket) (l : nat) (r : SubscriptionId)
    (w0 : EventOrder) (b : Bucket) (w : EventOrder) (e : ListenerSubscriptionInfo) :
  e ∈ getList (mListeners (subscribeNow st b0 l r w0)) b w ->
  e ∈ getList (mListeners (unsubscribeNow st r)) b w \/
  (e = mkInfo (mNextNode st) l r /\ b0 = b /\ w0 = w).
Proof.
  rewrite subscribeNow_getList. case_decide as Hd; [| tauto].
  destruct Hd as [<- <-]. rewrite elem_of_app, list_elem_of_singleton. tauto.
Qed.

Lemma subscribeNow_ListsWF (st : Manager) (b0 : Bucket) (l : nat) (r : SubscriptionId)
    (w0 : EventOrder) :
  ListsWF st -> ListsWF (subscribeNow st b0 l r w0).
Proof.
  intros Hwf0. pose proof (unsubscribeNow_ListsWF st r Hwf0) as Hwf.
  pose proof (unsubscribeNow_next st r) as Hnext.
  assert (Hrem : mRemoveById (subscribeNow st b0 l r w0) =
            match r with
            | Some r' => <[r' := mkSub b0 w0 (mNextNode st)]> (mRemoveById (unsubscribeNow st r))
            | None => mRemoveById (unsubscribeNow st r)
            end).
  { unfold subscribeNow. cbn [mRemoveById]. rewrite Hnext. reflexivity. }
  set (st1 := unsubscribeNow st r) in *.
  set (new := mkInfo (mNextNode st) l r).
  assert (Hnew : new ∈ getList (mListeners (subscribeNow st b0 l r w0)) b0 w0).
  { rewrite subscribeNow_getList. rewrite decide_True by (split; reflexivity).
    apply elem_of_app. right. apply list_elem_of_singleton. reflexivity. }
  assert (Hold : forall b w e, e ∈ getList (mListeners st1) b w ->
            e ∈ getList (mListeners (subscribeNow st b0 l r w0)) b w).
  { intros b w e He. rewrite subscribeNow_getList. case_decide as Hd; [| exact He].
    destruct Hd as [<- <-]. apply elem_of_app. left. exact He. }
  split.
  - intros b w e He. rewrite subscribeNow_next.
    apply subscribeNow_entry in He as [He | (-> & _)].
    + pose proof (wf_fresh st1 Hwf b w e He). lia.
    + cbn. lia.
  - intros b w. rewrite subscribeNow_getList. case_decide; [| apply (wf_sorted st1 Hwf)].
    apply StronglySorted_app. split; [| split].
    + intros e1 e2 H1 H2. apply list_elem_of_singleton in H2. subst e2.
      unfold nodeLt. cbn. pose proof (wf_fresh st1 Hwf b0 w0 e1 H1). lia.
    + apply (wf_sorted st1 Hwf).
    + repeat constructor.
  - intros b1 w1 b2 w2 e1 e2 H1 H2 Hn.
    apply subscribeNow_entry in H1 as [H1 | (-> & <- & <-)];
      apply subscribeNow_entry in H2 as [H2 | (-> & <- & <-)].
    + exact (wf_apart st1 Hwf _ _ _ _ _ _ H1 H2 Hn).
    + pose proof (wf_fresh st1 Hwf _ _ _ H1). cbn in Hn. lia.
    + pose proof (wf_fresh st1 Hwf _ _ _ H2). cbn in Hn. lia.
    + split; reflexivity.
  - intros r' sub Hr'. rewrite Hrem in Hr'.
    destruct r as [r |].
    + destruct (decide (r = r')) as [<- | Hne].
      * rewrite lookup_insert_eq in Hr'. injection Hr' as <-. cbn.
        exists new. split; [exact Hnew | split; reflexivity].
      * rewrite lookup_insert_ne in Hr' by exact Hne.
        destruct (wf_byId st1 Hwf r' sub Hr') as (e & He & Hn & Hid).
        exists e. split; [apply Hold; exact He | split; assumption].
    + destruct (wf_byId st1 Hwf r' sub Hr') as (e & He & Hn & Hid).
      exists e. split; [apply Hold; exact He | split; assumption].
  - intros b w e r' He Hid. rewrite Hrem.
    apply subscribeNow_entry in He as [He | (-> & <- & <-)].
    + pose proof (wf_ids st1 Hwf b w e r' He Hid) as Hr'.
      destruct r as [r |]; [| exact Hr'].
      rewrite lookup_insert_ne; [exact Hr' |]. intros ->.
      unfold st1 in Hr'. rewrite unsubscribeNow_forgets in Hr'. discriminate.
    + cbn in Hid. subst r. cbn. apply lookup_insert_eq.
Qed.

Lemma applyDeferred_ListsWF (st : Manager) (d : Deferred) :
  ListsWF st -> ListsWF (applyDeferred st d).
Proof.
  destruct d; cbn [applyDeferred].
  - apply subscribeNow_ListsWF.
  - apply unsubscribeNow_ListsWF.
  - apply eraseNow_ListsWF.
Qed.

(** After a deferred operation a list holds listeners that were there
    before, and possibly one on a node that did not exist yet. *)
Lemma applyDeferred_entry (st : Manager) (d : Deferred) (b : Bucket) (w : EventOrder)
    (e : ListenerSubscriptionInfo) :
  e ∈ getList (mListeners (applyDeferred st d)) b w ->
  e ∈ getList (mListeners st) b w \/ mNextNode st <= node e.
Proof.
  destruct d as [b0 l r w0 | r | b0 w0 n]; cbn [applyDeferred]; intros He.
  - apply subscribeNow_entry in He as [He | (-> & _)].
    + left. exact (unsubscribeNow_subset _ _ _ _ _ He).
    + right. cbn. lia.
  - left. exact (unsubscribeNow_subset _ _ _ _ _ He).
  - left. exact (eraseNow_subset _ _ _ _ _ _ _ He).
Qed.

Lemma applyDeferred_next (st : Manager) (d : Deferred) :
  mNextNode st <= mNextNode (applyDeferred st d).
Proof.
  destruct d as [b0 l r w0 | r | b0 w0 n]; cbn [applyDeferred].
  - rewrite subscribeNow_next. lia.
  - rewrite unsubscribeNow_next. lia.
  - rewrite eraseNow_next. lia.
Qed.

Ltac conjs := repeat match goal with |- _ /\ _ => split end.

Lemma applyDeferred_flags (st : Manager) (d : Deferred) :
  mProcessing (applyDeferred st d) = mProcessing st /\
  mDeferred (applyDeferred st d) = mDeferred st.
Proof.
  destruct d as [b0 l r w0 | r | b0 w0 n]; cbn [applyDeferred].
  - unfold subscribeNow. cbn. destruct r as [r |]; [| split; reflexivity].
    unfold unsubscribeNow. destruct (mRemoveById st !! r); split; reflexivity.
  - destruct r as [r |]; [| split; reflexivity].
    unfold unsubscribeNow. destruct (mRemoveById st !! r); split; reflexivity.
  - unfold eraseNow. destruct (findNode _ n); split; reflexivity.
Qed.

(** Between the calls of a program no event is in progress and nothing is
    put off. *)
Definition Idle (st : Manager) : Prop :=
  mProcessing st = false /\ mDeferred st = [].

Lemma fold_applyDeferred (ds : list Deferred) : forall st,
  let st' := fold_left applyDeferred ds st in
  (ListsWF st -> ListsWF st') /\
  mProcessing st' = mProcessing st /\ mDeferred st' = mDeferred st /\
  mNextNode st <= mNextNode st' /\
  forall b w e, e ∈ getList (mListeners st') b w ->
    e ∈ getList (mListeners st) b w \/ mNextNode st <= node e.
Proof.
  induction ds as [| d ds IH]; intros st; cbn.
  - conjs; auto.
  - destruct (IH (applyDeferred st d)) as (Hwf & Hp & Hd & Hn & He).
    destruct (applyDeferred_flags st d) as [Hp0 Hd0].
    pose proof (applyDeferred_next st d) as Hn0.
    split; [intros H; apply Hwf, applyDeferred_ListsWF, H |].
    split; [congruence |]. split; [congruence |]. split; [lia |].
    intros b w e Hin. destruct (He b w e Hin) as [Hold | Hnew]; [| right; lia].
    destruct (applyDeferred_entry st d b w e Hold) as [H0 | H0]; [left | right]; assumption.
Qed.

Lemma applyDeferredAll_spec (st : Manager) :
  (ListsWF st -> ListsWF (applyDeferredAll st)) /\
  Idle (applyDeferredAll st) /\
  mNextNode st <= mNextNode (applyDeferredAll st) /\
  forall b w e, e ∈ getList (mListeners (applyDeferredAll st)) b w ->
    e ∈ getList (mListeners st) b w \/ mNextNode st <= node e.
Proof.
  unfold applyDeferredAll.
  destruct (fold_applyDeferred (mDeferred st)
              (mkManager (mListeners st) (mUnprocessed st) (mRemoveById st) false []
                 (mNextNode st))) as (Hwf & Hp & Hd & Hn & He).
  cbn in *. split; [| split; [split; assumption | split; assumption]].
  intros H. apply Hwf. revert H. apply ListsWF_ext; reflexivity.
Qed.

Section RunFacts.

Variable handler : list Invocation -> nat -> Event -> list Action * option EventResponse.













(** Draining [S k] events is draining one event and then [k]: the
    dispatches of one call are those of as many calls with a budget of
    one. *)
Lemma process_one_by_one (fuel depth k : nat) (tr : list Invocation) (st : Manager) :
  processAt handler (S fuel) depth (S k) tr st =
  processAt handler (S fuel) depth k
    (processAt handler (S fuel) depth 1 tr st).1
    (processAt handler (S fuel) depth 1 tr st).2.
Proof.
  cbn [processAt temporary_processEventQueue].
  destruct (mUnprocessed st) as [| ev queue] eqn:Hq.
  - cbn [fst snd]. destruct k; cbn [temporary_processEventQueue]; rewrite ?Hq; reflexivity.
  - destruct (processEvent handler _ depth tr _ ev) as [tr1 st1]. reflexivity.
Qed.

End RunFacts.

(** *** The properties of the dispatcher *)

Lemma unsubscribeNow_sublist (st : Manager) (r : SubscriptionId) (b : Bucket)
    (w : EventOrder) :
  getList (mListeners (unsubscribeNow st r)) b w `sublist_of` getList (mListeners st) b w.
Proof.
  destruct r as [r |]; [| reflexivity].
  destruct (mRemoveById st !! r) as [sub |] eqn:Hr.
  - rewrite (unsubscribeNow_getList st r sub b w Hr). case_decide as Hd; [| reflexivity].
    destruct Hd as [<- <-]. apply sublist_filter.
  - unfold unsubscribeNow. rewrite Hr. reflexivity.
Qed.

(** C1 (on the model of the dispatcher): the calls made for an event [ev]
    with key (P, S), by a dispatch at any nesting depth, go to the
    listeners in the order: for EARLY, then MIDDLE, then LATE, the specific
    listeners at (P, S) and then the generic listeners at P, each list in
    insertion order (a subscription puts the listener at the end of its
    list and keeps the order of the others); once a response has the
    CANCEL_EVENT bit set no later listener is called, and nothing but such
    a response ends the calls early.  The other calls made meanwhile are
    those of dispatches nested in this one. *)
Theorem dispatch_order
    (handler : list Invocation -> nat -> Event -> list Action * option EventResponse)
    (fuel depth : nat) (tr : list Invocation) (st : Manager) (ev : Event) :
  exists new,
    (processEvent handler (processAt handler fuel (S depth)) depth tr st ev).1
      = tr ++ new /\
    (forall inv, inv ∈ new -> invLevel inv = depth \/ depth < invLevel inv) /\
    (forall inv, inv ∈ atLevel depth new -> invEvent inv = ev) /\
    map invEntry (atLevel depth new)
      = take (length (atLevel depth new)) (dispatchOrder (mListeners st) (getId ev)) /\
    (forall i inv, atLevel depth new !! i = Some inv ->
       cancelsEvent (invResp inv) = true -> S i = length (atLevel depth new)) /\
    (length (atLevel depth new) < length (dispatchOrder (mListeners st) (getId ev)) ->
       exists inv, last (atLevel depth new) = Some inv /\
                   cancelsEvent (invResp inv) = true) /\
    (forall b l r w, mProcessing st = false ->
       exists kept,
         getList (mListeners (subscribe st b l r w)) b w
           = kept ++ [mkInfo (mNextNode st) l r] /\
         kept `sublist_of` getList (mListeners st) b w).
Proof.
  destruct (processEvent_spec handler (processAt handler fuel (S depth)) depth
              (fun budget tr' st' H => processAt_Inner handler fuel (S depth) budget tr' st' H)
              tr st ev) as (new & st1 & c & E & _ & D & L & _).
  exists new. rewrite E. split; [reflexivity |].
  split; [intros inv Hin; pose proof (L inv Hin); lia |].
  split; [intros inv; apply (Delivered_event _ _ _ _ _ _ D) |].
  split; [apply (Delivered_prefix _ _ _ _ _ D) |].
  split; [intros i inv; apply (Delivered_cancel_last _ _ _ _ _ _ _ D) |].
  split; [apply (Delivered_stops_on_cancel _ _ _ _ _ D) |].
  intros b l r w Hp. unfold subscribe. rewrite Hp.
  exists (getList (mListeners (unsubscribeNow st r)) b w).
  rewrite subscribeNow_getList, decide_True by (split; reflexivity).
  split; [reflexivity | apply unsubscribeNow_sublist].
Qed.


(** C2 (on the model of the dispatcher): in the dispatch of an event, at
    any nesting depth and from any state, whatever the listeners subscribe
    or unsubscribe meanwhile: every call, those of nested dispatches
    included, is on a listener that was subscribed when the dispatch began;
    a listener that is subscribed after the dispatch but was not before it
    (one subscribed during the dispatch; on a node not handed out before)
    is not called; and every listener subscribed for the event when the
    dispatch began is called unless a listener before it in the dispatch
    order returned CANCEL_EVENT (so a listener unsubscribed during the
    dispatch is still called). *)
Theorem dispatch_snapshot
    (handler : list Invocation -> nat -> Event -> list Action * option EventResponse)
    (fuel depth : nat) (tr : list Invocation) (st : Manager) (ev : Event) :
  let r := processEvent handler (processAt handler fuel (S depth)) depth tr st ev in
  let order := dispatchOrder (mListeners st) (getId ev) in
  exists new,
    r.1 = tr ++ new /\
    (forall inv, inv ∈ new ->
       exists b w, invEntry inv ∈ getList (mListeners st) b w) /\
    (forall inv, inv ∈ atLevel depth new -> invEvent inv = ev /\ invEntry inv ∈ order) /\
    (forall b w e, e ∈ getList (mListeners r.2) b w ->
       (forall b0 w0, e ∉ getList (mListeners st) b0 w0) ->
       forall inv, inv ∈ new -> invEntry inv <> e) /\
    (ListsWF st ->
       (forall inv, inv ∈ new -> node (invEntry inv) < mNextNode st) /\
       (forall b w e, e ∈ getList (mListeners r.2) b w ->
          (forall b0 w0, e ∉ getList (mListeners st) b0 w0) ->
          mNextNode st <= node e)) /\
    (forall i e, order !! i = Some e ->
       (forall j inv, j < i -> atLevel depth new !! j = Some inv ->
          cancelsEvent (invResp inv) = false) ->
       exists inv, atLevel depth new !! i = Some inv /\
                   invEntry inv = e /\ invEvent inv = ev).
Proof.
  intros r order. subst r.
  destruct (processEvent_spec handler (processAt handler fuel (S depth)) depth
              (fun budget tr' st' H => processAt_Inner handler fuel (S depth) budget tr' st' H)
              tr st ev) as (new & st1 & c & E & F & D & _ & O).
  fold order in D. exists new. rewrite E. cbn [fst snd].
  assert (Hent : forall b w e,
            e ∈ getList (mListeners (if mProcessing st then st1 else applyDeferredAll st1)) b w ->
            e ∈ getList (mListeners st) b w \/ mNextNode st <= node e).
  { destruct F as (_ & Hl & _ & Hn & _). cbn in Hl, Hn. intros b w e He.
    destruct (mProcessing st).
    - left. rewrite <- Hl. exact He.
    - rewrite <- Hl, <- Hn.
      destruct (applyDeferredAll_spec st1) as (_ & _ & _ & H). apply H. exact He. }
  split; [reflexivity |]. split; [exact O |]. split; [| split; [| split]].
  - intros inv Hin. split;
      [exact (Delivered_event _ _ _ _ _ _ D Hin) | exact (Delivered_elem_of _ _ _ _ _ _ D Hin)].
  - intros b w e He Hnot inv Hin Heq.
    destruct (O inv Hin) as (b1 & w1 & H1). rewrite Heq in H1. exact (Hnot b1 w1 H1).
  - intros Hwf. split.
    + intros inv Hin. destruct (O inv Hin) as (b1 & w1 & H1).
      exact (wf_fresh _ Hwf b1 w1 _ H1).
    + intros b w e He Hnot.
      destruct (Hent b w e He) as [Hold | Hnew]; [exfalso; exact (Hnot b w Hold) | exact Hnew].
  - intros i e Hi Hprev.
    destruct (Delivered_reaches _ _ _ _ _ _ _ D Hi Hprev) as (inv & Hinv & Hent').
    exists inv. split; [exact Hinv |]. split; [exact Hent' |].
    apply (Delivered_event _ _ _ _ _ _ D). apply list_elem_of_lookup_2 in Hinv. exact Hinv.
Qed.







(** L1, at EARLY, subscribes a listener 5 under the id 3 of L3 while the
    event 100 is delivered: L3 still gets that event, and not the next
    one, which goes to the listener 5. *)
Definition replacing_handler (_ : list Invocation) (l : nat) (ev : Event)
    : list Action * option EventResponse :=
  if Nat.eqb l 1 && Nat.eqb (payload ev) 100
  then ([ActSubscribe (Specific 1 7) 5 (Some 3) LATE], Some nop)
  else ([], Some nop).

Example replaced_while_dispatching :
  map (fun i => (listener (invEntry i), payload (invEvent i)))
      (run replacing_handler 0 ([], emptyManager) s3_ops).1
  = [(1, 100); (2, 100); (3, 100); (1, 200); (2, 200); (5, 200)].
Proof. vm_compute. reflexivity. Qed.

(** The values the four factories of [EventResponse] give are the
    combinations of the two flags: the bitwise or of any two of them is
    one of them again (that of [del] and [cancel] is [cancelAndDel]),
    [nop] adds nothing, and no two factories give the same value. *)
Theorem responses_closed_under_or (a b : EventResponse) :
  (exists c, mResp c = Z.lor (mResp a) (mResp b)) /\
  Z.lor (mResp del) (mResp cancel) = mResp cancelAndDel /\
  Z.lor (mResp a) (mResp nop) = mResp a /\
  (mResp a = mResp b -> a = b) /\
  (0 <= mResp a <= 3)%Z.
Proof.
  split; [| split; [reflexivity | split; [| split]]].
  - destruct a, b;
      first [ exists nop; reflexivity | exists del; reflexivity
            | exists cancel; reflexivity | exists cancelAndDel; reflexivity ].
  - destruct a; reflexivity.
  - destruct a, b; intros H; first [reflexivity | discriminate H].
  - destruct a; vm_compute; split; discriminate.
Qed.

End EventManager.

(** ** ASIOReadBuffer.hpp *)

Module ASIOReadBuffer.

(** [enum { sLowWaterMark=256, sBufferLength=1440 }] *)
Definition sLowWaterMark : nat := 256.
Definition sBufferLength : nat := 1440.

Abbreviation byte := Byte.byte.

(** Modelled from the spec: the declarations of [Chunk] and
    [Stream::StreamID] are not among the sources.  A chunk is a contiguous
    byte sequence of known length, a stream id an unsigned integer. *)
Abbreviation Chunk := (list Byte.byte).
Abbreviation StreamID := N.

(** Modelled from the spec: the variable-length integers of the wire
    format (spec 3 and 6; their code is not among the sources).  The top
    two bits of the first byte select a total width of 1, 2, 4 or 8 bytes;
    the value is little-endian in the remaining bits. *)
Definition varintWidth (b0 : byte) : nat :=
  match (Byte.to_N b0 / 64)%N with
  | 0%N => 1
  | 1%N => 2
  | 2%N => 4
  | _ => 8
  end.

(** Modelled from the spec: the bytes of an integer are in
    little-endian order. *)
Fixpoint littleEndian (bs : list byte) : N :=
  match bs with
  | [] => 0%N
  | b :: rest => (Byte.to_N b + 256 * littleEndian rest)%N
  end.

(** Modelled from the spec: the value bits of a variable-length integer
    are the low six bits of its first byte and the bytes that follow. *)
Definition varintValue (bs : list byte) : N :=
  match bs with
  | [] => 0%N
  | b0 :: rest => (Byte.to_N b0 mod 64 + 64 * littleEndian rest)%N
  end.

(** Modelled from the spec: the variable-length integer at the front of
    [bs] and the number of bytes it takes, or [None] while not all of its
    bytes are there. *)
Definition decodeVarint (bs : list byte) : option (N * nat) :=
  match bs with
  | [] => None
  | b0 :: _ =>
      let w := varintWidth b0 in
      if w <=? length bs then Some (varintValue (take w bs), w) else None
  end.

(** Which read the buffer has asked ASIO for: its completion is
    [asioReadIntoFixedBuffer] or [asioReadIntoChunk]; [Stopped] after
    [processError]. *)
Inductive Reading := IntoFixedBuffer | IntoChunk | Stopped.

(** The members of the class that take part in the parsing ([mWhichBuffer]
    and [mParentSocket] only say where the frames go).  The frames handed
    to the parent socket by [processFullChunk] are the output of each
    function. *)
Record ReadBuffer := mkReadBuffer {
  mBuffer : list byte;
  mBufferPos : nat;
  mNewChunk : Chunk;
  mNewChunkID : StreamID;
  reading : Reading
}.

Abbreviation Delivery := (N * list Byte.byte)%type.

(** Modelled from the spec: [processPartialChunk(dataBuffer, packetLength,
    bufferReceived, retval)] (declared in the header, body not among the
    sources).  [dataBuffer] starts at the stream id of a frame whose
    length field is [packetLength]; the result is the stream id, the chunk
    sized to the payload ([packetLength] less the length of the stream id)
    with the payload bytes at hand in its prefix, and the number of bytes
    copied.  [None] is a framing violation. *)
Definition processPartialChunk (dataBuffer : list byte) (packetLength : nat)
    : option (StreamID * Chunk * nat) :=
  match decodeVarint dataBuffer with
  | None => None
  | Some (sid, sidLength) =>
      if packetLength <? sidLength then None
      else
        let size := packetLength - sidLength in
        let useful := take size (drop sidLength dataBuffer) in
        Some (sid, useful ++ replicate (size - length useful) Byte.x00, length useful)
  end.

(** How the scan of the fixed buffer ends. *)
Inductive ScanEnd :=
| Rest (trailing : list byte)
| Large (sid : StreamID) (chunk : Chunk) (received : nat)
| Violation.

(** Modelled from the spec: the scan of [translateBuffer] (declared in the
    header, body not among the sources) over the bytes [data] of the fixed
    buffer from the current frame on (spec 4.1, algorithm step 2).  Every
    complete frame becomes a chunk; a partial frame at the end is left as
    trailing bytes if there are fewer than [sLowWaterMark] of them, else it
    goes into a chunk of its own.  One unit of [fuel] per frame. *)
Fixpoint scan (fuel : nat) (data : list byte) : list Delivery * ScanEnd :=
  match fuel with
  | O => ([], Rest data)
  | S fuel' =>
      match decodeVarint data with
      | None => ([], Rest data)
      | Some (packetLength, headerLength) =>
          let body := drop headerLength data in
          let packetLength := N.to_nat packetLength in
          if length body <? packetLength then
            if length data <? sLowWaterMark then ([], Rest data)
            else
              match processPartialChunk body packetLength with
              | Some (sid, chunk, received) => ([], Large sid chunk received)
              | None => ([], Violation)
              end
          else
            match processPartialChunk (take packetLength body) packetLength with
            | Some (sid, chunk, _) =>
                let '(more, e) := scan fuel' (drop packetLength body) in
                ((sid, chunk) :: more, e)
            | None => ([], Violation)
            end
      end
  end.

(** Modelled from the spec: [translateBuffer] (body not among the
    sources): scan [mBuffer] from offset 0 to [mBufferPos], then either
    move the trailing bytes to offset 0 and read into the fixed buffer
    again, or switch to reading into [mNewChunk]. *)
Definition translateBuffer (rb : ReadBuffer) : ReadBuffer * list Delivery :=
  let '(out, e) := scan (mBufferPos rb) (take (mBufferPos rb) (mBuffer rb)) in
  match e with
  | Rest trailing =>
      (mkReadBuffer (trailing ++ drop (length trailing) (mBuffer rb)) (length trailing)
         (mNewChunk rb) (mNewChunkID rb) IntoFixedBuffer, out)
  | Large sid chunk received =>
      (mkReadBuffer (mBuffer rb) received chunk sid IntoChunk, out)
  | Violation =>
      (mkReadBuffer (mBuffer rb) (mBufferPos rb) (mNewChunk rb) (mNewChunkID rb) Stopped, out)
  end.

(** [target] with [bs] written at offset [pos], as ASIO leaves it. *)
Definition writeAt (target : list byte) (pos : nat) (bs : list byte) : list byte :=
  take pos target ++ bs ++ drop (pos + length bs) target.

(** Modelled from the spec: [asioReadIntoFixedBuffer(error, bytes_read)]
    (body not among the sources).  ASIO has written the bytes [bs] into
    [mBuffer] at [mBufferPos]; an error is passed on by [processError] and
    the buffer stops, else the work goes to [translateBuffer]. *)
Definition asioReadIntoFixedBuffer (rb : ReadBuffer) (error : bool) (bs : list byte)
    : ReadBuffer * list Delivery :=
  if error then
    (mkReadBuffer (mBuffer rb) (mBufferPos rb) (mNewChunk rb) (mNewChunkID rb) Stopped, [])
  else
    translateBuffer
      (mkReadBuffer (writeAt (mBuffer rb) (mBufferPos rb) bs) (mBufferPos rb + length bs)
         (mNewChunk rb) (mNewChunkID rb) (reading rb)).

(** Modelled from the spec: [asioReadIntoChunk(error, bytes_read)] (body
    not among the sources).  ASIO has written [bs] into [mNewChunk] at
    [mBufferPos]; a full chunk is handed on by [processFullChunk] and the
    buffer reads into the fixed buffer again, a partially full one is read
    into further. *)
Definition asioReadIntoChunk (rb : ReadBuffer) (error : bool) (bs : list byte)
    : ReadBuffer * list Delivery :=
  if error then
    (mkReadBuffer (mBuffer rb) (mBufferPos rb) (mNewChunk rb) (mNewChunkID rb) Stopped, [])
  else
    let chunk := writeAt (mNewChunk rb) (mBufferPos rb) bs in
    let pos := mBufferPos rb + length bs in
    if length chunk <=? pos then
      (mkReadBuffer (mBuffer rb) 0 [] (mNewChunkID rb) IntoFixedBuffer,
       [(mNewChunkID rb, chunk)])
    else
      (mkReadBuffer (mBuffer rb) pos chunk (mNewChunkID rb) IntoChunk, []).

(** Modelled from the spec: the constructor (body not among the sources)
    leaves an empty fixed buffer and calls [readIntoFixedBuffer]. *)
Definition initial : ReadBuffer :=
  mkReadBuffer (replicate sBufferLength Byte.x00) 0 [] 0%N IntoFixedBuffer.

(** Modelled from the spec: [readIntoFixedBuffer] and [readIntoChunk]
    are declared in the header, their bodies are not among the sources;
    from the comments on them, ASIO is told to read into [mBuffer] at
    offset [mBufferPos] up to the end of the buffer, or into [mNewChunk] at
    offset [mBufferPos] up to its size.  This is the room of the read in
    progress. *)
Definition capacity (rb : ReadBuffer) : nat :=
  match reading rb with
  | IntoFixedBuffer => sBufferLength - mBufferPos rb
  | IntoChunk => length (mNewChunk rb) - mBufferPos rb
  | Stopped => 0
  end.

(** One completion that brings the bytes [bs]: ASIO calls the handler of
    the read in progress. *)
Definition completion (rb : ReadBuffer) (bs : list byte) : ReadBuffer * list Delivery :=
  match reading rb with
  | IntoFixedBuffer => asioReadIntoFixedBuffer rb false bs
  | IntoChunk => asioReadIntoChunk rb false bs
  | Stopped => (rb, [])
  end.

(** The pipe delivers the byte stream [input] in pieces: each completion
    brings at least one byte and at most what there is room for;
    [policy] says how many of the possible bytes, given the room. *)
Definition pieceSize (policy : nat -> nat) (room available : nat) : nat :=
  Nat.max 1 (Nat.min (policy room) (Nat.min room available)).

(** The frames handed on while the pipe delivers [input]; one unit of
    [fuel] per completion. *)
Fixpoint feed (policy : nat -> nat) (fuel : nat) (rb : ReadBuffer) (input : list byte)
    : list Delivery :=
  match fuel with
  | O => []
  | S fuel' =>
      match input with
      | [] => []
      | _ =>
          if capacity rb =? 0 then []
          else
            let k := pieceSize policy (capacity rb) (length input) in
            let '(rb', out) := completion rb (take k input) in
            out ++ feed policy fuel' rb' (drop k input)
      end
  end.

(** One byte per completion; as many bytes as there is room for. *)
Definition byteWise (_ : nat) : nat := 1.
Definition greedy (room : nat) : nat := room.

(** Three frames on stream 7 with payloads of 1, 2 and 3 bytes. *)
Definition sampleStream : list byte :=
  [Byte.x02; Byte.x07; Byte.x0a;
   Byte.x03; Byte.x07; Byte.x14; Byte.x15;
   Byte.x04; Byte.x07; Byte.x1e; Byte.x1f; Byte.x20].

Example sample_bytewise :
  feed byteWise 12 initial sampleStream
  = [(7%N, [Byte.x0a]); (7%N, [Byte.x14; Byte.x15]); (7%N, [Byte.x1e; Byte.x1f; Byte.x20])].
Proof. vm_compute. reflexivity. Qed.

Example sample_greedy :
  feed greedy 12 initial sampleStream
  = [(7%N, [Byte.x0a]); (7%N, [Byte.x14; Byte.x15]); (7%N, [Byte.x1e; Byte.x1f; Byte.x20])].
Proof. vm_compute. reflexivity. Qed.

(** *** Well-formed frames *)

(** [fb] is the wire form of one frame that carries [payload] on stream
    [sid]: the length field, the stream id, the payload; the length field
    counts the stream id and the payload. *)
Definition FrameBytes (fb : list byte) (sid : StreamID) (payload : list byte) : Prop :=
  exists lenB sidB L,
    fb = lenB ++ sidB ++ payload /\
    decodeVarint lenB = Some (L, length lenB) /\
    decodeVarint sidB = Some (sid, length sidB) /\
    N.to_nat L = length sidB + length payload.

(** [B] is the concatenation of the well-formed frames [fs]. *)
Inductive Frames : list byte -> list Delivery -> Prop :=
| Frames_nil : Frames [] []
| Frames_cons fb sid payload rest fs :
    FrameBytes fb sid payload -> Frames rest fs ->
    Frames (fb ++ rest) ((sid, payload) :: fs).

Lemma app_split_le {A : Type} (a b c d : list A) :
  a ++ b = c ++ d -> length a <= length c ->
  exists x, c = a ++ x /\ b = x ++ d.
Proof.
  intros E Hle. exists (drop (length a) c).
  assert (Hc : c = a ++ drop (length a) c).
  { rewrite <- (take_drop (length a) c) at 1. f_equal.
    assert (H : take (length a) (a ++ b) = take (length a) (c ++ d)) by (rewrite E; reflexivity).
    rewrite take_app_length in H. rewrite take_app_le in H by exact Hle. congruence. }
  split; [exact Hc |].
  rewrite Hc in E at 1. rewrite <- app_assoc in E. exact (app_inv_head _ _ _ E).
Qed.

Lemma varintWidth_bounds (b : byte) : 1 <= varintWidth b <= 8.
Proof.
  unfold varintWidth.
  destruct (Byte.to_N b / 64)%N as [| [p | p |]]; try lia; destruct p; lia.
Qed.

Lemma decodeVarint_width (bs : list byte) (v : N) (w : nat) :
  decodeVarint bs = Some (v, w) -> 1 <= w <= 8 /\ w <= length bs.
Proof.
  destruct bs as [| b0 bs]; [discriminate |]. unfold decodeVarint.
  destruct (varintWidth b0 <=? length (b0 :: bs)) eqn:Hw; [| discriminate].
  intros H. injection H as _ <-. apply Nat.leb_le in Hw.
  split; [apply varintWidth_bounds | exact Hw].
Qed.

(** A complete integer is read the same whatever follows it ... *)
Lemma decodeVarint_app (v rest : list byte) (x : N) :
  decodeVarint v = Some (x, length v) ->
  decodeVarint (v ++ rest) = Some (x, length v).
Proof.
  destruct v as [| b0 v]; [discriminate |]. cbn [app]. unfold decodeVarint.
  destruct (varintWidth b0 <=? length (b0 :: v)) eqn:Hw; [| discriminate].
  intros H. injection H as Hx Hlen. apply Nat.leb_le in Hw.
  assert (Hw' : (varintWidth b0 <=? length (b0 :: v ++ rest)) = true).
  { apply Nat.leb_le. cbn [length] in *. rewrite length_app. lia. }
  rewrite Hw'. f_equal. f_equal; [| exact Hlen].
  rewrite <- Hx. f_equal. rewrite Hlen.
  change (b0 :: v ++ rest) with ((b0 :: v) ++ rest).
  change (S (length v)) with (length (b0 :: v)).
  rewrite take_app_length, firstn_all. reflexivity.
Qed.

(** ... and is not read before its last byte is there. *)
Lemma decodeVarint_short (v d e : list byte) (x : N) :
  decodeVarint v = Some (x, length v) -> v = d ++ e -> e <> [] ->
  decodeVarint d = None.
Proof.
  intros Hv -> He. destruct d as [| b0 d]; [reflexivity |].
  cbn [app] in Hv. unfold decodeVarint in *.
  destruct (varintWidth b0 <=? length (b0 :: d ++ e)) eqn:Hw; [| discriminate].
  injection Hv as _ Hlen.
  assert (Hs : (varintWidth b0 <=? length (b0 :: d)) = false).
  { apply Nat.leb_gt. rewrite Hlen. cbn [length]. rewrite length_app.
    destruct e; [contradiction | cbn [length]; lia]. }
  rewrite Hs. reflexivity.
Qed.

Lemma FrameBytes_length (fb : list byte) (sid : StreamID) (payload : list byte) :
  FrameBytes fb sid payload -> 2 <= length fb.
Proof.
  intros (lenB & sidB & L & -> & Hl & Hs & _).
  apply decodeVarint_width in Hl, Hs. rewrite !length_app. lia.
Qed.

Lemma processPartialChunk_whole (sidB payload : list byte) (sid : StreamID) :
  decodeVarint sidB = Some (sid, length sidB) ->
  processPartialChunk (sidB ++ payload) (length sidB + length payload)
    = Some (sid, payload, length payload).
Proof.
  intros Hs. unfold processPartialChunk. rewrite (decodeVarint_app _ payload _ Hs).
  assert ((length sidB + length payload <? length sidB) = false) as ->
    by (apply Nat.ltb_ge; lia).
  replace (length sidB + length payload - length sidB) with (length payload) by lia.
  rewrite drop_app_length, firstn_all, Nat.sub_diag. cbn. rewrite app_nil_r. reflexivity.
Qed.

(** A frame that is all there is handed on, and the scan goes on behind
    it. *)
Lemma scan_whole_frame (fuel : nat) (fb more : list byte) (sid : StreamID)
    (payload : list byte) :
  FrameBytes fb sid payload ->
  scan (S fuel) (fb ++ more) = ((sid, payload) :: (scan fuel more).1, (scan fuel more).2).
Proof.
  intros (lenB & sidB & L & -> & Hl & Hs & HL). cbn [scan].
  rewrite <- app_assoc. rewrite (decodeVarint_app _ _ _ Hl).
  rewrite drop_app_length. rewrite HL.
  assert ((length ((sidB ++ payload) ++ more) <? length sidB + length payload) = false) as ->.
  { apply Nat.ltb_ge. rewrite !length_app. lia. }
  rewrite <- (length_app sidB payload).
  rewrite take_app_length, drop_app_length, length_app.
  rewrite (processPartialChunk_whole _ _ _ Hs).
  destruct (scan fuel more) as [ds e]. reflexivity.
Qed.

(** The frames that are all there are handed on in order. *)
Lemma scan_frames (fbs : list byte) (fs : list Delivery) :
  Frames fbs fs -> forall fuel t, length (fbs ++ t) <= fuel ->
    exists fuel', length t <= fuel' /\
      scan fuel (fbs ++ t) = (fs ++ (scan fuel' t).1, (scan fuel' t).2).
Proof.
  induction 1 as [| fb sid payload rest fs Hfb Hrest IH]; intros fuel t Hlen.
  - exists fuel. split; [exact Hlen |]. cbn. destruct (scan fuel t); reflexivity.
  - pose proof (FrameBytes_length _ _ _ Hfb) as H2.
    rewrite <- app_assoc in Hlen |- *. rewrite length_app in Hlen.
    destruct fuel as [| fuel]; [lia |].
    rewrite (scan_whole_frame fuel fb (rest ++ t) sid payload Hfb).
    destruct (IH fuel t ltac:(lia)) as (fuel' & Hf' & E).
    exists fuel'. split; [exact Hf' |]. rewrite E. reflexivity.
Qed.

(** Fewer than [sLowWaterMark] bytes of a frame are left as they are. *)
Lemma scan_partial_small (fuel : nat) (fb t e : list byte) (sid : StreamID)
    (payload : list byte) :
  FrameBytes fb sid payload -> fb = t ++ e -> e <> [] ->
  length t < sLowWaterMark ->
  scan fuel t = ([], Rest t).
Proof.
  intros (lenB & sidB & L & Hfb & Hl & Hs & HL) Hte He Hsmall.
  destruct fuel as [| fuel]; [reflexivity |]. cbn [scan].
  destruct (le_lt_dec (length lenB) (length t)) as [Hge | Hlt].
  - rewrite Hfb in Hte.
    destruct (app_split_le lenB (sidB ++ payload) t e Hte Hge) as (t' & -> & Hrest).
    rewrite (decodeVarint_app _ _ _ Hl), drop_app_length.
    assert ((length t' <? N.to_nat L) = true) as ->.
    { apply Nat.ltb_lt. rewrite HL.
      assert (Hx : length (sidB ++ payload) = length (t' ++ e)) by (rewrite Hrest; reflexivity).
      rewrite !length_app in Hx. destruct e; [contradiction | cbn [length] in Hx; lia]. }
    assert ((length (lenB ++ t') <? sLowWaterMark) = true) as ->
      by (apply Nat.ltb_lt; exact Hsmall).
    reflexivity.
  - rewrite Hfb in Hte. symmetry in Hte.
    destruct (app_split_le t e lenB (sidB ++ payload) Hte ltac:(lia)) as (x & Hx & _).
    assert (x <> []).
    { intros ->. rewrite app_nil_r in Hx. subst t. lia. }
    rewrite (decodeVarint_short lenB t x L Hl Hx H). reflexivity.
Qed.

(** [sLowWaterMark] bytes or more of a frame go into a chunk sized to the
    payload, with the payload bytes at hand in its prefix. *)
Lemma scan_partial_large (fuel : nat) (fb t e : list byte) (sid : StreamID)
    (payload : list byte) :
  FrameBytes fb sid payload -> fb = t ++ e -> e <> [] ->
  sLowWaterMark <= length t ->
  exists hdr p1,
    payload = p1 ++ e /\ t = hdr ++ p1 /\
    scan (S fuel) t = ([], Large sid (p1 ++ replicate (length e) Byte.x00) (length p1)).
Proof.
  intros (lenB & sidB & L & Hfb & Hl & Hs & HL) Hte He Hlarge.
  pose proof (decodeVarint_width _ _ _ Hl) as [Hwl _].
  pose proof (decodeVarint_width _ _ _ Hs) as [Hws _].
  unfold sLowWaterMark in Hlarge.
  rewrite Hfb in Hte.
  destruct (app_split_le lenB (sidB ++ payload) t e Hte ltac:(lia)) as (t' & -> & Hrest).
  rewrite length_app in Hlarge.
  destruct (app_split_le sidB payload t' e Hrest ltac:(lia)) as (p1 & -> & Hpay).
  exists (lenB ++ sidB), p1. split; [exact Hpay |].
  split; [rewrite <- app_assoc; reflexivity |].
  cbn [scan]. rewrite (decodeVarint_app _ _ _ Hl), drop_app_length.
  assert (Hlen : length payload = length p1 + length e) by (rewrite Hpay; apply length_app).
  assert (Hpos : 0 < length e) by (destruct e; [contradiction | cbn; lia]).
  assert ((length (sidB ++ p1) <? N.to_nat L) = true) as ->.
  { apply Nat.ltb_lt. rewrite length_app. lia. }
  assert ((length (lenB ++ sidB ++ p1) <? sLowWaterMark) = false) as ->.
  { apply Nat.ltb_ge. unfold sLowWaterMark. rewrite !length_app in *. lia. }
  unfold processPartialChunk. rewrite (decodeVarint_app _ _ _ Hs).
  assert ((N.to_nat L <? length sidB) = false) as -> by (apply Nat.ltb_ge; lia).
  rewrite drop_app_length.
  rewrite take_ge by lia.
  replace (N.to_nat L - length sidB - length p1) with (length e) by lia.
  reflexivity.
Qed.

(** *** The buffer between two completions *)

(** [t] is the part that has arrived of the next frame of a stream that
    goes on with [inp] and carries the frames [fs]: nothing at all at the
    end of the stream, else a strict prefix of the wire form of the first
    frame of [fs]. *)
Definition Partial (t inp : list byte) (fs : list Delivery) : Prop :=
  (t = [] /\ inp = [] /\ fs = []) \/
  exists fb sid payload e rest fs',
    fs = (sid, payload) :: fs' /\ FrameBytes fb sid payload /\
    fb = t ++ e /\ e <> [] /\ inp = e ++ rest /\ Frames rest fs'.

Lemma Partial_start (inp : list byte) (fs : list Delivery) :
  Frames inp fs -> Partial [] inp fs.
Proof.
  intros H. destruct H as [| fb sid payload rest fs Hfb Hrest].
  - left. repeat split.
  - right. exists fb, sid, payload, fb, rest, fs.
    pose proof (FrameBytes_length _ _ _ Hfb).
    repeat split; try assumption. intros ->. cbn in H. lia.
Qed.

Lemma Partial_Frames (t inp : list byte) (fs : list Delivery) :
  Partial t inp fs -> Frames (t ++ inp) fs.
Proof.
  intros [(-> & -> & ->) | (fb & sid & payload & e & rest & fs' & -> & Hfb & Hte & _ & -> & Hrest)].
  - constructor.
  - rewrite app_assoc, <- Hte. constructor; assumption.
Qed.

Lemma Partial_end (t : list byte) (fs : list Delivery) :
  Partial t [] fs -> t = [] /\ fs = [].
Proof.
  intros [(-> & _ & ->) | (fb & sid & payload & e & rest & fs' & _ & _ & _ & He & Hinp & _)].
  - split; reflexivity.
  - destruct e; [contradiction | discriminate Hinp].
Qed.

(** The bytes that have arrived of a stream of frames are whole frames and
    then part of the next one. *)
Lemma split_prefix (S : list byte) (fs : list Delivery) :
  Frames S fs -> forall d inp, S = d ++ inp ->
    exists fbs fsC t fs',
      d = fbs ++ t /\ Frames fbs fsC /\ fs = fsC ++ fs' /\ Partial t inp fs'.
Proof.
  induction 1 as [| fb sid payload rest fs Hfb Hrest IH]; intros d inp E.
  - symmetry in E. apply app_eq_nil in E as [-> ->].
    exists [], [], [], []. repeat split; [constructor | left; repeat split].
  - destruct (le_lt_dec (length fb) (length d)) as [Hle | Hlt].
    + destruct (app_split_le fb rest d inp E Hle) as (x & -> & Hx).
      destruct (IH x inp Hx) as (fbs & fsC & t & fs' & -> & HfC & -> & HP).
      exists (fb ++ fbs), ((sid, payload) :: fsC), t, fs'.
      split; [apply app_assoc |]. split; [constructor; assumption |].
      split; [reflexivity | exact HP].
    + symmetry in E.
      destruct (app_split_le d inp fb rest E ltac:(lia)) as (x & Hfbx & Hinp).
      exists [], [], d, ((sid, payload) :: fs).
      split; [reflexivity |]. split; [constructor |]. split; [reflexivity |].
      right. exists fb, sid, payload, x, rest, fs.
      repeat split; try assumption.
      intros ->. rewrite app_nil_r in Hfbx. subst d. lia.
Qed.

Lemma length_writeAt (target : list byte) (pos : nat) (bs : list byte) :
  pos + length bs <= length target ->
  length (writeAt target pos bs) = length target.
Proof.
  intros H. unfold writeAt. rewrite !length_app, length_take, length_drop. lia.
Qed.

Lemma take_writeAt (target : list byte) (pos : nat) (bs : list byte) :
  pos <= length target ->
  take (pos + length bs) (writeAt target pos bs) = take pos target ++ bs.
Proof.
  intros H. unfold writeAt. rewrite app_assoc.
  rewrite take_app_le by (rewrite length_app, length_take; lia).
  rewrite take_ge by (rewrite length_app, length_take; lia). reflexivity.
Qed.

(** What holds of the buffer between two completions, when the stream
    goes on with [inp] and the frames still to be handed on are [fs]. *)
Definition Inv (rb : ReadBuffer) (inp : list byte) (fs : list Delivery) : Prop :=
  length (mBuffer rb) = sBufferLength /\
  match reading rb with
  | IntoFixedBuffer =>
      mBufferPos rb < sLowWaterMark /\
      Partial (take (mBufferPos rb) (mBuffer rb)) inp fs
  | IntoChunk =>
      exists payload rest fs',
        fs = (mNewChunkID rb, payload) :: fs' /\
        length (mNewChunk rb) = length payload /\
        mBufferPos rb < length payload /\
        take (mBufferPos rb) (mNewChunk rb) = take (mBufferPos rb) payload /\
        inp = drop (mBufferPos rb) payload ++ rest /\
        Frames rest fs'
  | Stopped => False
  end.

Lemma Inv_initial (B : list byte) (fs : list Delivery) :
  Frames B fs -> Inv initial B fs.
Proof.
  intros H. split; [apply length_replicate |]. cbn.
  split; [unfold sLowWaterMark; lia | apply Partial_start; exact H].
Qed.

Lemma Inv_capacity (rb : ReadBuffer) (inp : list byte) (fs : list Delivery) :
  Inv rb inp fs -> 0 < capacity rb.
Proof.
  intros [Hlen H]. unfold capacity. destruct (reading rb).
  - destruct H as [Hpos _]. unfold sLowWaterMark, sBufferLength in *. lia.
  - destruct H as (payload & rest & fs' & _ & Hc & Hpos & _). lia.
  - contradiction.
Qed.

Lemma Inv_end (rb : ReadBuffer) (fs : list Delivery) :
  Inv rb [] fs -> fs = [].
Proof.
  intros [Hlen H]. destruct (reading rb).
  - destruct H as [_ HP]. apply Partial_end in HP. tauto.
  - destruct H as (payload & rest & fs' & _ & _ & Hpos & _ & Hinp & _).
    symmetry in Hinp. apply app_eq_nil in Hinp as [Hd _].
    assert (Hl : length (drop (mBufferPos rb) payload) = 0) by (rewrite Hd; reflexivity).
    rewrite length_drop in Hl. lia.
  - contradiction.
Qed.

(** The scan of the part of a frame that has arrived. *)
Lemma scan_Partial (fuel : nat) (t inp : list byte) (fs : list Delivery) :
  Partial t inp fs -> length t <= fuel ->
  (length t < sLowWaterMark /\ scan fuel t = ([], Rest t)) \/
  (sLowWaterMark <= length t /\
   exists sid payload p1 hdr e rest fs',
     fs = (sid, payload) :: fs' /\ payload = p1 ++ e /\ e <> [] /\ t = hdr ++ p1 /\
     inp = e ++ rest /\ Frames rest fs' /\
     scan fuel t = ([], Large sid (p1 ++ replicate (length e) Byte.x00) (length p1))).
Proof.
  intros [(-> & -> & ->) | (fb & sid & payload & e & rest & fs' & -> & Hfb & Hte & He & -> & Hrest)] Hfuel.
  - left. split; [unfold sLowWaterMark; cbn; lia |]. destruct fuel; reflexivity.
  - destruct (le_lt_dec sLowWaterMark (length t)) as [Hlarge | Hsmall].
    + right. split; [exact Hlarge |].
      destruct fuel as [| fuel]; [unfold sLowWaterMark in Hlarge; lia |].
      destruct (scan_partial_large fuel fb t e sid payload Hfb Hte He Hlarge)
        as (hdr & p1 & Hpay & Ht & Hscan).
      exists sid, payload, p1, hdr, e, rest, fs'. repeat split; assumption.
    + left. split; [exact Hsmall |].
      exact (scan_partial_small fuel fb t e sid payload Hfb Hte He Hsmall).
Qed.

(** [translateBuffer] on a buffer that holds whole frames and then part of
    a frame: the whole frames are handed on; fewer than [sLowWaterMark]
    trailing bytes are moved to the front of the fixed buffer, which is
    read into again; [sLowWaterMark] or more go into a chunk of the size of
    the payload, which is read into next. *)
Lemma translateBuffer_spec (rb : ReadBuffer) (fbs t inp : list byte)
    (fsC fs : list Delivery) :
  length (mBuffer rb) = sBufferLength -> mBufferPos rb <= sBufferLength ->
  take (mBufferPos rb) (mBuffer rb) = fbs ++ t ->
  Frames fbs fsC -> Partial t inp fs ->
  exists rb',
    translateBuffer rb = (rb', fsC) /\
    length (mBuffer rb') = sBufferLength /\
    ((length t < sLowWaterMark /\
      reading rb' = IntoFixedBuffer /\ mBufferPos rb' = length t /\
      take (length t) (mBuffer rb') = t) \/
     (sLowWaterMark <= length t /\
      exists sid payload p1 hdr e rest fs',
        fs = (sid, payload) :: fs' /\ payload = p1 ++ e /\ e <> [] /\ t = hdr ++ p1 /\
        inp = e ++ rest /\ Frames rest fs' /\
        reading rb' = IntoChunk /\ mNewChunkID rb' = sid /\
        mNewChunk rb' = p1 ++ replicate (length e) Byte.x00 /\
        mBufferPos rb' = length p1)).
Proof.
  intros Hlen Hpos Hdata HfC HP.
  assert (Hdl : length (fbs ++ t) = mBufferPos rb).
  { rewrite <- Hdata, length_take. lia. }
  unfold translateBuffer. rewrite Hdata.
  destruct (scan_frames fbs fsC HfC (mBufferPos rb) t ltac:(lia)) as (fuel' & Hf' & Hscan).
  rewrite Hscan.
  destruct (scan_Partial fuel' t inp fs HP Hf')
    as [[Hsmall Hs] | (Hlarge & sid & payload & p1 & hdr & e & rest & fs' & H1 & H2 & H3 & H4 & H5 & H6 & Hs)];
    rewrite Hs; cbn [fst snd]; rewrite app_nil_r.
  - eexists. split; [reflexivity |]. cbn [mBuffer mBufferPos reading].
    assert (length t <= sBufferLength) by (rewrite length_app in Hdl; lia).
    split; [rewrite length_app, length_drop; lia |].
    left. split; [exact Hsmall |]. split; [reflexivity |]. split; [reflexivity |].
    rewrite take_app_length. reflexivity.
  - eexists. split; [reflexivity |]. cbn [mBuffer mBufferPos reading mNewChunk mNewChunkID].
    split; [exact Hlen |]. right. split; [exact Hlarge |].
    exists sid, payload, p1, hdr, e, rest, fs'. repeat split; assumption.
Qed.

Lemma translateBuffer_Inv (rb : ReadBuffer) (inp : list byte) (fs : list Delivery) :
  length (mBuffer rb) = sBufferLength -> mBufferPos rb <= sBufferLength ->
  Frames (take (mBufferPos rb) (mBuffer rb) ++ inp) fs ->
  exists rb' out fs',
    translateBuffer rb = (rb', out) /\ fs = out ++ fs' /\ Inv rb' inp fs'.
Proof.
  intros Hlen Hpos HF.
  destruct (split_prefix _ _ HF _ _ eq_refl) as (fbs & fsC & t & fs' & Hd & HfC & -> & HP).
  destruct (translateBuffer_spec rb fbs t inp fsC fs' Hlen Hpos Hd HfC HP)
    as (rb' & E & Hlen' & Hcase).
  exists rb', fsC, fs'. split; [exact E |]. split; [reflexivity |].
  split; [exact Hlen' |].
  destruct Hcase as [(Hsmall & Hr & Hp & Ht)
    | (Hlarge & sid & payload & p1 & hdr & e & rest & fs'' & -> & -> & He & _ & -> & Hrest & Hr & Hid & Hc & Hp)];
    rewrite Hr.
  - rewrite Hp, Ht. split; assumption.
  - exists (p1 ++ e), rest, fs''. rewrite Hid, Hc, Hp.
    split; [reflexivity |].
    split; [rewrite !length_app, length_replicate; reflexivity |].
    split; [rewrite length_app; destruct e; [contradiction | cbn; lia] |].
    split; [rewrite !take_app_length; reflexivity |].
    split; [rewrite drop_app_length; reflexivity | exact Hrest].
Qed.

(** One completion, with bytes that are next in the stream and fit the
    room. *)
Lemma completion_Inv (rb : ReadBuffer) (bs inp : list byte) (fs : list Delivery) :
  Inv rb (bs ++ inp) fs -> 1 <= length bs <= capacity rb ->
  exists rb' out fs',
    completion rb bs = (rb', out) /\ fs = out ++ fs' /\ Inv rb' inp fs'.
Proof.
  intros [Hlen H] Hbs. unfold completion, capacity in *.
  destruct (reading rb) eqn:Hr.
  - destruct H as [Hpos HP]. unfold asioReadIntoFixedBuffer.
    unfold sLowWaterMark, sBufferLength in *.
    apply translateBuffer_Inv; cbn [mBuffer mBufferPos].
    + rewrite length_writeAt by lia. exact Hlen.
    + unfold sBufferLength. lia.
    + rewrite take_writeAt by lia. rewrite <- app_assoc.
      apply Partial_Frames. exact HP.
  - destruct H as (payload & rest & fs' & -> & Hc & Hpos & Htake & Hinp & Hrest).
    assert (Hsplit : exists y, drop (mBufferPos rb) payload = bs ++ y /\ inp = y ++ rest).
    { apply (app_split_le bs inp (drop (mBufferPos rb) payload) rest Hinp).
      rewrite length_drop. lia. }
    destruct Hsplit as (y & Hy & ->).
    assert (Hly : length payload - mBufferPos rb = length bs + length y).
    { rewrite <- length_drop, Hy. apply length_app. }
    unfold asioReadIntoChunk. cbn [negb].
    rewrite length_writeAt by lia.
    assert (Hw : take (mBufferPos rb + length bs) (writeAt (mNewChunk rb) (mBufferPos rb) bs)
                 = take (mBufferPos rb + length bs) payload).
    { rewrite take_writeAt by lia. rewrite Htake.
      rewrite <- (take_drop (mBufferPos rb) payload) at 2.
      rewrite take_app_add' by (rewrite length_take; lia).
      rewrite Hy, take_app_length. reflexivity. }
    destruct (length (mNewChunk rb) <=? mBufferPos rb + length bs) eqn:Hfull.
    + apply Nat.leb_le in Hfull.
      assert (y = []) as -> by (destruct y; [reflexivity | cbn in Hly; lia]).
      eexists _, _, fs'. split; [reflexivity |].
      assert (Hwhole : writeAt (mNewChunk rb) (mBufferPos rb) bs = payload).
      { rewrite <- (take_ge (writeAt (mNewChunk rb) (mBufferPos rb) bs)
                      (mBufferPos rb + length bs)) by (rewrite length_writeAt; lia).
        rewrite Hw. apply take_ge. lia. }
      rewrite Hwhole. split; [reflexivity |].
      split; [exact Hlen |]. cbn [reading mBufferPos mBuffer].
      split; [unfold sLowWaterMark; lia |]. cbn. apply Partial_start. exact Hrest.
    + apply Nat.leb_gt in Hfull.
      eexists _, _, ((mNewChunkID rb, payload) :: fs'). split; [reflexivity |].
      split; [reflexivity |]. split; [exact Hlen |].
      cbn [reading mBufferPos mBuffer mNewChunk mNewChunkID].
      exists payload, rest, fs'. split; [reflexivity |].
      split; [rewrite length_writeAt by lia; exact Hc |].
      split; [lia |]. split; [exact Hw |]. split; [| exact Hrest].
      f_equal. rewrite <- drop_drop, Hy, drop_app_length. reflexivity.
  - contradiction.
Qed.

Lemma pieceSize_bounds (policy : nat -> nat) (room available : nat) :
  0 < room -> 0 < available ->
  1 <= pieceSize policy room available <= Nat.min room available.
Proof. unfold pieceSize. lia. Qed.

(** However the pipe cuts the stream into pieces, the frames handed on are
    the frames of the stream, in order. *)
Lemma feed_Inv (policy : nat -> nat) (fuel : nat) :
  forall rb inp fs, length inp <= fuel -> Inv rb inp fs ->
    feed policy fuel rb inp = fs.
Proof.
  induction fuel as [| fuel IH]; intros rb inp fs Hlen HI.
  - destruct inp; [| cbn in Hlen; lia]. cbn. symmetry. exact (Inv_end _ _ HI).
  - destruct inp as [| b inp0] eqn:Hinp; [cbn; symmetry; exact (Inv_end _ _ HI) |].
    rewrite <- Hinp in *. cbn [feed]. rewrite Hinp at 1.
    pose proof (Inv_capacity _ _ _ HI) as Hcap.
    assert ((capacity rb =? 0) = false) as -> by (apply Nat.eqb_neq; lia).
    assert (Hpos : 0 < length inp) by (rewrite Hinp; cbn; lia).
    pose proof (pieceSize_bounds policy (capacity rb) (length inp) Hcap Hpos) as Hk.
    set (k := pieceSize policy (capacity rb) (length inp)) in *.
    rewrite <- (take_drop k inp) in HI.
    destruct (completion_Inv rb (take k inp) (drop k inp) fs HI) as (rb' & out & fs' & E & -> & HI').
    { rewrite length_take. lia. }
    rewrite E. f_equal. apply IH; [| exact HI'].
    rewrite length_drop. lia.
Qed.

(** C6 (on the model of the read buffer): for a stream [B] that is the
    concatenation of the well-formed frames [fs], feeding [B] one byte per
    completion hands on [fs], and so does feeding it in pieces as large as
    the buffer has room for; if [B] fits the fixed buffer, that is a
    single completion with all of [B]. *)
Theorem feed_bytewise_as_single (B : list byte) (fs : list Delivery) :
  Frames B fs ->
  feed byteWise (length B) initial B = fs /\
  feed greedy (length B) initial B = fs /\
  feed byteWise (length B) initial B = feed greedy (length B) initial B /\
  (1 <= length B <= sBufferLength -> (completion initial B).2 = fs).
Proof.
  intros HF. pose proof (Inv_initial B fs HF) as HI.
  pose proof (feed_Inv byteWise (length B) initial B fs (le_n _) HI) as H1.
  pose proof (feed_Inv greedy (length B) initial B fs (le_n _) HI) as H2.
  split; [exact H1 |]. split; [exact H2 |]. split; [congruence |].
  intros Hlen. rewrite <- (app_nil_r B) in HI.
  destruct (completion_Inv initial B [] fs HI Hlen) as (rb' & out & fs' & E & -> & HI').
  rewrite E. cbn [snd]. rewrite (Inv_end _ _ HI'). symmetry. apply app_nil_r.
Qed.

Ltac frame_bytes lenB sidB L :=
  exists lenB, sidB, L; repeat split; vm_compute; reflexivity.

Lemma sampleStream_Frames :
  Frames sampleStream
    [(7%N, [Byte.x0a]); (7%N, [Byte.x14; Byte.x15]); (7%N, [Byte.x1e; Byte.x1f; Byte.x20])].
Proof.
  apply (Frames_cons [Byte.x02; Byte.x07; Byte.x0a] 7%N [Byte.x0a]);
    [frame_bytes [Byte.x02] [Byte.x07] 2%N |].
  apply (Frames_cons [Byte.x03; Byte.x07; Byte.x14; Byte.x15] 7%N [Byte.x14; Byte.x15]);
    [frame_bytes [Byte.x03] [Byte.x07] 3%N |].
  apply (Frames_cons [Byte.x04; Byte.x07; Byte.x1e; Byte.x1f; Byte.x20] 7%N
           [Byte.x1e; Byte.x1f; Byte.x20] [] []);
    [frame_bytes [Byte.x04] [Byte.x07] 4%N | constructor].
Qed.

Lemma feed_bytewise_as_single_witness :
  feed byteWise (length sampleStream) initial sampleStream
  = feed greedy (length sampleStream) initial sampleStream /\
  (completion initial sampleStream).2
  = [(7%N, [Byte.x0a]); (7%N, [Byte.x14; Byte.x15]); (7%N, [Byte.x1e; Byte.x1f; Byte.x20])].
Proof.
  destruct (feed_bytewise_as_single sampleStream _ sampleStream_Frames)
    as (_ & _ & Heq & Hone).
  split; [exact Heq |]. apply Hone. unfold sBufferLength. cbn. lia.
Defined.

(** C5 (on the model of the read buffer): the fixed buffer is 1440 bytes
    long and stays so.  When the bytes scanned are whole frames [fbs]
    followed by the first bytes [t] of a frame, of which the bytes [e] are
    still to come, [translateBuffer] hands on the whole frames and then: if
    [t] is shorter than 256 bytes, [t] is at offset 0 of the fixed buffer
    and the next read goes into the fixed buffer behind it; otherwise a
    chunk of the size of the payload of the frame is allocated, the bytes
    of [t] behind the header of the frame, which are all of the payload but
    [e], are copied to its front, [mBufferPos] is their number, and the
    following reads go into the chunk behind them: a read that brings [e]
    completes the chunk, which is handed on as the payload of the frame. *)
Theorem translateBuffer_low_water_mark (rb : ReadBuffer) (fbs : list byte)
    (fsC : list Delivery) (fb : list byte) (sid : StreamID) (payload t e : list byte) :
  length (mBuffer rb) = sBufferLength -> mBufferPos rb <= sBufferLength ->
  take (mBufferPos rb) (mBuffer rb) = fbs ++ t -> Frames fbs fsC ->
  FrameBytes fb sid payload -> fb = t ++ e -> e <> [] ->
  let rb' := (translateBuffer rb).1 in
  sBufferLength = 1440 /\ sLowWaterMark = 256 /\ length (mBuffer initial) = 1440 /\
  (translateBuffer rb).2 = fsC /\ length (mBuffer rb') = 1440 /\
  (length t < 256 ->
     reading rb' = IntoFixedBuffer /\ mBufferPos rb' = length t /\
     take (length t) (mBuffer rb') = t /\
     forall bs, completion rb' bs =
       translateBuffer (mkReadBuffer (writeAt (mBuffer rb') (length t) bs)
                          (length t + length bs) (mNewChunk rb') (mNewChunkID rb')
                          IntoFixedBuffer)) /\
  (256 <= length t ->
     reading rb' = IntoChunk /\ mNewChunkID rb' = sid /\
     length (mNewChunk rb') = length payload /\
     (exists hdr, t = hdr ++ take (mBufferPos rb') (mNewChunk rb')) /\
     take (mBufferPos rb') (mNewChunk rb') = take (mBufferPos rb') payload /\
     (forall bs, mBufferPos rb' + length bs < length payload ->
        mNewChunk (completion rb' bs).1 = writeAt (mNewChunk rb') (mBufferPos rb') bs /\
        mBuffer (completion rb' bs).1 = mBuffer rb') /\
     (exists hdr p1,
        fb = hdr ++ payload /\ payload = p1 ++ e /\ t = hdr ++ p1 /\
        240 <= length p1 /\
        mBufferPos rb' = length p1 /\
        mNewChunk rb' = p1 ++ replicate (length e) Byte.x00 /\
        mBuffer rb' = mBuffer rb) /\
     completion rb' e =
       (mkReadBuffer (mBuffer rb) 0 [] sid IntoFixedBuffer, [(sid, payload)])).
Proof.
  intros Hlen Hpos Hdata HfC Hfb Hte He rb'.
  assert (HP : Partial t (e ++ []) [(sid, payload)]).
  { right. exists fb, sid, payload, e, [], []. repeat split; try assumption. constructor. }
  destruct (translateBuffer_spec rb fbs t (e ++ []) fsC _ Hlen Hpos Hdata HfC HP)
    as (rb1 & E & Hlen1 & Hcase).
  assert (Hsame : reading rb1 = IntoChunk -> mBuffer rb1 = mBuffer rb).
  { revert E. unfold translateBuffer.
    destruct (scan _ _) as [out [trailing | sid' chunk received |]];
      intros E; injection E as <- _; cbn [reading mBuffer]; intros Hr;
      [discriminate Hr | reflexivity | discriminate Hr]. }
  subst rb'. rewrite E. cbn [fst snd].
  split; [reflexivity |]. split; [reflexivity |].
  split; [apply length_replicate |]. split; [reflexivity |]. split; [exact Hlen1 |].
  destruct Hcase as [(Hsmall & Hr & Hp & Ht)
    | (Hlarge & sid0 & payload0 & p1 & hdr & e0 & rest & fs' & Hfs & Hpay & He0 & Hhdr & Hinp & Hrest & Hr & Hid & Hc & Hp)].
  - split; [| unfold sLowWaterMark in Hsmall; lia]. intros _.
    split; [exact Hr |]. split; [exact Hp |]. split; [exact Ht |].
    intros bs. unfold completion. rewrite Hr. unfold asioReadIntoFixedBuffer.
    rewrite Hp, Hr. reflexivity.
  - split; [unfold sLowWaterMark in Hlarge; lia |]. intros _.
    injection Hfs as <- <- <-.
    inversion Hrest; subst rest. rewrite !app_nil_r in Hinp. subst e0.
    assert (Hlc : length (mNewChunk rb1) = length payload).
    { rewrite Hc, Hpay, !length_app, length_replicate. reflexivity. }
    assert (Hfbh : fb = hdr ++ payload).
    { rewrite Hte, Hhdr, Hpay, <- app_assoc. reflexivity. }
    assert (Hh : length hdr <= 16).
    { destruct Hfb as (lenB & sidB & L & Hfb & Hl & Hs & _).
      pose proof (decodeVarint_width _ _ _ Hl) as [Hwl _].
      pose proof (decodeVarint_width _ _ _ Hs) as [Hws _].
      assert (Hx : length fb = length fb) by reflexivity.
      rewrite Hfb in Hx at 1. rewrite Hfbh in Hx at 1.
      rewrite !length_app in Hx. lia. }
    split; [exact Hr |]. split; [exact Hid |]. split; [exact Hlc |].
    split; [exists hdr; rewrite Hp, Hc, take_app_length; exact Hhdr |].
    split; [rewrite Hp, Hc, Hpay, !take_app_length; reflexivity |].
    split.
    { intros bs Hbs. unfold completion. rewrite Hr. unfold asioReadIntoChunk.
      rewrite length_writeAt by lia.
      assert ((length (mNewChunk rb1) <=? mBufferPos rb1 + length bs) = false) as ->
        by (apply Nat.leb_gt; lia).
      split; reflexivity. }
    split.
    { exists hdr, p1. split; [exact Hfbh |]. split; [exact Hpay |].
      split; [exact Hhdr |].
      split; [unfold sLowWaterMark in Hlarge; rewrite Hhdr, length_app in Hlarge; lia |].
      split; [exact Hp |]. split; [exact Hc | exact (Hsame Hr)]. }
    unfold completion. rewrite Hr. unfold asioReadIntoChunk.
    rewrite Hid, Hp, Hc, (Hsame Hr).
    assert (Hw : writeAt (p1 ++ replicate (length e) Byte.x00) (length p1) e = payload).
    { unfold writeAt. rewrite take_app_length.
      rewrite drop_ge by (rewrite length_app, length_replicate; lia).
      rewrite app_nil_r. symmetry. exact Hpay. }
    rewrite Hw.
    assert ((length payload <=? length p1 + length e) = true) as ->
      by (apply Nat.leb_le; rewrite Hpay, length_app; lia).
    reflexivity.
Qed.

(** The fixed buffer after the first ten bytes of [sampleStream] have
    arrived: two whole frames and three bytes of the third. *)
Definition sampleBuffer : ReadBuffer :=
  mkReadBuffer (writeAt (replicate sBufferLength Byte.x00) 0 (take 10 sampleStream))
    10 [] 0%N IntoFixedBuffer.

(** A frame of 300 bytes behind its two-byte length field (stream 3,
    payload of 299 bytes), of which 256 bytes have arrived: the payload
    bytes at hand, 253 of them, go into a chunk of 299 bytes. *)
Definition largeBuffer : ReadBuffer :=
  mkReadBuffer
    (writeAt (replicate sBufferLength Byte.x00) 0
       ([Byte.x6c; Byte.x04; Byte.x03] ++ replicate 253 Byte.x01))
    256 [] 0%N IntoFixedBuffer.

Lemma translateBuffer_low_water_mark_witness :
  ((translateBuffer sampleBuffer).2 = [(7%N, [Byte.x0a]); (7%N, [Byte.x14; Byte.x15])] /\
   reading (translateBuffer sampleBuffer).1 = IntoFixedBuffer /\
   take 3 (mBuffer (translateBuffer sampleBuffer).1) = [Byte.x04; Byte.x07; Byte.x1e]) /\
  ((translateBuffer largeBuffer).2 = [] /\
   reading (translateBuffer largeBuffer).1 = IntoChunk /\
   mNewChunkID (translateBuffer largeBuffer).1 = 3%N /\
   length (mNewChunk (translateBuffer largeBuffer).1) = 299 /\
   (exists hdr p1,
      [Byte.x6c; Byte.x04; Byte.x03] ++ replicate 299 Byte.x01
        = hdr ++ replicate 299 Byte.x01 /\
      replicate 299 Byte.x01 = p1 ++ replicate 46 Byte.x01 /\
      mBufferPos (translateBuffer largeBuffer).1 = length p1 /\
      mNewChunk (translateBuffer largeBuffer).1 = p1 ++ replicate 46 Byte.x00) /\
   (completion (translateBuffer largeBuffer).1 (replicate 46 Byte.x01)).2
     = [(3%N, replicate 299 Byte.x01)]).
Proof.
  split.
  - assert (HfC : Frames [Byte.x02; Byte.x07; Byte.x0a; Byte.x03; Byte.x07; Byte.x14; Byte.x15]
                    [(7%N, [Byte.x0a]); (7%N, [Byte.x14; Byte.x15])]).
    { apply (Frames_cons [Byte.x02; Byte.x07; Byte.x0a] 7%N [Byte.x0a]);
        [frame_bytes [Byte.x02] [Byte.x07] 2%N |].
      apply (Frames_cons [Byte.x03; Byte.x07; Byte.x14; Byte.x15] 7%N [Byte.x14; Byte.x15] [] []);
        [frame_bytes [Byte.x03] [Byte.x07] 3%N | constructor]. }
    destruct (translateBuffer_low_water_mark sampleBuffer
                [Byte.x02; Byte.x07; Byte.x0a; Byte.x03; Byte.x07; Byte.x14; Byte.x15]
                [(7%N, [Byte.x0a]); (7%N, [Byte.x14; Byte.x15])]
                [Byte.x04; Byte.x07; Byte.x1e; Byte.x1f; Byte.x20] 7%N
                [Byte.x1e; Byte.x1f; Byte.x20] [Byte.x04; Byte.x07; Byte.x1e]
                [Byte.x1f; Byte.x20])
      as (_ & _ & _ & Hout & _ & Hsmall & _).
    + vm_compute. reflexivity.
    + unfold sBufferLength. cbn. lia.
    + vm_compute. reflexivity.
    + exact HfC.
    + frame_bytes [Byte.x04] [Byte.x07] 4%N.
    + reflexivity.
    + discriminate.
    + destruct Hsmall as (Hr & _ & Ht & _); [cbn; lia |].
      split; [exact Hout |]. split; [exact Hr | exact Ht].
  - destruct (translateBuffer_low_water_mark largeBuffer [] []
                ([Byte.x6c; Byte.x04; Byte.x03] ++ replicate 299 Byte.x01) 3%N
                (replicate 299 Byte.x01)
                ([Byte.x6c; Byte.x04; Byte.x03] ++ replicate 253 Byte.x01)
                (replicate 46 Byte.x01))
      as (_ & _ & _ & Hout & _ & _ & Hlarge).
    + vm_compute. reflexivity.
    + unfold sBufferLength. cbn. lia.
    + vm_compute. reflexivity.
    + constructor.
    + exists [Byte.x6c; Byte.x04], [Byte.x03], 300%N.
      repeat split; vm_compute; reflexivity.
    + vm_compute. reflexivity.
    + discriminate.
    + destruct Hlarge as (Hr & Hid & Hlc & _ & _ & _ & (hdr & p1 & H1 & H2 & _ & _ & H3 & H4 & _) & Hdone);
        [apply Nat.leb_le; vm_compute; reflexivity |].
      split; [exact Hout |]. split; [exact Hr |]. split; [exact Hid |].
      split; [rewrite Hlc; apply length_replicate |].
      split; [exists hdr, p1; repeat split; assumption |].
      rewrite Hdone. reflexivity.
Defined.

Example large_frame_goes_to_chunk :
  let rb' := (translateBuffer largeBuffer).1 in
  (translateBuffer largeBuffer).2 = [] /\
  reading rb' = IntoChunk /\ mNewChunkID rb' = 3%N /\
  length (mNewChunk rb') = 299 /\ mBufferPos rb' = 253 /\
  take 253 (mNewChunk rb') = replicate 253 Byte.x01.
Proof. vm_compute. repeat split. Qed.

(** Scenario S1: the three frames of [sampleStream] in one completion
    leave no trailing bytes in the fixed buffer. *)
Example coalesced_frames_leave_nothing :
  mBufferPos (completion initial sampleStream).1 = 0 /\
  reading (completion initial sampleStream).1 = IntoFixedBuffer /\
  length (completion initial sampleStream).2 = 3.
Proof. vm_compute. repeat split. Qed.

(** Scenario S2: one frame with a payload of 4096 bytes on stream 3 (4099
    bytes on the wire) that arrives in pieces of 512, 2000 and 1587 bytes:
    the first piece goes to the fixed buffer, the others to the chunk. *)
Definition largeStream : list byte :=
  [Byte.x41; Byte.x40; Byte.x03] ++ replicate 4096 Byte.x2a.

Definition threePieces (room : nat) : nat :=
  if room =? sBufferLength then 512 else if room =? 3587 then 2000 else room.

Example large_frame_in_three_pieces :
  feed threePieces 3 initial largeStream = [(3%N, replicate 4096 Byte.x2a)] /\
  reading (completion initial (take 512 largeStream)).1 = IntoChunk /\
  capacity (completion initial (take 512 largeStream)).1 = 3587.
Proof. vm_compute. repeat split. Qed.

End ASIOReadBuffer.
